(** * iTunes Artwork Finder: query parser and artwork-URL derivation

    A shallow embedding of [parseSearchTerm] and of the URL rewriting done
    inside [displayResults] (src/js/app.js), with the properties of the
    specification stated over it; and of the request builders, the relay
    (src/api/itunes.js), [onload], the image of the modal, the title of a
    card and the name a link is saved under, with further properties.

    Modelling conventions.
    - A JavaScript string is a list of code units.  The model covers the code
      units U+0000..U+00FF (one [ascii] each); on that range [toLowerCase],
      [trim] and the regular-expression classes below are written out in full.
    - A regular expression is embedded as a backtracking matcher in
      continuation-passing style, the way ECMA-262 defines pattern semantics:
      a matcher receives the continuation that must accept the rest of the
      input, and alternatives are tried in priority order (greedy: longest
      first, lazy: shortest first).
    - The results of [parseSearchTerm] are a record; the entity and attribute
      strings of the source, which are drawn from fixed tables, are
      enumerations. *)

From Stdlib Require Import Ascii String List Bool Arith Lia NArith DecimalString.
Import ListNotations.

Open Scope string_scope.
Open Scope list_scope.
Open Scope nat_scope.

(** ** Strings *)

Module JS.

Definition str : Type := list ascii.

Definition lit (s : string) : list ascii := list_ascii_of_string s.

Definition code (c : ascii) : nat := nat_of_ascii c.

Definition between (lo hi : nat) (c : ascii) : bool :=
  (lo <=? code c) && (code c <=? hi).

(** [\d] *)
Definition isDigit (c : ascii) : bool := between 48 57 c.

(** WhiteSpace and LineTerminator code units below U+0100: TAB, LF, VT, FF,
    CR, SPACE and NBSP.  This is the set of [\s] and of [trim]. *)
Definition isWhiteSpace (c : ascii) : bool :=
  between 9 13 c || (code c =? 32) || (code c =? 160).

(** Line terminators below U+0100 (the characters [.] refuses). *)
Definition isLineTerminator (c : ascii) : bool :=
  (code c =? 10) || (code c =? 13).

(** [.] *)
Definition dot (c : ascii) : bool := negb (isLineTerminator c).

(** [[^\s]] *)
Definition notSpace (c : ascii) : bool := negb (isWhiteSpace c).

(** [[^\/]] *)
Definition notSlash (c : ascii) : bool := negb (Ascii.eqb c "/").

(** [String.prototype.toLowerCase] on one code unit: A-Z, and the Latin-1
    capitals U+00C0..U+00DE except the multiplication sign U+00D7.  Above
    U+00FF, which the model leaves out, a code unit can lower-case to an
    ASCII letter that the [i] flag does not equate with it (U+212A and [k]);
    a prefix typed in another letter case is therefore described below by
    [sameText], the relation of the [i] flag, which implies the lower-case
    form on every code unit. *)
Definition toLowerChar (c : ascii) : ascii :=
  if between 65 90 c || (between 192 222 c && negb (code c =? 215))
  then ascii_of_nat (code c + 32) else c.

Definition toLowerCase (s : str) : str := map toLowerChar s.

(** Canonicalize of a case-insensitive pattern without the [u] flag: the
    upper-case form when it is a single code unit; U+00B5 and U+00FF, whose
    capitals lie above U+00FF and equal no other canonical form, stand for
    themselves. *)
Definition canonicalize (c : ascii) : ascii :=
  if between 97 122 c || (between 224 254 c && negb (code c =? 247))
  then ascii_of_nat (code c - 32) else c.

Definition eqi (a b : ascii) : bool :=
  Ascii.eqb (canonicalize a) (canonicalize b).

Fixpoint startsWith (p s : str) : bool :=
  match p, s with
  | [], _ => true
  | a :: p', b :: s' => Ascii.eqb a b && startsWith p' s'
  | _ :: _, [] => false
  end.

Definition endsWith (p s : str) : bool := startsWith (rev p) (rev s).

Fixpoint includes (p s : str) : bool :=
  startsWith p s ||
  match s with
  | [] => false
  | _ :: s' => includes p s'
  end.

Fixpoint trimStart (s : str) : str :=
  match s with
  | c :: s' => if isWhiteSpace c then trimStart s' else s
  | [] => []
  end.

Definition trimEnd (s : str) : str := rev (trimStart (rev s)).

Definition trim (s : str) : str := trimEnd (trimStart s).

(** Truthiness of a string: the empty string is the only falsy one. *)
Definition truthy (s : str) : bool :=
  match s with [] => false | _ :: _ => true end.

(** Number-to-string conversion of a template literal, for the non-negative
    integers the sizes are.  A JavaScript number holds every integer up to
    2^53 exactly and prints it in plain decimal digits; [safeInteger] is that
    range. *)
Definition numberToString (n : N) : str :=
  lit (NilZero.string_of_uint (N.to_uint n)).

Definition safeInteger (n : N) : Prop := (n <= 9007199254740992)%N.

End JS.

Import JS.
Coercion JS.lit : string >-> list.

(** ** Regular expressions as backtracking matchers *)

Module Re.

Section Matchers.
Context {R : Type}.

(** A continuation takes the rest of the input and says whether (and with
    what result) the remainder of the pattern matches there. *)
Definition cont : Type := str -> option R.

(** One character of a class. *)
Definition chr (p : ascii -> bool) (k : cont) : cont :=
  fun s =>
    match s with
    | c :: s' => if p c then k s' else None
    | [] => None
    end.

(** A literal character sequence. *)
Fixpoint lits (cs : str) (k : cont) : cont :=
  match cs with
  | [] => k
  | c :: cs' => chr (Ascii.eqb c) (lits cs' k)
  end.

(** A literal character sequence under the [i] flag. *)
Fixpoint litsi (cs : str) (k : cont) : cont :=
  match cs with
  | [] => k
  | c :: cs' => chr (eqi c) (litsi cs' k)
  end.

(** [c*]: as many characters as possible, giving them back one at a time
    while the continuation refuses. *)
Fixpoint star (p : ascii -> bool) (k : cont) (s : str) : option R :=
  match s with
  | c :: s' =>
      if p c then
        match star p k s' with
        | Some r => Some r
        | None => k s
        end
      else k s
  | [] => k []
  end.

(** [c+] *)
Definition plus (p : ascii -> bool) (k : cont) : cont := chr p (star p k).

(** [c*?]: as few characters as possible. *)
Fixpoint starLazy (p : ascii -> bool) (k : cont) (s : str) : option R :=
  match k s with
  | Some r => Some r
  | None =>
      match s with
      | c :: s' => if p c then starLazy p k s' else None
      | [] => None
      end
  end.

(** [a|b] *)
Definition alt (m1 m2 : cont -> cont) (k : cont) : cont :=
  fun s =>
    match m1 k s with
    | Some r => Some r
    | None => m2 k s
    end.

(** [a?] *)
Definition opt (m : cont -> cont) (k : cont) : cont :=
  alt m (fun k' => k') k.

(** [$] (no [m] flag): the end of the input. *)
Definition eos (k : cont) : cont :=
  fun s => match s with [] => k [] | _ :: _ => None end.

(** A capture group: the text [m] consumed is handed to the continuation. *)
Definition capture (m : cont -> cont) (k : str -> cont) : cont :=
  fun s => m (fun rest => k (firstn (length s - length rest) s) rest) s.

End Matchers.

(** [(?=a)] and [(?!a)] *)
Definition lookahead {R} (m : @cont unit -> @cont unit) (k : @cont R) : @cont R :=
  fun s => match m (fun _ => Some tt) s with Some _ => k s | None => None end.

Definition lookaheadNot {R} (m : @cont unit -> @cont unit) (k : @cont R) : @cont R :=
  fun s => match m (fun _ => Some tt) s with Some _ => None | None => k s end.

(** A successful match of a pattern used by [replace]: the replacement text
    and the input left after the match. *)
Definition hit : Type := (str * str)%type.

Definition ret (new : str) : @cont hit := fun rest => Some (new, rest).

(** [String.prototype.match] and [RegExp.prototype.test] of a pattern without
    the [g] flag: the first position, from the left, where the pattern
    matches; the matched text is returned with the result. *)
Fixpoint search {R} (m : @cont (R * str)) (s : str) : option (str * R) :=
  match m s with
  | Some (r, rest) => Some (firstn (length s - length rest) s, r)
  | None =>
      match s with
      | [] => None
      | _ :: s' => search m s'
      end
  end.

(** [String.prototype.replace] with a pattern without the [g] flag: the
    leftmost match is replaced, the text before and after it is kept. *)
Fixpoint replace (m : @cont hit) (s : str) : str :=
  match m s with
  | Some (new, rest) => new ++ rest
  | None =>
      match s with
      | [] => []
      | c :: s' => c :: replace m s'
      end
  end.

(** [replace] with a pattern that starts with [^]: position 0 only. *)
Definition replaceAtStart (m : @cont hit) (s : str) : str :=
  match m s with
  | Some (new, rest) => new ++ rest
  | None => s
  end.

(** [replace] with the [g] flag.  [skip] counts the characters of the current
    match that are still to be passed over; after an empty match the scan
    advances by one character. *)
Fixpoint replaceAllFrom (m : @cont hit) (skip : nat) (s : str) : str :=
  match skip with
  | S n =>
      match s with
      | [] => []
      | _ :: s' => replaceAllFrom m n s'
      end
  | 0 =>
      match m s with
      | Some (new, rest) =>
          match length s - length rest, s with
          | S n, _ :: s' => new ++ replaceAllFrom m n s'
          | 0, c :: s' => new ++ c :: replaceAllFrom m 0 s'
          | _, [] => new
          end
      | None =>
          match s with
          | [] => []
          | c :: s' => c :: replaceAllFrom m 0 s'
          end
      end
  end.

Definition replaceAll (m : @cont hit) (s : str) : str := replaceAllFrom m 0 s.

End Re.

Import Re.

(** ** Entities and attributes *)

(** The values of [entityMap] and of the [entity] fields of
    [attributeEntityMap]; ['album'] is the initial value. *)
Inductive Entity : Type :=
  | album | song | audiobook | ebook | movie | tvSeason | software.

(** The [attribute] strings of [attributeEntityMap]; [noAttribute] is the
    empty string. *)
Inductive Attribute : Type :=
  | noAttribute
  | artistTerm | titleTerm | authorTerm | directorTerm | actorTerm
  | composerTerm.

(** ** Artwork URLs ([displayResults]) *)

Module Artwork.

(** [/(\/)\d+x\d+(bb)?/], replaced by [`$1${size}x${size}-999`].  The pattern
    has two groups, so the digits of the size that follow [$1] in the
    replacement are literal text and never part of a two-digit group
    reference. *)
Definition sizeToken (size : N) : @cont hit :=
  capture (lits "/") (fun g1 =>
    plus isDigit (lits "x" (plus isDigit (opt (lits "bb")
      (ret (g1 ++ numberToString size ++ "x" ++ numberToString size
               ++ "-999")))))).

(** [/\.jpg$/], replaced by ['.png']. *)
Definition jpgAtEnd : @cont hit := lits ".jpg" (eos (ret ".png")).

(** The pattern of the high-resolution rewrite, anchored at both ends:
    [https:\/\/], a lazy [.*?], [\.mzstatic\.com\/image\/thumb\/], group 1
    (a greedy run of [.]), [\/], a greedy run of [.], [\.(jpg|png)]; replaced
    by [https://a1.mzstatic.com/us/r1000/063/$1]. *)
Definition cdnThumb : @cont hit :=
  lits "https://" (starLazy dot (lits ".mzstatic.com/image/thumb/"
    (capture (star dot) (fun g1 =>
       lits "/" (star dot (lits "." (alt (lits "jpg") (lits "png")
         (eos (ret ("https://a1.mzstatic.com/us/r1000/063/" ++ g1)))))))))).

(** [\.(jpg|png|webp|tif)] *)
Definition imageExt {R} (k : @cont R) : @cont R :=
  lits "." (alt (lits "jpg") (alt (lits "png") (alt (lits "webp") (lits "tif"))) k).

(** [/\/([^\/]*?)bb(\.(jpg|png|webp|tif))$/], replaced by ['/$1$2']. *)
Definition bbInLastSegment : @cont hit :=
  lits "/" (capture (starLazy notSlash) (fun g1 =>
    lits "bb" (capture imageExt (fun g2 =>
      eos (ret ("/" ++ g1 ++ g2)))))).

(** [/bb(\.(jpg|png|webp|tif))$/], replaced by ['$1']. *)
Definition bbBeforeExt : @cont hit :=
  lits "bb" (capture imageExt (fun g1 => eos (ret g1))).

(** [/\.(png|webp|tif)$/], replaced by ['']. *)
Definition otherExtAtEnd : @cont hit :=
  lits "." (alt (lits "png") (alt (lits "webp") (lits "tif")) (eos (ret ""))).

(** [/bb(?=\.jpg)/], replaced by ['']. *)
Definition bbBeforeJpg : @cont hit :=
  lits "bb" (lookahead (lits ".jpg") (ret "")).

(** [/(1467x2200)(?!-999)(?=\.jpg)/], replaced by ['$1-999']. *)
Definition ebookSizeBeforeJpg : @cont hit :=
  capture (lits "1467x2200") (fun g1 =>
    lookaheadNot (lits "-999") (lookahead (lits ".jpg") (ret (g1 ++ "-999")))).

(** [/-999$/.test(s)] *)
Definition endsInMarker (s : str) : bool :=
  match search (lits "-999" (eos (fun rest => Some (tt, rest)))) s with
  | Some _ => true
  | None => false
  end.

(** One link of [linksHtml]: the text of the [<span>] and the [href]. *)
Record Link : Type := { label : str; href : str }.

(** What [displayResults] computes for one result: the preview image and the
    download links, in the order they are rendered. *)
Record ArtworkLinkSet : Type := { preview : str; links : list Link }.

Section Result.
(** The parameters of [displayResults] that the callback closes over, and
    the [artworkUrl100] field of the result at hand. *)
Variable entity : Entity.
Variable usePng : bool.
Variable artworkUrl100 : str.

Definition fixArtworkUrl (url : str) (size : N) : str :=
  let newUrl := replace (sizeToken size) url in
  let newUrl :=
    if negb (endsWith ".jpg" newUrl) then newUrl ++ ".jpg" else newUrl in
  let newUrl := if usePng then replace jpgAtEnd newUrl else newUrl in
  newUrl.

Definition artworkUrl300 : str := fixArtworkUrl artworkUrl100 300.
Definition artworkUrl600 : str := fixArtworkUrl artworkUrl100 600.
Definition artworkUrl1500 : str := fixArtworkUrl artworkUrl100 1500.
Definition artworkUrl3000 : str := fixArtworkUrl artworkUrl100 3000.

Definition artworkUrl5000 : str :=
  let artworkUrl5000 := fixArtworkUrl artworkUrl100 10000 in
  let artworkUrl5000 := replaceAtStart cdnThumb artworkUrl5000 in
  replace bbInLastSegment artworkUrl5000.

Definition artworkUrl1467x2200 : str :=
  match entity with
  | ebook =>
      let u := replace (lits "100x100" (ret "1467x2200")) artworkUrl100 in
      let u := replace bbBeforeJpg u in
      let u := replace ebookSizeBeforeJpg u in
      let u :=
        if negb (endsWith ".jpg" u) then
          (if negb (endsInMarker u) then u ++ "-999" else u) ++ ".jpg"
        else u in
      if usePng then replace jpgAtEnd u else u
  | _ => ""
  end.

Definition movieHdUrl : str :=
  let movieHdUrl := replace (lits "100x100" (ret "10000x10000-999")) artworkUrl100 in
  let movieHdUrl := replace bbBeforeExt movieHdUrl in
  let movieHdUrl :=
    if negb (endsWith ".jpg" movieHdUrl) then
      let movieHdUrl := replace otherExtAtEnd movieHdUrl in
      if negb (endsWith ".jpg" movieHdUrl) then movieHdUrl ++ ".jpg"
      else movieHdUrl
    else movieHdUrl in
  if usePng then replace jpgAtEnd movieHdUrl else movieHdUrl.

Definition tvHdUrl : str :=
  let tvHdUrl := replace (lits "100x100" (ret "10000x10000-999")) artworkUrl100 in
  let tvHdUrl := replace bbBeforeExt tvHdUrl in
  let tvHdUrl :=
    if negb (endsWith ".jpg" tvHdUrl) then
      let tvHdUrl := replace otherExtAtEnd tvHdUrl in
      if negb (endsWith ".jpg" tvHdUrl) then tvHdUrl ++ ".jpg"
      else tvHdUrl
    else tvHdUrl in
  if usePng then replace jpgAtEnd tvHdUrl else tvHdUrl.

Definition appHdUrl : str :=
  let appHdUrl := fixArtworkUrl artworkUrl100 10000 in
  let appHdUrl := replaceAtStart cdnThumb appHdUrl in
  let appHdUrl := replace bbInLastSegment appHdUrl in
  if usePng then replace jpgAtEnd appHdUrl else appHdUrl.

(** [linksHtml], as the list of its anchors. *)
Definition linksHtml : list Link :=
  match entity with
  | audiobook =>
      let artworkUrl3000Audiobook :=
        if usePng then replace jpgAtEnd artworkUrl3000 else artworkUrl3000 in
      [ {| label := "3000"; href := artworkUrl3000Audiobook |};
        {| label := "HD"; href := artworkUrl5000 |} ]
  | ebook =>
      let artworkUrl1467x2200Ebook :=
        if usePng then replace jpgAtEnd artworkUrl1467x2200
        else artworkUrl1467x2200 in
      [ {| label := "2200"; href := artworkUrl1467x2200Ebook |};
        {| label := "HD"; href := artworkUrl5000 |} ]
  | movie => [ {| label := "HD"; href := movieHdUrl |} ]
  | tvSeason => [ {| label := "HD"; href := tvHdUrl |} ]
  | software => [ {| label := "HD"; href := appHdUrl |} ]
  | _ =>
      [ {| label := "600"; href := artworkUrl600 |};
        {| label := "1500"; href := artworkUrl1500 |};
        {| label := "3000"; href := artworkUrl3000 |};
        {| label := "HD"; href := artworkUrl5000 |} ]
  end.

Definition deriveLinks : ArtworkLinkSet :=
  {| preview := artworkUrl300; links := linksHtml |}.

End Result.

End Artwork.

Import Artwork.

(** ** The query parser ([parseSearchTerm]) *)

Module Query.

Record ParsedQuery : Type := {
  searchTerm : str;
  entity : Entity;
  countryCode : str;
  usePng : bool;
  attribute : Attribute;
  lookupMode : bool
}.

(** [attributeEntityMap], in source order. *)
Definition attributeEntityMap : list (string * (Entity * Attribute)) :=
  [ ("artist:", (album, artistTerm));
    ("title:", (album, titleTerm));
    ("author:", (audiobook, authorTerm));
    ("director:", (movie, directorTerm));
    ("actor:", (movie, actorTerm));
    ("composer:", (album, composerTerm)) ].

(** [entityMap], in source order. *)
Definition entityMap : list (string * Entity) :=
  [ ("album:", album); ("song:", song); ("audiobook:", audiobook);
    ("ebook:", ebook); ("movie:", movie); ("tv:", tvSeason);
    ("app:", software) ].

(** [countryMap], in source order. *)
Definition countryMap : list (string * string) :=
  [ ("uk:", "gb"); ("us:", "us"); ("ca:", "ca"); ("au:", "au");
    ("fr:", "fr"); ("de:", "de"); ("jp:", "jp"); ("it:", "it");
    ("es:", "es"); ("nl:", "nl"); ("br:", "br"); ("mx:", "mx");
    ("ru:", "ru"); ("se:", "se"); ("cn:", "cn"); ("kr:", "kr");
    ("in:", "in"); ("za:", "za"); ("no:", "no"); ("dk:", "dk");
    ("fi:", "fi"); ("pl:", "pl"); ("at:", "at"); ("ch:", "ch");
    ("be:", "be"); ("pt:", "pt"); ("gr:", "gr"); ("tr:", "tr");
    ("ar:", "ar"); ("cl:", "cl"); ("co:", "co"); ("pe:", "pe");
    ("eg:", "eg"); ("th:", "th"); ("id:", "id"); ("my:", "my");
    ("sg:", "sg"); ("ph:", "ph"); ("vn:", "vn"); ("tw:", "tw");
    ("hk:", "hk"); ("nz:", "nz"); ("ie:", "ie"); ("cz:", "cz");
    ("sk:", "sk"); ("hu:", "hu"); ("ro:", "ro"); ("bg:", "bg");
    ("hr:", "hr"); ("si:", "si"); ("lt:", "lt"); ("lv:", "lv");
    ("ee:", "ee"); ("is:", "is"); ("lu:", "lu"); ("mt:", "mt");
    ("cy:", "cy") ].

(** [/\.png/gi], replaced by ['']. *)
Definition pngToken : @cont hit := litsi ".png" (ret "").

(** [new RegExp('^' + prefix, 'i')], replaced by ['']; the prefixes of the
    three tables contain no character that is special in a pattern. *)
Definition prefixPattern (prefix : str) : @cont hit := litsi prefix (ret "").

(** [urlPattern]:
    [/(https?:\/\/(itunes|apps|books)\.apple\.com\/[^\s]+\/id(\d+))/i].
    Group 1 spans the whole pattern, so it is the matched text that [search]
    returns; the result of the matcher is group 3. *)
Definition urlPattern : @cont (str * str) :=
  litsi "http" (opt (litsi "s") (litsi "://"
    (alt (litsi "itunes") (alt (litsi "apps") (litsi "books"))
      (litsi ".apple.com/" (plus notSpace (litsi "/id"
        (capture (plus isDigit) (fun g3 rest => Some (g3, rest))))))))).

(** The [for (const prefix in table)] loops: the first key, in insertion
    order, that [lowerTerm] starts with. *)
Fixpoint findPrefix {V : Type} (table : list (string * V))
    (lowerTerm : str) : option (string * V) :=
  match table with
  | [] => None
  | (p, v) :: table' =>
      if startsWith p lowerTerm then Some (p, v)
      else findPrefix table' lowerTerm
  end.

(** The entity a store URL stands for, from its path. *)
Definition urlEntityOf (urlLower : str) : Entity :=
  if includes "/app/" urlLower then software
  else if includes "/movie/" urlLower then movie
  else if includes "/tv-season/" urlLower || includes "/tvshow/" urlLower
       then tvSeason
  else if includes "/audiobook/" urlLower then audiobook
  else if includes "/book/" urlLower || includes "/books/" urlLower then ebook
  else album.

Definition parseSearchTerm (rawTerm : str) : ParsedQuery :=
  let entity := album in
  let attribute := noAttribute in
  let countryCode : str := "us" in
  (* Detect .png anywhere in the original term *)
  let usePng := truthy rawTerm && includes ".png" (toLowerCase rawTerm) in
  let rawTerm :=
    if usePng then trim (replaceAll pngToken rawTerm) else rawTerm in
  let searchTerm := rawTerm in
  let searchTerm :=
    if truthy searchTerm && includes ".png" (toLowerCase searchTerm)
    then trim (replaceAll pngToken searchTerm) else searchTerm in
  match search urlPattern rawTerm with
  | Some (url, id) =>
      (* the URL branch: the term is the id, prefixes are not parsed *)
      {| searchTerm := id;
         entity := urlEntityOf (toLowerCase url);
         countryCode := countryCode;
         usePng := usePng;
         attribute := noAttribute;
         lookupMode := true |}
  | None =>
      if truthy searchTerm then
        let lowerTerm := toLowerCase searchTerm in
        (* country prefix *)
        let '(countryCode, searchTerm) :=
          match findPrefix countryMap lowerTerm with
          | Some (countryPrefix, code) =>
              (lit code,
               trim (replaceAtStart (prefixPattern countryPrefix) searchTerm))
          | None => (countryCode, searchTerm)
          end in
        let lowerTerm := toLowerCase searchTerm in
        (* entity prefix *)
        let '(entity, searchTerm, entityFound) :=
          match findPrefix entityMap lowerTerm with
          | Some (entityPrefix, e) =>
              (e, trim (replaceAtStart (prefixPattern entityPrefix) searchTerm),
               true)
          | None => (entity, searchTerm, false)
          end in
        let lowerTerm := toLowerCase searchTerm in
        (* attribute prefix *)
        let '(entity, attribute, searchTerm) :=
          match findPrefix attributeEntityMap lowerTerm with
          | Some (attrPrefix, (e, a)) =>
              (if negb entityFound then e else entity, a,
               trim (replaceAtStart (prefixPattern attrPrefix) searchTerm))
          | None => (entity, attribute, searchTerm)
          end in
        {| searchTerm := searchTerm;
           entity := entity;
           countryCode := countryCode;
           usePng := usePng;
           attribute := attribute;
           lookupMode := false |}
      else
        {| searchTerm := searchTerm;
           entity := entity;
           countryCode := countryCode;
           usePng := usePng;
           attribute := attribute;
           lookupMode := false |}
  end.

(** The request [performSearch] sends. *)
Inductive ApiCall : Type :=
  | fetchResultsLookup (id country : str)
  | fetchResults (term : str) (entity : Entity) (country : str).

(** The dispatch inside [performSearch].  The fifth argument is the parsed
    query when the caller passes one ([arguments[4]]); [lookupMode] is read
    from it and is [false] without it. *)
Definition performSearch (searchTerm : str) (entity : Entity)
    (countryCode : str) (usePng : bool) (parsed : option ParsedQuery)
    : ApiCall :=
  let lookupMode :=
    match parsed with
    | Some q => lookupMode q
    | None => false
    end in
  if lookupMode then fetchResultsLookup searchTerm countryCode
  else fetchResults searchTerm entity countryCode.

(** The search the submit handler of the form starts for the (trimmed,
    non-empty) text of the input field. *)
Definition submitSearch (rawSearchTerm : str) : ApiCall :=
  let parsedSearch := parseSearchTerm rawSearchTerm in
  performSearch (searchTerm parsedSearch) (entity parsedSearch)
    (countryCode parsedSearch) (usePng parsedSearch) (Some parsedSearch).

End Query.

Import Query.

(** ** Saving a link ([downloadFile]) *)

Module Download.

(** [String.prototype.split] with a one-character separator: the pieces
    between the separators, at least one. *)
Fixpoint split (sep : ascii) (s : str) : list str :=
  match s with
  | [] => [[]]
  | c :: s' =>
      if Ascii.eqb c sep then [] :: split sep s'
      else
        match split sep s' with
        | piece :: pieces => (c :: piece) :: pieces
        | [] => [[c]]
        end
  end.

(** The name [downloadFile] saves a link under: the last path segment of the
    URL up to a [?], or the text of the link with an extension when that
    segment is empty or shorter than five characters. *)
Definition downloadFilename (url linkText : str) : str :=
  let filename := hd [] (split "?" (last (split "/" url) [])) in
  if negb (truthy filename) || (length filename <? 5)
  then linkText ++ (if endsWith ".png" url then ".png" else ".jpg")
  else filename.

End Download.

Import Download.

(** ** Requests ([fetchResultsProxy], [buildUrl] and the relay) *)

Module Request.

(** A [URLSearchParams] object: its name-value pairs, in order. *)
Definition URLSearchParams : Type := list (str * str).

(** Equality of two names. *)
Fixpoint sameName (a b : str) : bool :=
  match a, b with
  | [], [] => true
  | x :: a', y :: b' => Ascii.eqb x y && sameName a' b'
  | _, _ => false
  end.

Fixpoint deleteAll (name : str) (params : URLSearchParams) : URLSearchParams :=
  match params with
  | [] => []
  | (k, v) :: params' =>
      if sameName k name then deleteAll name params'
      else (k, v) :: deleteAll name params'
  end.

(** [URLSearchParams.prototype.set]: the first pair of that name gets the
    value and the others are removed; without one the pair is appended. *)
Fixpoint set (name value : str) (params : URLSearchParams) : URLSearchParams :=
  match params with
  | [] => [(name, value)]
  | (k, v) :: params' =>
      if sameName k name then (name, value) :: deleteAll name params'
      else (k, v) :: set name value params'
  end.

(** [URLSearchParams.prototype.get], and the reading of a property of
    [req.query]: the first value of that name. *)
Fixpoint get (name : str) (params : URLSearchParams) : option str :=
  match params with
  | [] => None
  | (k, v) :: params' => if sameName k name then Some v else get name params'
  end.

(** The string an entity is in the source. *)
Definition entityName (e : Entity) : str :=
  match e with
  | album => "album"
  | song => "song"
  | audiobook => "audiobook"
  | ebook => "ebook"
  | movie => "movie"
  | tvSeason => "tvSeason"
  | software => "software"
  end.

(** [entityToMediaMap[entity]] of [buildUrl]: media and entity. *)
Definition buildUrlMediaMap (e : Entity) : option (str * str) :=
  match e with
  | audiobook => Some (lit "audiobook", lit "audiobook")
  | ebook => Some (lit "ebook", lit "ebook")
  | movie => Some (lit "movie", lit "movie")
  | tvSeason => Some (lit "tvShow", lit "tvSeason")
  | song => Some (lit "music", lit "song")
  | album => Some (lit "music", lit "album")
  | software => Some (lit "software", lit "software")
  end.

(** [entityToMediaMap[entity]] of [fetchResultsProxy], which has no entry for
    ['tvSeason']. *)
Definition proxyMediaMap (e : Entity) : option (str * str) :=
  match e with
  | audiobook => Some (lit "audiobook", lit "audiobook")
  | ebook => Some (lit "ebook", lit "ebook")
  | movie => Some (lit "movie", lit "movie")
  | song => Some (lit "music", lit "song")
  | album => Some (lit "music", lit "album")
  | software => Some (lit "software", lit "software")
  | tvSeason => None
  end.

Section Window.
(** [window.attribute], which [parseSearchTerm] stores the attribute in. *)
Variable windowAttribute : str.

(** The parameters [buildUrl] puts after [https://itunes.apple.com/search?]. *)
Definition buildUrl (term : str) (entity : Entity) (country : str)
    : URLSearchParams :=
  let urlSearchParams := [] in
  let urlSearchParams := set "country" country urlSearchParams in
  let urlSearchParams := set "limit" "60" urlSearchParams in
  let urlSearchParams :=
    match buildUrlMediaMap entity with
    | Some (media, mappedEntity) =>
        set "entity" mappedEntity (set "media" media urlSearchParams)
    | None =>
        set "entity" (entityName entity)
          (set "media" "music" urlSearchParams)
    end in
  let urlSearchParams :=
    if truthy windowAttribute
    then set "attribute" windowAttribute urlSearchParams
    else urlSearchParams in
  let urlSearchParams := set "term" term urlSearchParams in
  set "callback" "handleApiResponse" urlSearchParams.

(** The parameters [fetchResultsProxy] puts after [/api/itunes?]. *)
Definition fetchResultsProxy (term : str) (entity : Entity) (country : str)
    : URLSearchParams :=
  let params := [] in
  let params := set "term" term params in
  let params := set "country" country params in
  let params := set "limit" "60" params in
  let params :=
    match proxyMediaMap entity with
    | Some (media, mappedEntity) =>
        set "entity" mappedEntity (set "media" media params)
    | None => set "entity" (entityName entity) (set "media" "music" params)
    end in
  if truthy windowAttribute then set "attribute" windowAttribute params
  else params.

End Window.

(** Truthiness of a property of [req.query] that is a string or missing. *)
Definition given (v : option str) : bool :=
  match v with
  | Some s => truthy s
  | None => false
  end.

(** The parameters the relay (api/itunes.js) puts after
    [https://itunes.apple.com/search?], from the query of its request. *)
Definition handler (query : str -> option str) : URLSearchParams :=
  let params := [] in
  let copy (name : string) (params : URLSearchParams) :=
    match query name with
    | Some v => if truthy v then set name v params else params
    | None => params
    end in
  let params := copy "term" params in
  let params := copy "entity" params in
  let params := copy "country" params in
  let params := copy "media" params in
  let params := copy "attribute" params in
  set "limit"
    (match query "limit" with
     | Some v => if truthy v then v else lit "60"
     | None => lit "60"
     end) params.

End Request.

Import Request.

(** ** The enlarged artwork ([initializeArtworkModal]) *)

Module Modal.

(** Greedy repetition of a group, zero or more times.  An iteration of the
    group below consumes input, so the length of the input bounds the number
    of iterations. *)
Fixpoint starGroup {R} (fuel : nat) (m : @cont R -> @cont R) (k : @cont R)
    : @cont R :=
  match fuel with
  | 0 => k
  | S fuel' =>
      fun s =>
        match m (starGroup fuel' m k) s with
        | Some r => Some r
        | None => k s
        end
  end.

(** One or more times. *)
Definition plusGroup {R} (m : @cont R -> @cont R) (k : @cont R) : @cont R :=
  fun s => m (starGroup (length s) m k) s.

(** The pattern that recovers [artworkUrl100] from the source of the preview:
    group 1 (a run of digits), [x], a back-reference to group 1, an optional
    [-999], and everything up to the end; replaced by ['100x100']. *)
Definition squareToken : @cont hit :=
  capture (plus isDigit) (fun g1 =>
    lits "x" (lits g1 (opt (lits "-999") (star dot (eos (ret "100x100")))))).

(** [/300x300|300x300-999|300x300\.jpg|300x300\.png/], replaced by
    ['10000x10000-999.jpg']. *)
Definition previewSize : @cont hit :=
  alt (lits "300x300")
    (alt (lits "300x300-999") (alt (lits "300x300.jpg") (lits "300x300.png")))
    (ret "10000x10000-999.jpg").

(** [/(-999\.jpg)+$/], replaced by ['-999.jpg']. *)
Definition markerRun : @cont hit :=
  plusGroup (lits "-999.jpg") (eos (ret "-999.jpg")).

(** [/\.jpg(-999)?\.png$/], replaced by ['.png']. *)
Definition jpgBeforePng : @cont hit :=
  lits ".jpg" (opt (lits "-999") (lits ".png" (eos (ret ".png")))).

(** [cssClass] of [displayResults]: what follows [result] in the [class]
    attribute of a card. *)
Definition cssClass (entity : Entity) : str :=
  match entity with
  | audiobook => " audiobook"
  | ebook => " ebook"
  | movie => " movie"
  | tvSeason => " tv"
  | software => " app"
  | _ => ""
  end.

(** [classList.contains]: the tokens of a [class] attribute, which spaces
    separate. *)
Definition classListContains (className token : str) : bool :=
  existsb (sameName token) (filter truthy (split " " className)).

Section Click.
(** The [class] attribute of the card, [window.usePng] and [img.src] when the
    preview is clicked. *)
Variable className : str.
Variable windowUsePng : bool.
Variable imgSrc : str.

(** [largeSrc]: the image the modal shows. *)
Definition largeSrc : str :=
  let isMovie := classListContains className "movie" in
  let isTv := classListContains className "tv" in
  let isApp := classListContains className "app" in
  let artworkUrl100 := replace squareToken imgSrc in
  if isMovie || isTv then
    let largeSrc :=
      replace (lits "100x100" (ret "10000x10000-999")) artworkUrl100 in
    let largeSrc := replace bbBeforeExt largeSrc in
    let largeSrc :=
      if negb (endsWith ".jpg" largeSrc) then
        let largeSrc := replace otherExtAtEnd largeSrc in
        if negb (endsWith ".jpg" largeSrc) then largeSrc ++ ".jpg"
        else largeSrc
      else largeSrc in
    if windowUsePng then replace jpgAtEnd largeSrc else largeSrc
  else if isApp then
    let largeSrc :=
      replace (lits "100x100" (ret "10000x10000-999.jpg")) artworkUrl100 in
    let largeSrc := replaceAtStart cdnThumb largeSrc in
    let largeSrc := replace bbInLastSegment largeSrc in
    if windowUsePng then replace jpgAtEnd largeSrc else largeSrc
  else
    let largeSrc := replace previewSize imgSrc in
    let largeSrc := replace markerRun largeSrc in
    if windowUsePng
    then replace jpgAtEnd (replace jpgBeforePng largeSrc)
    else largeSrc.

End Click.

End Modal.

Import Modal.

(** ** The title of a card ([displayResults]) *)

Module Title.

(** The word characters of [\b] (no [u] flag): letters, digits and the
    underscore. *)
Definition isWordChar (c : ascii) : bool :=
  between 48 57 c || between 65 90 c || between 97 122 c || (code c =? 95).

(** [\b]: exactly one of the characters before and after the position is a
    word character.  The matcher is told about the character before; the
    ends of the input count as no word character. *)
Definition wordEdge {R} (beforeIsWord : bool) (k : @cont R) : @cont R :=
  fun s =>
    let afterIsWord :=
      match s with c :: _ => isWordChar c | [] => false end in
    if xorb beforeIsWord afterIsWord then k s else None.

(** [\bW\b] under the [i] flag at one position, for a word [W] that ends with
    a letter: the character the second [\b] has before it is that letter. *)
Definition wholeWord (w : str) (beforeIsWord : bool) : @cont unit :=
  wordEdge beforeIsWord (litsi w (wordEdge true (fun _ => Some tt))).

(** [RegExp.prototype.test] of that pattern: the positions from the left,
    each with the character before it. *)
Fixpoint testWordFrom (w : str) (beforeIsWord : bool) (s : str) : bool :=
  match wholeWord w beforeIsWord s with
  | Some _ => true
  | None =>
      match s with
      | [] => false
      | c :: s' => testWordFrom w (isWordChar c) s'
      end
  end.

Definition testWord (w : str) (s : str) : bool := testWordFrom w false s.

(** White space, an optional hyphen, white space, the word [W] under the [i]
    flag and [\b]; replaced by the empty string. *)
Definition stripWord (w : str) : @cont hit :=
  star isWhiteSpace (opt (lits "-") (star isWhiteSpace
    (litsi w (wordEdge true (ret ""))))).

(** [displayTitle] for a result whose [collectionName] is a string. *)
Definition displayTitle (entity : Entity) (collectionName : str) : str :=
  let displayTitle := collectionName in
  match entity with
  | album =>
      if testWord "EP" collectionName then
        let displayTitle := trim (replace (stripWord "EP") displayTitle) in
        displayTitle ++ " [EP]"
      else if testWord "Single" collectionName then
        let displayTitle := trim (replace (stripWord "Single") displayTitle) in
        displayTitle ++ " [Single]"
      else displayTitle
  | _ => displayTitle
  end.

End Title.

Import Title.

(** ** Loading the page ([onload]) *)

Module Page.

(** [a || b] for a string [a] that may be missing. *)
Definition orElse (a : option str) (b : str) : str :=
  match a with
  | Some s => if truthy s then s else b
  | None => b
  end.

(** What [onload] leaves behind: [window.usePng], and the search it starts,
    if any. *)
Record Loaded : Type := {
  window_usePng : bool;
  firstSearch : option ApiCall
}.

(** [onload], for the parameters [term] and [country] of the address of the
    page ([searchParams.get] gives [null] for a missing one). *)
Definition onload (term country : option str) : Loaded :=
  let given :=
    match term with
    | Some t => truthy t
    | None => false
    end in
  let '(searchTerm, entity, countryCode, usePng) :=
    match term with
    | Some t =>
        if truthy t then
          let parsed := parseSearchTerm t in
          (Query.searchTerm parsed, Query.entity parsed,
           orElse country (Query.countryCode parsed), Query.usePng parsed)
        else (lit "", album, orElse country "us", false)
    | None => (lit "", album, orElse country "us", false)
    end in
  {| window_usePng := usePng;
     firstSearch :=
       if given
       then Some (performSearch searchTerm entity countryCode usePng None)
       else None |}.

End Page.

Import Page.

(** * Vocabulary of the properties *)

Definition headIsSpace (s : str) : bool :=
  match s with c :: _ => isWhiteSpace c | [] => false end.

(** A string is trimmed when neither end is a white-space character. *)
Definition isTrimmed (s : str) : bool :=
  negb (headIsSpace s) && negb (headIsSpace (rev s)).

(** The longest prefix of characters of a class, and what follows it. *)
Fixpoint takeWhile (p : ascii -> bool) (s : str) : str :=
  match s with
  | c :: s' => if p c then c :: takeWhile p s' else []
  | [] => []
  end.

Fixpoint dropWhile (p : ascii -> bool) (s : str) : str :=
  match s with
  | c :: s' => if p c then dropWhile p s' else s
  | [] => []
  end.

Definition headIs (p : ascii -> bool) (s : str) : bool :=
  match s with c :: _ => p c | [] => false end.

(** Equality of two strings up to case, as the [i] flag compares them. *)
Fixpoint equalsIgnoreCase (a b : str) : bool :=
  match a, b with
  | [], [] => true
  | x :: a', y :: b' => eqi x y && equalsIgnoreCase a' b'
  | _, _ => false
  end.

(** The extension a link is to end in. *)
Definition ext (usePng : bool) : str := if usePng then ".png" else ".jpg".

(** The two closing steps of [fixArtworkUrl] and of its siblings: ensure
    [.jpg], then turn it into [.png] on request. *)
Definition closing (usePng : bool) (s : str) : str :=
  let u := if negb (endsWith ".jpg" s) then s ++ ".jpg" else s in
  if usePng then replace jpgAtEnd u else u.

(** The slash-anchored size token at the head of a string, scanned directly:
    [/], a maximal run of digits, [x], a maximal run of digits and [bb] when
    it follows.  The result is the two runs, the marker and the rest. *)
Definition sizeTokenSplit (t : str) : option (str * str * str * str) :=
  match t with
  | c :: s1 =>
      if Ascii.eqb "/" c && headIs isDigit s1 then
        match dropWhile isDigit s1 with
        | x :: s3 =>
            if Ascii.eqb "x" x && headIs isDigit s3 then
              let s4 := dropWhile isDigit s3 in
              if startsWith "bb" s4
              then Some (takeWhile isDigit s1, takeWhile isDigit s3,
                         lit "bb", skipn 2 s4)
              else Some (takeWhile isDigit s1, takeWhile isDigit s3, [], s4)
            else None
        | [] => None
        end
      else None
  | [] => None
  end.

(** What [sizeToken] puts in place of the token. *)
Definition newToken (size : N) : str :=
  "/" ++ numberToString size ++ "x" ++ numberToString size ++ "-999".

(** Whether a slash-anchored size token starts anywhere in a string. *)
Fixpoint hasSizeToken (s : str) : bool :=
  match sizeTokenSplit s with
  | Some _ => true
  | None =>
      match s with
      | [] => false
      | _ :: s' => hasSizeToken s'
      end
  end.

(** The host and path the high-resolution rewrite re-roots an asset under. *)
Definition hdPrefix : str := "https://a1.mzstatic.com/us/r1000/063/".

(** The extensions of [imageExt]. *)
Definition imageExts : list str :=
  [lit ".jpg"; lit ".png"; lit ".webp"; lit ".tif"].

(** [rawTerm] once the format token has been looked for (the first [if] of
    [parseSearchTerm]). *)
Definition rawTermAfterFormat (rawTerm : str) : str :=
  if truthy rawTerm && includes ".png" (toLowerCase rawTerm)
  then trim (replaceAll pngToken rawTerm) else rawTerm.

(** The query of a term in which nothing was recognized. *)
Definition plainQuery (term : str) : ParsedQuery :=
  {| searchTerm := term;
     entity := album;
     countryCode := "us";
     usePng := false;
     attribute := noAttribute;
     lookupMode := false |}.

(** [a] reads as [pattern], up to case. *)
Definition sameText (pattern a : str) : Prop :=
  equalsIgnoreCase pattern a = true.

(** What [urlPattern] recognizes, spelled out: [u] is a store URL for [id]
    when it reads, up to case, [http] or [https], [://], one of the three
    hosts, [.apple.com/], at least one character none of which is white
    space, [/id], and the digits [id]. *)
Definition isStoreUrl (u id : str) : Prop :=
  exists scheme sep host domain path marker,
    u = scheme ++ sep ++ host ++ domain ++ path ++ marker ++ id /\
    (sameText "http" scheme \/ sameText "https" scheme) /\
    sameText "://" sep /\
    (sameText "itunes" host \/ sameText "apps" host \/ sameText "books" host) /\
    sameText ".apple.com/" domain /\
    path <> [] /\ forallb notSpace path = true /\
    sameText "/id" marker /\
    id <> [] /\ forallb isDigit id = true.

(** The prefixes of the three tables. *)
Definition allPrefixes : list string :=
  map fst countryMap ++ map fst entityMap ++ map fst attributeEntityMap.

(** Whether a term starts, up to case, with a prefix of one of the tables. *)
Definition startsWithPrefix (term : str) : bool :=
  existsb (fun p : string => startsWith p (toLowerCase term)) allPrefixes.

(** ** Vocabulary of the prefix grammar *)

(** The entity and attribute stages of [parseSearchTerm], as they run on the
    term that the country stage leaves. *)
Definition prefixStages (usePng : bool) (countryCode searchTerm : str)
    : ParsedQuery :=
  let entity := album in
  let attribute := noAttribute in
  let lowerTerm := toLowerCase searchTerm in
  let '(entity, searchTerm, entityFound) :=
    match findPrefix entityMap lowerTerm with
    | Some (entityPrefix, e) =>
        (e, trim (replaceAtStart (prefixPattern entityPrefix) searchTerm),
         true)
    | None => (entity, searchTerm, false)
    end in
  let lowerTerm := toLowerCase searchTerm in
  let '(entity, attribute, searchTerm) :=
    match findPrefix attributeEntityMap lowerTerm with
    | Some (attrPrefix, (e, a)) =>
        (if negb entityFound then e else entity, a,
         trim (replaceAtStart (prefixPattern attrPrefix) searchTerm))
    | None => (entity, attribute, searchTerm)
    end in
  {| searchTerm := searchTerm;
     entity := entity;
     countryCode := countryCode;
     usePng := usePng;
     attribute := attribute;
     lookupMode := false |}.

(** A query with another country, and with another entity. *)
Definition withCountry (code : str) (q : ParsedQuery) : ParsedQuery :=
  {| searchTerm := searchTerm q;
     entity := entity q;
     countryCode := code;
     usePng := usePng q;
     attribute := attribute q;
     lookupMode := lookupMode q |}.

Definition withEntity (e : Entity) (q : ParsedQuery) : ParsedQuery :=
  {| searchTerm := searchTerm q;
     entity := e;
     countryCode := countryCode q;
     usePng := usePng q;
     attribute := attribute q;
     lookupMode := lookupMode q |}.

(** Two strings clash when they differ at a position both have: neither is
    then a prefix of the other. *)
Fixpoint clash (p q : str) : bool :=
  match p, q with
  | a :: p', b :: q' => negb (Ascii.eqb a b) || clash p' q'
  | _, _ => false
  end.

Fixpoint pairwiseClash (keys : list string) : bool :=
  match keys with
  | [] => true
  | k :: keys' =>
      forallb (fun q : string => clash k q) keys' && pairwiseClash keys'
  end.

(** A character below U+0080 that is not a capital letter: [toLowerCase]
    yields it exactly for the characters the [i] flag equates with it. *)
Definition isLowerPlain (c : ascii) : bool :=
  (code c <? 128) && negb (between 65 90 c).

(** The 256 code units of the model. *)
Definition allChars : list ascii := map ascii_of_nat (seq 0 256).

(** A run of digits, [x] and the same digits again occurs in the text. *)
Definition hasSquareToken (s : str) : bool :=
  match
    search (capture (plus isDigit) (fun g1 =>
      lits "x" (lits g1 (fun rest => Some (tt, rest))))) s
  with
  | Some _ => true
  | None => false
  end.

(** The word [w], in any case, stands somewhere in the text at the end of a
    word. *)
Definition hasWordEnd (w s : str) : bool :=
  match
    search (litsi w (wordEdge true (fun rest => Some (tt, rest)))) s
  with
  | Some _ => true
  | None => false
  end.

(** ** Vocabulary of the maximum-resolution URL *)

(** The marker of a CDN thumb URL. *)
Definition cdnMarker : str := ".mzstatic.com/image/thumb/".

(** [s] reads as a CDN thumb URL: [https://], a host, the marker, a path, a
    slash and a file name that ends in [.jpg] or [.png], all on one line. *)
Definition cdnShape (s host path file : str) : Prop :=
  s = "https://" ++ host ++ cdnMarker ++ path ++ "/" ++ file /\
  forallb dot host = true /\ forallb dot path = true /\
  forallb dot file = true /\
  (endsWith ".jpg" file = true \/ endsWith ".png" file = true).

(** The reading of a CDN thumb URL in which the host ends at the first marker
    and the file name starts after the last slash: the path is then the whole
    asset path. *)
Definition cdnSplit (s host path file : str) : Prop :=
  cdnShape s host path file /\
  includes "/" file = false /\
  includes cdnMarker (host ++ ".mzstatic.com/image/thumb") = false.

(** [y] is [x] without the [bb] that ends the name of its last path segment,
    before an image extension; without such a [bb], [y] is [x]. *)
Definition bbStripped (x y : str) : Prop :=
  (exists p g e,
     x = p ++ "/" ++ g ++ "bb" ++ e /\ forallb notSlash g = true /\
     In e imageExts /\ y = p ++ "/" ++ g ++ e) \/
  ((forall p g e, forallb notSlash g = true -> In e imageExts ->
      x <> p ++ "/" ++ g ++ "bb" ++ e) /\
   y = x).

(** ** Vocabulary of the search term *)

(** [x] is a prefix of one of the tables as it is typed: the key in any
    letter case, and the white space after it. *)
Definition typedPrefix (keys : list string) (x : str) : Prop :=
  exists (p : string) (typed sp : str),
    In p keys /\ sameText p typed /\ forallb isWhiteSpace sp = true /\
    x = typed ++ sp.

(** A place of the query where a prefix of a table may stand. *)
Definition prefixSlot (keys : list string) (x : str) : Prop :=
  x = [] \/ typedPrefix keys x.

(** The search term one prefix stage of [parseSearchTerm] leaves. *)
Definition stageTerm {V : Type} (table : list (string * V)) (term : str)
    : str :=
  match findPrefix table (toLowerCase term) with
  | Some (p, _) => trim (replaceAtStart (prefixPattern p) term)
  | None => term
  end.

(** * Properties *)

(** ** Facts about strings *)

Section StringFacts.

Lemma startsWith_app (p s : str) : startsWith p (p ++ s) = true.
Proof.
  induction p as [|a p IH]; simpl; [reflexivity|].
  now rewrite Ascii.eqb_refl, IH.
Qed.

Lemma startsWith_inv (p s : str) :
  startsWith p s = true -> exists t, s = p ++ t.
Proof.
  revert s; induction p as [|a p IH]; intros s H.
  - now exists s.
  - destruct s as [|b s]; simpl in H; [discriminate|].
    apply andb_true_iff in H as [Hab H].
    apply Ascii.eqb_eq in Hab; subst b.
    destruct (IH _ H) as [t ->]. now exists t.
Qed.

Lemma startsWith_iff (p s : str) :
  startsWith p s = true <-> exists t, s = p ++ t.
Proof.
  split; [apply startsWith_inv|].
  intros [t ->]; apply startsWith_app.
Qed.

Lemma endsWith_app (p s : str) : endsWith p (s ++ p) = true.
Proof. unfold endsWith. rewrite rev_app_distr. apply startsWith_app. Qed.

Lemma endsWith_inv (p s : str) :
  endsWith p s = true -> exists t, s = t ++ p.
Proof.
  unfold endsWith; intros H.
  apply startsWith_inv in H as [t Ht].
  exists (rev t).
  rewrite <- (rev_involutive s), Ht, rev_app_distr.
  now rewrite rev_involutive.
Qed.

Lemma endsWith_iff (p s : str) :
  endsWith p s = true <-> exists t, s = t ++ p.
Proof.
  split; [apply endsWith_inv|].
  intros [t ->]; apply endsWith_app.
Qed.

Lemma includes_here (p s : str) :
  startsWith p s = true -> includes p s = true.
Proof. intros H. destruct s; simpl; now rewrite H. Qed.

Lemma includes_app (p a b : str) : includes p (a ++ p ++ b) = true.
Proof.
  induction a as [|c a IH].
  - cbn [app]. apply includes_here, startsWith_app.
  - simpl. rewrite IH. apply orb_true_r.
Qed.

Lemma includes_inv (p s : str) :
  includes p s = true -> exists a b, s = a ++ p ++ b.
Proof.
  induction s as [|c s IH]; simpl; intros H.
  - rewrite orb_false_r in H. apply startsWith_inv in H as [t ->].
    now exists [], t.
  - apply orb_true_iff in H as [H|H].
    + apply startsWith_inv in H as [t ->]. now exists [], t.
    + destruct (IH H) as (a & b & ->). now exists (c :: a), b.
Qed.

Lemma trimStart_head (s : str) : headIsSpace (trimStart s) = false.
Proof.
  induction s as [|c s IH]; simpl; [reflexivity|].
  destruct (isWhiteSpace c) eqn:E; [exact IH|]. simpl. exact E.
Qed.

Lemma trimStart_fixed (s : str) : headIsSpace s = false -> trimStart s = s.
Proof. destruct s as [|c s]; simpl; [reflexivity|]. now intros ->. Qed.

Lemma trimStart_suffix (s : str) : exists w, s = w ++ trimStart s.
Proof.
  induction s as [|c s [w IH]]; simpl.
  - now exists [].
  - destruct (isWhiteSpace c).
    + exists (c :: w). simpl. now f_equal.
    + now exists [].
Qed.

Lemma headIsSpace_app (a b : str) :
  a <> [] -> headIsSpace (a ++ b) = headIsSpace a.
Proof. destruct a; [congruence|reflexivity]. Qed.

Lemma trim_isTrimmed (s : str) : isTrimmed (trim s) = true.
Proof.
  unfold isTrimmed, trim, trimEnd.
  rewrite rev_involutive, trimStart_head, andb_true_r.
  set (t := trimStart s).
  assert (Ht : headIsSpace t = false) by apply trimStart_head.
  destruct (trimStart_suffix (rev t)) as [w Hw].
  destruct (trimStart (rev t)) as [|c u] eqn:E; [reflexivity|].
  apply (f_equal (@rev ascii)) in Hw.
  rewrite rev_involutive, rev_app_distr in Hw.
  rewrite Hw in Ht.
  rewrite headIsSpace_app in Ht; [now rewrite Ht|].
  intros Hn. apply (f_equal (@length ascii)) in Hn.
  rewrite length_rev in Hn. discriminate.
Qed.

Lemma trim_fixed (s : str) : isTrimmed s = true -> trim s = s.
Proof.
  unfold isTrimmed, trim, trimEnd. intros H.
  apply andb_true_iff in H as [H1 H2].
  apply negb_true_iff in H1, H2.
  rewrite (trimStart_fixed s H1), (trimStart_fixed _ H2).
  apply rev_involutive.
Qed.

Lemma digit_not_space (c : ascii) : isDigit c = true -> isWhiteSpace c = false.
Proof.
  unfold isDigit, isWhiteSpace, between. intros H.
  apply andb_true_iff in H as [H1 H2].
  apply Nat.leb_le in H1, H2.
  repeat rewrite orb_false_iff. repeat split.
  - apply andb_false_iff. right. apply Nat.leb_gt. lia.
  - apply Nat.eqb_neq. lia.
  - apply Nat.eqb_neq. lia.
Qed.

Lemma digits_isTrimmed (s : str) :
  forallb isDigit s = true -> isTrimmed s = true.
Proof.
  intros H. unfold isTrimmed.
  assert (Hh : forall t : str, forallb isDigit t = true -> headIsSpace t = false).
  { intros [|c t]; simpl; [reflexivity|].
    intros Ht. apply andb_true_iff in Ht as [Hc _].
    now apply digit_not_space. }
  rewrite (Hh s H), (Hh (rev s)); [reflexivity|].
  apply forallb_forall. intros x Hx. apply in_rev in Hx.
  revert x Hx. now apply forallb_forall.
Qed.

End StringFacts.

(** ** Facts about the matchers *)

Section MatcherFacts.
Context {R : Type}.
Implicit Types (k : @cont R) (s : str) (p : ascii -> bool).

Lemma take_drop p s : s = takeWhile p s ++ dropWhile p s.
Proof.
  induction s as [|c s IH]; simpl; [reflexivity|].
  destruct (p c); simpl; [now f_equal|reflexivity].
Qed.

Lemma takeWhile_all p s : forallb p (takeWhile p s) = true.
Proof.
  induction s as [|c s IH]; simpl; [reflexivity|].
  destruct (p c) eqn:E; simpl; [now rewrite E|reflexivity].
Qed.

Lemma dropWhile_head p s : headIs p (dropWhile p s) = false.
Proof.
  induction s as [|c s IH]; simpl; [reflexivity|].
  destruct (p c) eqn:E; [exact IH|]. simpl. exact E.
Qed.

Lemma takeWhile_nil p s : headIs p s = true -> takeWhile p s <> [].
Proof. destruct s as [|c s]; simpl; [discriminate|]. now intros ->. Qed.

Lemma lits_app cs k rest : lits cs k (cs ++ rest) = k rest.
Proof.
  induction cs as [|c cs IH]; simpl; [reflexivity|].
  now rewrite Ascii.eqb_refl.
Qed.

Lemma lits_inv cs k s r :
  lits cs k s = Some r -> exists rest, s = cs ++ rest /\ k rest = Some r.
Proof.
  revert s; induction cs as [|c cs IH]; simpl; intros s H.
  - now exists s.
  - destruct s as [|b s]; simpl in H; [discriminate|].
    destruct (Ascii.eqb c b) eqn:E; [|discriminate].
    apply Ascii.eqb_eq in E; subst b.
    destruct (IH _ H) as (rest & -> & Hk). now exists rest.
Qed.

Lemma lits_fail cs k s : startsWith cs s = false -> lits cs k s = None.
Proof.
  revert s; induction cs as [|c cs IH]; simpl; intros s H; [discriminate|].
  destruct s as [|b s]; [reflexivity|]. simpl.
  destruct (Ascii.eqb c b); simpl in H; [now apply IH|reflexivity].
Qed.

(** A greedy star hands the continuation the input after the longest run,
    provided the continuation accepts it there, or else could not accept
    after a shorter run either. *)
Lemma star_dropWhile p k s :
  k (dropWhile p s) <> None \/ (forall c t, p c = true -> k (c :: t) = None) ->
  star p k s = k (dropWhile p s).
Proof.
  intros H. induction s as [|c s IH]; simpl; [reflexivity|].
  destruct (p c) eqn:E; [|reflexivity].
  simpl in H. rewrite E in H. rewrite (IH H).
  destruct (k (dropWhile p s)) eqn:Ek; [reflexivity|].
  destruct H as [H|H]; [congruence|]. now apply H.
Qed.

Lemma star_inv p k s r :
  star p k s = Some r ->
  exists a rest, s = a ++ rest /\ forallb p a = true /\ k rest = Some r.
Proof.
  induction s as [|c s IH]; simpl; intros H.
  - now exists [], [].
  - destruct (p c) eqn:E.
    + destruct (star p k s) eqn:Es.
      * injection H as ->. destruct (IH eq_refl) as (a & rest & -> & Ha & Hk).
        exists (c :: a), rest. simpl. now rewrite E.
      * now exists [], (c :: s).
    + now exists [], (c :: s).
Qed.

Lemma star_complete p k a rest :
  forallb p a = true -> k rest <> None -> star p k (a ++ rest) <> None.
Proof.
  intros Ha Hk. induction a as [|c a IH]; simpl.
  - destruct rest as [|c rest]; simpl; [exact Hk|].
    destruct (p c); [|exact Hk].
    destruct (star p k rest); [discriminate|exact Hk].
  - simpl in Ha. apply andb_true_iff in Ha as [Hc Ha]. rewrite Hc.
    specialize (IH Ha). destruct (star p k (a ++ rest)); [discriminate|].
    congruence.
Qed.

Lemma plus_inv p k s r :
  plus p k s = Some r ->
  exists a rest,
    s = a ++ rest /\ a <> [] /\ forallb p a = true /\ k rest = Some r.
Proof.
  unfold plus, chr. destruct s as [|c s]; [discriminate|].
  destruct (p c) eqn:E; [|discriminate]. intros H.
  apply star_inv in H as (a & rest & -> & Ha & Hk).
  exists (c :: a), rest. simpl. rewrite E.
  split; [reflexivity|]. split; [discriminate|]. now split.
Qed.

Lemma plus_complete p k a rest :
  a <> [] -> forallb p a = true -> k rest <> None ->
  plus p k (a ++ rest) <> None.
Proof.
  intros Hn Ha Hk. destruct a as [|c a]; [congruence|].
  simpl in Ha. apply andb_true_iff in Ha as [Hc Ha].
  unfold plus. simpl. rewrite Hc. now apply star_complete.
Qed.

Lemma plus_dropWhile p k s :
  k (dropWhile p s) <> None \/ (forall c t, p c = true -> k (c :: t) = None) ->
  plus p k s = if headIs p s then k (dropWhile p s) else None.
Proof.
  intros H. unfold plus, chr. destruct s as [|c s]; [reflexivity|]. simpl.
  destruct (p c) eqn:E; [|reflexivity].
  apply star_dropWhile. simpl in H. now rewrite E in H.
Qed.

Lemma capture_lits cs (k : str -> @cont R) s :
  capture (lits cs) k s = lits cs (k cs) s.
Proof.
  unfold capture.
  destruct (startsWith cs s) eqn:E.
  - apply startsWith_inv in E as [t ->]. rewrite !lits_app.
    rewrite length_app, Nat.add_sub, firstn_app, Nat.sub_diag, firstn_all.
    simpl. now rewrite app_nil_r.
  - now rewrite !lits_fail.
Qed.

(** A capture group around a matcher that consumes a prefix of the input
    hands that prefix to its continuation. *)
Lemma capture_inv (P : str -> Prop) (m : @cont R -> @cont R)
    (k : str -> @cont R) s r :
  (forall k' r', m k' s = Some r' ->
     exists a rest, s = a ++ rest /\ P a /\ k' rest = Some r') ->
  capture m k s = Some r ->
  exists a rest, s = a ++ rest /\ P a /\ k a rest = Some r.
Proof.
  intros Hm H. unfold capture in H.
  apply Hm in H as (a & rest & Hs & Ha & Hk).
  exists a, rest. repeat split; try assumption.
  rewrite Hs in Hk at 1 2.
  rewrite length_app, Nat.add_sub, firstn_app, Nat.sub_diag, firstn_all in Hk.
  simpl in Hk. now rewrite app_nil_r in Hk.
Qed.

Lemma starLazy_inv p k s r :
  starLazy p k s = Some r ->
  exists a rest, s = a ++ rest /\ forallb p a = true /\ k rest = Some r.
Proof.
  induction s as [|c s IH]; simpl; intros H.
  - destruct (k []) eqn:E; [|discriminate].
    exists [], []. repeat split. congruence.
  - destruct (k (c :: s)) eqn:E.
    + exists [], (c :: s). repeat split. congruence.
    + destruct (p c) eqn:Ec; [|discriminate].
      destruct (IH H) as (a & rest & -> & Ha & Hk).
      exists (c :: a), rest. simpl. now rewrite Ec.
Qed.

Lemma alt_inv (m1 m2 : @cont R -> @cont R) k s r :
  alt m1 m2 k s = Some r -> m1 k s = Some r \/ m2 k s = Some r.
Proof. unfold alt. destruct (m1 k s); [now left|now right]. Qed.

Lemma alt_complete (m1 m2 : @cont R -> @cont R) k s :
  m1 k s <> None \/ m2 k s <> None -> alt m1 m2 k s <> None.
Proof.
  unfold alt. intros [H|H]; destruct (m1 k s); congruence.
Qed.

Lemma eos_inv k s r : eos k s = Some r -> s = [] /\ k [] = Some r.
Proof. destruct s; [now split|discriminate]. Qed.

Lemma litsi_inv cs k s r :
  litsi cs k s = Some r ->
  exists a rest,
    s = a ++ rest /\ equalsIgnoreCase cs a = true /\ k rest = Some r.
Proof.
  revert s; induction cs as [|c cs IH]; simpl; intros s H.
  - now exists [], s.
  - destruct s as [|b s]; simpl in H; [discriminate|].
    destruct (eqi c b) eqn:E; [|discriminate].
    destruct (IH _ H) as (a & rest & -> & Ha & Hk).
    exists (b :: a), rest. simpl. now rewrite E.
Qed.

Lemma litsi_app cs a k rest :
  equalsIgnoreCase cs a = true -> litsi cs k (a ++ rest) = k rest.
Proof.
  revert a; induction cs as [|c cs IH]; intros [|b a] H;
    simpl in *; try discriminate; [reflexivity|].
  apply andb_true_iff in H as [-> H]. now apply IH.
Qed.

End MatcherFacts.

(** ** Facts about [replace] *)

Section ReplaceFacts.
Implicit Types (m : @cont hit) (s : str).

(** Without a match anywhere the string is returned as it is. *)
Lemma replace_none m s :
  (forall pre t, s = pre ++ t -> m t = None) -> replace m s = s.
Proof.
  induction s as [|c s IH]; intros H; simpl.
  - now rewrite (H [] []).
  - rewrite (H [] (c :: s) eq_refl). f_equal. apply IH.
    intros pre t ->. now apply (H (c :: pre)).
Qed.

(** The leftmost match is the one replaced. *)
Lemma replace_first m pre t new rest :
  m t = Some (new, rest) ->
  (forall p1 t1, pre = p1 ++ t1 -> t1 <> [] -> m (t1 ++ t) = None) ->
  replace m (pre ++ t) = pre ++ new ++ rest.
Proof.
  intros Hm. induction pre as [|c pre IH]; intros H; simpl.
  - destruct t; simpl; now rewrite Hm.
  - assert (E : m ((c :: pre) ++ t) = None)
      by (apply (H [] (c :: pre)); [reflexivity|discriminate]).
    simpl in E. rewrite E. f_equal. apply IH.
    intros p1 t1 -> Hn. now apply (H (c :: p1)).
Qed.

(** Either nothing matches, or the string splits at its leftmost match. *)
Lemma replace_cases m s :
  ((forall pre t, s = pre ++ t -> m t = None) /\ replace m s = s) \/
  (exists pre t new rest,
     s = pre ++ t /\ m t = Some (new, rest) /\
     (forall p1 t1, pre = p1 ++ t1 -> t1 <> [] -> m (t1 ++ t) = None) /\
     replace m s = pre ++ new ++ rest).
Proof.
  induction s as [|c s IH].
  - simpl. destruct (m []) as [[new rest]|] eqn:E.
    + right. exists [], [], new, rest. repeat split; try assumption.
      intros p1 t1 Hp Hn. destruct p1, t1; simpl in Hp; congruence.
    + left. split; [|reflexivity].
      intros pre t Hp. destruct pre, t; simpl in Hp; congruence.
  - simpl. destruct (m (c :: s)) as [[new rest]|] eqn:E.
    + right. exists [], (c :: s), new, rest. repeat split; try assumption.
      intros p1 t1 Hp Hn. destruct p1, t1; simpl in Hp; congruence.
    + destruct IH as [[Hn Hr]|(pre & t & new & rest & -> & Hm & Hf & Hr)].
      * left. split; [|now rewrite Hr].
        intros [|c' pre] t Hp; simpl in Hp.
        -- now subst t.
        -- injection Hp as -> ->. now apply (Hn pre).
      * right. exists (c :: pre), t, new, rest. repeat split; try assumption.
        -- intros [|c' p1] t1 Hp Ht; simpl in Hp.
           ++ subst t1. exact E.
           ++ injection Hp as -> ->. now apply (Hf p1).
        -- now rewrite Hr.
Qed.

End ReplaceFacts.

(** ** Facts about the extension handling *)

Section ExtensionFacts.

(** A pattern [e$] matches only the string [e] itself. *)
Lemma anchored_literal_inv (e : str) (k : @cont hit) (t : str) r :
  lits e (eos k) t = Some r -> t = e.
Proof.
  intros H. apply lits_inv in H as (rest & -> & Hk).
  destruct rest; [apply app_nil_r|discriminate].
Qed.

Lemma replace_suffix (e new x : str) :
  replace (lits e (eos (ret new))) (x ++ e) = x ++ new.
Proof.
  rewrite <- (app_nil_r new) at 2.
  apply replace_first.
  - rewrite <- (app_nil_r e) at 2. now rewrite lits_app.
  - intros p1 t1 _ Hn.
    destruct (lits e (eos (ret new)) (t1 ++ e)) eqn:E; [|reflexivity].
    apply anchored_literal_inv in E.
    apply (f_equal (@length ascii)) in E. rewrite length_app in E.
    destruct t1; [congruence|simpl in E; lia].
Qed.

Lemma replace_no_suffix (e : str) (k : @cont hit) (s : str) :
  endsWith e s = false -> replace (lits e (eos k)) s = s.
Proof.
  intros H. apply replace_none. intros pre t ->.
  destruct (lits e (eos k) t) eqn:E; [|reflexivity].
  apply anchored_literal_inv in E. subst t.
  now rewrite endsWith_app in H.
Qed.

Lemma fixArtworkUrl_closing (usePng : bool) (url : str) (size : N) :
  fixArtworkUrl usePng url size
  = closing usePng (replace (sizeToken size) url).
Proof. reflexivity. Qed.

Lemma closing_steps (usePng : bool) (s : str) :
  exists stem,
    (s = stem ++ ".jpg" \/ (s = stem /\ endsWith ".jpg" s = false)) /\
    closing usePng s = stem ++ ext usePng.
Proof.
  unfold closing.
  destruct (endsWith ".jpg" s) eqn:E; cbn [negb].
  - apply endsWith_inv in E as [stem ->]. exists stem. split; [now left|].
    destruct usePng; [apply replace_suffix|reflexivity].
  - exists s. split; [now right|].
    destruct usePng; [apply replace_suffix|reflexivity].
Qed.

Lemma jpgAtEnd_png (s : str) :
  endsWith ".jpg" s = true -> endsWith ".png" (replace jpgAtEnd s) = true.
Proof.
  intros H. apply endsWith_inv in H as [stem ->].
  unfold jpgAtEnd. rewrite replace_suffix. apply endsWith_app.
Qed.

Lemma fixArtworkUrl_ext (usePng : bool) (url : str) (size : N) :
  endsWith (ext usePng) (fixArtworkUrl usePng url size) = true.
Proof.
  rewrite fixArtworkUrl_closing.
  destruct (closing_steps usePng (replace (sizeToken size) url))
    as (stem & _ & ->).
  apply endsWith_app.
Qed.

End ExtensionFacts.

(** ** The size token *)

Section SizeTokenFacts.

Lemma lits_one {R} (c : ascii) (k : @cont R) (s : str) :
  lits [c] k s = chr (Ascii.eqb c) k s.
Proof. reflexivity. Qed.

Lemma sizeToken_split (size : N) (t : str) :
  sizeToken size t =
  match sizeTokenSplit t with
  | Some (_, _, _, rest) => Some (newToken size, rest)
  | None => None
  end.
Proof.
  unfold sizeToken. rewrite capture_lits.
  change (lit "/") with ["/"%char]. change (lit "x") with ["x"%char].
  rewrite lits_one.
  destruct t as [|c s1]; [reflexivity|].
  unfold chr at 1, sizeTokenSplit.
  destruct (Ascii.eqb "/" c) eqn:Ec; [|reflexivity]. cbn [andb].
  rewrite plus_dropWhile.
  2:{ right. intros d t Hd. rewrite lits_one. unfold chr.
      destruct (Ascii.eqb "x" d) eqn:Ex; [|reflexivity].
      apply Ascii.eqb_eq in Ex. subst d. discriminate. }
  destruct (headIs isDigit s1); [|reflexivity].
  rewrite lits_one.
  destruct (dropWhile isDigit s1) as [|x s3]; [reflexivity|].
  unfold chr at 1.
  destruct (Ascii.eqb "x" x); [|reflexivity]. cbn [andb].
  assert (Hopt : forall u : str,
             opt (lits "bb") (ret (["/"%char] ++ numberToString size ++ ["x"%char]
                                    ++ numberToString size ++ "-999")) u
             = Some (newToken size,
                     if startsWith "bb" u then skipn 2 u else u)).
  { intros u. unfold opt, alt.
    destruct (startsWith "bb" u) eqn:Eb.
    - apply startsWith_inv in Eb as [v ->]. now rewrite lits_app.
    - now rewrite lits_fail. }
  rewrite plus_dropWhile by (left; rewrite Hopt; discriminate).
  destruct (headIs isDigit s3); [|reflexivity].
  rewrite Hopt.
  now destruct (startsWith "bb" (dropWhile isDigit s3)).
Qed.

Lemma sizeTokenSplit_inv (t w h m rest : str) :
  sizeTokenSplit t = Some (w, h, m, rest) ->
  t = "/" ++ w ++ "x" ++ h ++ m ++ rest /\
  w <> [] /\ forallb isDigit w = true /\
  h <> [] /\ forallb isDigit h = true /\
  (m = "bb" \/ (m = [] /\ startsWith "bb" rest = false)) /\
  headIs isDigit (m ++ rest) = false.
Proof.
  unfold sizeTokenSplit.
  destruct t as [|c s1]; [discriminate|].
  destruct (Ascii.eqb "/" c) eqn:Ec; [|discriminate].
  apply Ascii.eqb_eq in Ec. subst c. cbn [andb].
  destruct (headIs isDigit s1) eqn:H1; [|discriminate].
  destruct (dropWhile isDigit s1) as [|x s3] eqn:E1; [discriminate|].
  destruct (Ascii.eqb "x" x) eqn:Ex; [|discriminate].
  apply Ascii.eqb_eq in Ex. subst x. cbn [andb].
  destruct (headIs isDigit s3) eqn:H3; [|discriminate].
  assert (Hs1 : s1 = takeWhile isDigit s1 ++ "x" ++ takeWhile isDigit s3
                       ++ dropWhile isDigit s3).
  { rewrite (take_drop isDigit s1) at 1. rewrite E1.
    rewrite (take_drop isDigit s3) at 1. reflexivity. }
  pose proof (dropWhile_head isDigit s3) as Hd.
  cbv zeta. destruct (startsWith "bb" (dropWhile isDigit s3)) eqn:Eb;
    intros H; injection H as <- <- <- <-.
  - apply startsWith_inv in Eb as [v Ev]. rewrite Ev in Hs1 |- *.
    repeat split; try (now apply takeWhile_nil); try apply takeWhile_all.
    + exact (f_equal (cons "/"%char) Hs1).
    + now left.
  - repeat split; try (now apply takeWhile_nil); try apply takeWhile_all.
    + exact (f_equal (cons "/"%char) Hs1).
    + now right.
    + exact Hd.
Qed.

(** [replace] with the size-token pattern: nothing to replace, or the
    leftmost token replaced and the text around it kept. *)
Lemma replace_sizeToken (size : N) (url : str) :
  ((forall pre t, url = pre ++ t -> sizeTokenSplit t = None) /\
   replace (sizeToken size) url = url) \/
  (exists pre w h m post,
     url = pre ++ "/" ++ w ++ "x" ++ h ++ m ++ post /\
     sizeTokenSplit ("/" ++ w ++ "x" ++ h ++ m ++ post) = Some (w, h, m, post) /\
     (forall p1 t1, pre = p1 ++ t1 -> t1 <> [] ->
        sizeTokenSplit (t1 ++ "/" ++ w ++ "x" ++ h ++ m ++ post) = None) /\
     replace (sizeToken size) url = pre ++ newToken size ++ post).
Proof.
  assert (Hnone : forall t, sizeToken size t = None -> sizeTokenSplit t = None).
  { intros t. rewrite sizeToken_split.
    now destruct (sizeTokenSplit t) as [[[[? ?] ?] ?]|]. }
  destruct (replace_cases (sizeToken size) url)
    as [[Hn Hr]|(pre & t & new & rest & -> & Hm & Hf & Hr)].
  - left. split; [|exact Hr]. intros pre t Hs. apply Hnone. now apply (Hn pre).
  - right. rewrite sizeToken_split in Hm.
    destruct (sizeTokenSplit t) as [[[[w h] m] post]|] eqn:Es; [|discriminate].
    injection Hm as <- <-.
    destruct (sizeTokenSplit_inv _ _ _ _ _ Es) as (Ht & _).
    exists pre, w, h, m, post. rewrite <- Ht.
    repeat split; try assumption.
    intros p1 t1 Hp Hne. apply Hnone. now apply (Hf p1 t1).
Qed.

Lemma hasSizeToken_none (s : str) :
  hasSizeToken s = false ->
  forall pre t, s = pre ++ t -> sizeTokenSplit t = None.
Proof.
  induction s as [|c s IH]; intros H pre t Hs.
  - destruct pre, t; try discriminate. reflexivity.
  - cbn [hasSizeToken] in H.
    destruct (sizeTokenSplit (c :: s)) eqn:E; [discriminate|].
    destruct pre as [|c' pre]; simpl in Hs.
    + now subst t.
    + injection Hs as -> ->. now apply (IH H pre).
Qed.

Lemma hasSizeToken_intro (s : str) :
  (forall pre t, s = pre ++ t -> sizeTokenSplit t = None) ->
  hasSizeToken s = false.
Proof.
  induction s as [|c s IH]; intros H.
  - reflexivity.
  - cbn [hasSizeToken]. rewrite (H [] (c :: s) eq_refl).
    apply IH. intros pre t ->. now apply (H (c :: pre)).
Qed.

End SizeTokenFacts.

(** ** The resize primitive *)

Section ResizeFacts.

(** The marker [-999] that closes the new token keeps [.jpg] from straddling
    the token and the text after it. *)
Lemma endsWith_jpg_after_marker (a post : str) :
  endsWith ".jpg" (a ++ "-999" ++ post) = endsWith ".jpg" post.
Proof.
  unfold endsWith. rewrite !rev_app_distr.
  change (rev (lit ".jpg")) with (lit "gpj.").
  change (rev (lit "-999")) with (lit "999-").
  destruct (rev post) as [|c1 [|c2 [|c3 [|c4 r]]]]; try reflexivity;
    cbn [app lit list_ascii_of_string startsWith];
    repeat (match goal with
            | |- context [Ascii.eqb ?x ?y && _] => destruct (Ascii.eqb x y)
            end; cbn [andb]; try reflexivity).
Qed.

Lemma closing_after_token (usePng : bool) (size : N) (pre post : str) :
  exists stem,
    (post = stem ++ ".jpg" \/ (post = stem /\ endsWith ".jpg" post = false)) /\
    closing usePng (pre ++ newToken size ++ post)
    = pre ++ newToken size ++ stem ++ ext usePng.
Proof.
  set (a := pre ++ "/" ++ numberToString size ++ "x" ++ numberToString size).
  assert (Ha : forall t, pre ++ newToken size ++ t = a ++ "-999" ++ t).
  { intros t. unfold a, newToken. now rewrite <- !app_assoc. }
  rewrite Ha. unfold closing. rewrite endsWith_jpg_after_marker.
  destruct (endsWith ".jpg" post) eqn:E; cbn [negb].
  - apply endsWith_inv in E as [stem ->]. exists stem. split; [now left|].
    rewrite Ha.
    destruct usePng; cbn [ext]; [|reflexivity].
    unfold jpgAtEnd.
    replace (a ++ "-999" ++ stem ++ ".jpg") with ((a ++ "-999" ++ stem) ++ ".jpg")
      by now rewrite <- !app_assoc.
    rewrite replace_suffix. now rewrite <- !app_assoc.
  - exists post. split; [now right|].
    rewrite Ha.
    destruct usePng; cbn [ext].
    + unfold jpgAtEnd. rewrite replace_suffix. now rewrite <- !app_assoc.
    + now rewrite <- !app_assoc.
Qed.

End ResizeFacts.

(** C1, as amended.  For a size in the range of exact integers,
    [fixArtworkUrl] replaces the leftmost slash-anchored size token, if there
    is one, by the new size and the marker [-999]: the token is [/], a run of
    digits, [x], the whole run of digits after it and the [bb] that follows,
    whenever one follows.  Then [.jpg] is appended exactly when the rewritten
    URL does not already end in [.jpg] (so also after [.png], [.webp] or
    [.tif]), and the result ends in [.jpg]. *)
Theorem C1_fixArtworkUrl_appends_jpg (url : str) (size : N) :
  safeInteger size ->
  let rewritten := replace (sizeToken size) url in
  ((hasSizeToken url = false /\ rewritten = url) \/
   exists pre w h m post,
     url = pre ++ "/" ++ w ++ "x" ++ h ++ m ++ post /\
     w <> [] /\ forallb isDigit w = true /\
     h <> [] /\ forallb isDigit h = true /\
     (m = "bb" \/ (m = [] /\ startsWith "bb" post = false)) /\
     headIs isDigit (m ++ post) = false /\
     (forall p1 t1, pre = p1 ++ t1 -> t1 <> [] ->
        sizeTokenSplit (t1 ++ "/" ++ w ++ "x" ++ h ++ m ++ post) = None) /\
     rewritten = pre ++ newToken size ++ post) /\
  fixArtworkUrl false url size =
    (if endsWith ".jpg" rewritten then rewritten else rewritten ++ ".jpg") /\
  endsWith ".jpg" (fixArtworkUrl false url size) = true.
Proof.
  intros _. cbv zeta. split; [|split].
  - destruct (replace_sizeToken size url)
      as [[Hn Hr]|(pre & w & h & m & post & Hu & Hs & Hf & Hr)].
    { left. split; [now apply hasSizeToken_intro|exact Hr]. }
    right. exists pre, w, h, m, post.
    destruct (sizeTokenSplit_inv _ _ _ _ _ Hs)
      as (_ & Hw & Hwd & Hh & Hhd & Hm & Hd).
    repeat split; assumption.
  - rewrite fixArtworkUrl_closing. unfold closing.
    now destruct (endsWith ".jpg" (replace (sizeToken size) url)).
  - apply (fixArtworkUrl_ext false).
Qed.

(** C1 at the thumbnail of an album and the size 600. *)
Lemma C1_witness :
  fixArtworkUrl false "https://example.com/a/100x100bb.jpg" 600
  = (if endsWith ".jpg"
          (replace (sizeToken 600) "https://example.com/a/100x100bb.jpg")
     then replace (sizeToken 600) "https://example.com/a/100x100bb.jpg"
     else replace (sizeToken 600) "https://example.com/a/100x100bb.jpg"
            ++ ".jpg") /\
  endsWith ".jpg"
    (fixArtworkUrl false "https://example.com/a/100x100bb.jpg" 600) = true.
Proof.
  apply (C1_fixArtworkUrl_appends_jpg "https://example.com/a/100x100bb.jpg" 600).
  unfold safeInteger. lia.
Defined.

(** C1 as stated fails: a URL that already ends in [.png] still gets [.jpg]
    appended. *)
Lemma C1_counterexample :
  endsWith ".png" (replace (sizeToken 600) "https://x/100x100bb.png") = true /\
  fixArtworkUrl false "https://x/100x100bb.png" 600
  = "https://x/600x600-999.png.jpg".
Proof. split; reflexivity. Qed.

(** C10.  For a size in the range of exact integers, [fixArtworkUrl] rewrites
    the leftmost slash-anchored size token and nothing else: either no
    position of the URL starts such a token and only the extension is
    touched, or the URL splits into the text before the first token, the
    token ([/], digits, [x], digits, [bb] when present) and the text after it,
    and the result is the text before, the new token and the text after with
    its extension settled. *)
Theorem C10_only_first_slash_anchored_token
    (usePng : bool) (url : str) (size : N) :
  safeInteger size ->
  (hasSizeToken url = false /\
   fixArtworkUrl usePng url size = closing usePng url) \/
  (exists pre w h m post stem,
     url = pre ++ "/" ++ w ++ "x" ++ h ++ m ++ post /\
     w <> [] /\ forallb isDigit w = true /\
     h <> [] /\ forallb isDigit h = true /\
     (m = "bb" \/ (m = [] /\ startsWith "bb" post = false)) /\
     headIs isDigit (m ++ post) = false /\
     (forall p1 t1, pre = p1 ++ t1 -> t1 <> [] ->
        sizeTokenSplit (t1 ++ "/" ++ w ++ "x" ++ h ++ m ++ post) = None) /\
     (post = stem ++ ".jpg" \/ (post = stem /\ endsWith ".jpg" post = false)) /\
     fixArtworkUrl usePng url size
     = pre ++ newToken size ++ stem ++ ext usePng).
Proof.
  intros _. rewrite fixArtworkUrl_closing.
  destruct (replace_sizeToken size url)
    as [[Hn Hr]|(pre & w & h & m & post & Hu & Hs & Hf & Hr)].
  - left. rewrite Hr. split; [now apply hasSizeToken_intro|reflexivity].
  - right. rewrite Hr.
    destruct (closing_after_token usePng size pre post) as (stem & Hp & Hc).
    destruct (sizeTokenSplit_inv _ _ _ _ _ Hs)
      as (_ & Hw & Hwd & Hh & Hhd & Hm & Hd).
    exists pre, w, h, m, post, stem. repeat split; assumption.
Qed.

(** C10 at a URL with two size tokens. *)
Lemma C10_witness :
  (hasSizeToken "https://x/100x100bb/200x200bb.jpg" = false /\
   fixArtworkUrl false "https://x/100x100bb/200x200bb.jpg" 600
   = closing false "https://x/100x100bb/200x200bb.jpg") \/
  (exists pre w h m post stem,
     lit "https://x/100x100bb/200x200bb.jpg"
     = pre ++ "/" ++ w ++ "x" ++ h ++ m ++ post /\
     w <> [] /\ forallb isDigit w = true /\
     h <> [] /\ forallb isDigit h = true /\
     (m = "bb" \/ (m = [] /\ startsWith "bb" post = false)) /\
     headIs isDigit (m ++ post) = false /\
     (forall p1 t1, pre = p1 ++ t1 -> t1 <> [] ->
        sizeTokenSplit (t1 ++ "/" ++ w ++ "x" ++ h ++ m ++ post) = None) /\
     (post = stem ++ ".jpg" \/ (post = stem /\ endsWith ".jpg" post = false)) /\
     fixArtworkUrl false "https://x/100x100bb/200x200bb.jpg" 600
     = pre ++ newToken 600 ++ stem ++ ext false).
Proof.
  apply (C10_only_first_slash_anchored_token false
           "https://x/100x100bb/200x200bb.jpg" 600).
  unfold safeInteger. lia.
Defined.

(** The second token of a URL is left alone, and so is a token that no [/]
    precedes. *)
Example fixArtworkUrl_second_token :
  fixArtworkUrl false "https://x/100x100bb/200x200bb.jpg" 600
  = "https://x/600x600-999/200x200bb.jpg".
Proof. reflexivity. Qed.

Example fixArtworkUrl_unanchored_token :
  fixArtworkUrl false "https://x/a100x100bb.jpg" 600
  = "https://x/a100x100bb.jpg".
Proof. reflexivity. Qed.

(** ** The maximum-resolution URL *)

Section MaxResolutionFacts.

Lemma imageExt_inv {R} (k : @cont R) (s : str) (r : R) :
  imageExt k s = Some r ->
  exists e rest, s = e ++ rest /\ In e imageExts /\ k rest = Some r.
Proof.
  unfold imageExt. intros H.
  apply lits_inv in H as (t & -> & H).
  repeat (apply alt_inv in H as [H|H]);
    apply lits_inv in H as (rest & -> & H);
    [exists (lit ".jpg")|exists (lit ".png")|exists (lit ".webp")
    |exists (lit ".tif")];
    exists rest; (split; [reflexivity|]); (split; [|exact H]);
    unfold imageExts; simpl; tauto.
Qed.

Lemma bbInLastSegment_inv (t new rest : str) :
  bbInLastSegment t = Some (new, rest) ->
  exists g1 e,
    t = "/" ++ g1 ++ "bb" ++ e /\ In e imageExts /\
    new = "/" ++ g1 ++ e /\ rest = [].
Proof.
  unfold bbInLastSegment. intros H.
  apply lits_inv in H as (t1 & -> & H).
  apply (capture_inv (fun _ => True)) in H.
  2:{ intros k' r' Hk. apply starLazy_inv in Hk as (a & u & -> & _ & Hk).
      now exists a, u. }
  destruct H as (g1 & t2 & -> & _ & H).
  apply lits_inv in H as (t3 & -> & H).
  apply (capture_inv (fun e => In e imageExts)) in H.
  2:{ intros k' r' Hk. now apply imageExt_inv in Hk. }
  destruct H as (e & t4 & -> & He & H).
  apply eos_inv in H as [-> H]. injection H as <- <-.
  exists g1, e. rewrite app_nil_r. now repeat split.
Qed.

(** Stripping [bb] from the last path segment leaves the extension alone. *)
Lemma bbInLastSegment_ext (usePng : bool) (s : str) :
  endsWith (ext usePng) s = true ->
  endsWith (ext usePng) (replace bbInLastSegment s) = true.
Proof.
  intros Hs.
  destruct (replace_cases bbInLastSegment s)
    as [[_ ->]|(pre & t & new & rest & -> & Hm & _ & ->)]; [exact Hs|].
  apply bbInLastSegment_inv in Hm as (g1 & e & -> & He & -> & ->).
  rewrite app_nil_r.
  assert (E : e = ext usePng).
  { replace (pre ++ "/" ++ g1 ++ "bb" ++ e)
      with ((pre ++ "/" ++ g1 ++ "bb") ++ e) in Hs
      by now rewrite <- !app_assoc.
    unfold endsWith in Hs. rewrite rev_app_distr in Hs.
    unfold imageExts in He. simpl in He.
    destruct He as [<-|[<-|[<-|[<-|[]]]]]; destruct usePng;
      try reflexivity; discriminate Hs. }
  rewrite E.
  replace (pre ++ "/" ++ g1 ++ ext usePng)
    with ((pre ++ "/" ++ g1) ++ ext usePng) by now rewrite <- !app_assoc.
  apply endsWith_app.
Qed.

Lemma cdnThumb_inv (s new rest : str) :
  cdnThumb s = Some (new, rest) ->
  exists host g1 file,
    s = "https://" ++ host ++ ".mzstatic.com/image/thumb/" ++ g1 ++ "/" ++ file /\
    new = hdPrefix ++ g1 /\ rest = [].
Proof.
  unfold cdnThumb. intros H.
  apply lits_inv in H as (t1 & -> & H).
  apply starLazy_inv in H as (host & t2 & -> & _ & H).
  apply lits_inv in H as (t3 & -> & H).
  apply (capture_inv (fun _ => True)) in H.
  2:{ intros k' r' Hk. apply star_inv in Hk as (a & u & -> & _ & Hk).
      now exists a, u. }
  destruct H as (g1 & t4 & -> & _ & H).
  apply lits_inv in H as (file & -> & H).
  exists host, g1, file. split; [reflexivity|].
  apply star_inv in H as (a & u & -> & _ & H).
  apply lits_inv in H as (t5 & -> & H).
  apply alt_inv in H as [H|H]; apply lits_inv in H as (t6 & -> & H);
    apply eos_inv in H as [-> H]; injection H as <- <-; now split.
Qed.

(** The maximum-resolution URL: the resized URL when the thumbnail is not a
    CDN thumb URL, which then ends in the requested extension; otherwise the
    asset path under [hdPrefix], with whatever name the asset has.  In both
    cases [bb] is stripped from the last segment. *)
Lemma artworkUrl5000_cases (usePng : bool) (url : str) :
  (artworkUrl5000 usePng url
   = replace bbInLastSegment (fixArtworkUrl usePng url 10000) /\
   endsWith (ext usePng) (artworkUrl5000 usePng url) = true) \/
  (exists host g1 file,
     fixArtworkUrl usePng url 10000
     = "https://" ++ host ++ ".mzstatic.com/image/thumb/" ++ g1 ++ "/" ++ file /\
     artworkUrl5000 usePng url = replace bbInLastSegment (hdPrefix ++ g1)).
Proof.
  unfold artworkUrl5000, replaceAtStart.
  destruct (cdnThumb (fixArtworkUrl usePng url 10000)) as [[new rest]|] eqn:E.
  - right. apply cdnThumb_inv in E as (host & g1 & file & Hs & -> & ->).
    exists host, g1, file. split; [exact Hs|]. now rewrite app_nil_r.
  - left. split; [reflexivity|].
    apply bbInLastSegment_ext, fixArtworkUrl_ext.
Qed.

End MaxResolutionFacts.

(** ** Greedy and lazy repetition, exactly *)

Section RepetitionFacts.
Context {R : Type}.

(** What a greedy repetition takes is the longest run after which the rest
    of the pattern matches. *)
Lemma star_inv_max (p : ascii -> bool) (k : @cont R) (s : str) (r : R) :
  star p k s = Some r ->
  exists a rest,
    s = a ++ rest /\ forallb p a = true /\ k rest = Some r /\
    forall a2 rest2, a2 <> [] -> rest = a2 ++ rest2 ->
      forallb p a2 = true -> k rest2 = None.
Proof.
  revert r. induction s as [|c s IH]; intros r H.
  - exists [], []. cbn [star] in H. repeat split; try assumption.
    intros a2 rest2 Hn E. destruct a2; [congruence|discriminate E].
  - cbn [star] in H. destruct (p c) eqn:Hc.
    + destruct (star p k s) as [r'|] eqn:Es.
      * injection H as <-.
        destruct (IH r' eq_refl) as (a & rest & -> & Ha & Hk & Hmax).
        exists (c :: a), rest. cbn [forallb]. rewrite Hc, Ha.
        repeat split; assumption.
      * exists [], (c :: s). repeat split; try assumption.
        intros a2 rest2 Hn E Ha2.
        destruct a2 as [|c2 a2]; [congruence|].
        cbn [app] in E. injection E as <- ->.
        cbn [forallb] in Ha2. apply andb_true_iff in Ha2 as [_ Ha2].
        destruct (k rest2) eqn:Ek; [exfalso|reflexivity].
        apply (star_complete p k a2 rest2 Ha2); congruence.
    + exists [], (c :: s). repeat split; try assumption.
      intros a2 rest2 Hn E Ha2.
      destruct a2 as [|c2 a2]; [congruence|].
      cbn [app] in E. injection E as <- ->.
      cbn [forallb] in Ha2. rewrite Hc in Ha2. discriminate Ha2.
Qed.

(** What a lazy repetition takes is the shortest run after which the rest of
    the pattern matches. *)
Lemma starLazy_inv_min (p : ascii -> bool) (k : @cont R) (s : str) (r : R) :
  starLazy p k s = Some r ->
  exists a rest,
    s = a ++ rest /\ forallb p a = true /\ k rest = Some r /\
    forall a1 a2, a = a1 ++ a2 -> a2 <> [] -> k (a2 ++ rest) = None.
Proof.
  induction s as [|c s IH]; intros H.
  - cbn [starLazy] in H. destruct (k []) as [r'|] eqn:E; [|discriminate].
    exists [], []. repeat split; try congruence.
    intros a1 a2 E2 Hn. destruct a1, a2; try discriminate E2. congruence.
  - cbn [starLazy] in H. destruct (k (c :: s)) as [r'|] eqn:E.
    + exists [], (c :: s). repeat split; try congruence.
      intros a1 a2 E2 Hn. destruct a1, a2; try discriminate E2. congruence.
    + destruct (p c) eqn:Hc; [|discriminate].
      destruct (IH H) as (a & rest & -> & Ha & Hk & Hmin).
      exists (c :: a), rest. cbn [forallb]. rewrite Hc, Ha.
      repeat split; try assumption.
      intros a1 a2 E2 Hn. destruct a1 as [|c1 a1]; cbn [app] in E2.
      * subst a2. exact E.
      * injection E2 as _ E2. now apply (Hmin a1 a2).
Qed.

Lemma starLazy_complete (p : ascii -> bool) (k : @cont R) (a rest : str) :
  forallb p a = true -> k rest <> None -> starLazy p k (a ++ rest) <> None.
Proof.
  intros Ha Hk. induction a as [|c a IH]; cbn [app].
  - destruct rest; cbn [starLazy]; destruct (k _); congruence.
  - cbn [forallb] in Ha. apply andb_true_iff in Ha as [Hc Ha].
    cbn [starLazy]. destruct (k (c :: a ++ rest)); [discriminate|].
    rewrite Hc. now apply IH.
Qed.

(** A greedy run inside a capture group: some run is taken when the rest of
    the pattern matches after one, whatever the group then holds. *)
Lemma capture_star_complete (p : ascii -> bool) (k : str -> @cont R)
    (a rest : str) :
  forallb p a = true -> (forall g, k g rest <> None) ->
  capture (star p) k (a ++ rest) <> None.
Proof.
  intros Ha Hk. unfold capture. apply star_complete; [exact Ha|apply Hk].
Qed.

Lemma capture_star_inv_max (p : ascii -> bool) (k : str -> @cont R)
    (s : str) (r : R) :
  capture (star p) k s = Some r ->
  exists a rest,
    s = a ++ rest /\ forallb p a = true /\ k a rest = Some r /\
    forall a2 rest2, a2 <> [] -> rest = a2 ++ rest2 ->
      forallb p a2 = true -> k (a ++ a2) rest2 = None.
Proof.
  unfold capture. intros H.
  apply star_inv_max in H as (a & rest & -> & Ha & Hk & Hmax).
  assert (Hcut : forall x y : str,
            firstn (length (x ++ y) - length y) (x ++ y) = x).
  { intros x y.
    rewrite length_app, Nat.add_sub, firstn_app, Nat.sub_diag, firstn_all.
    cbn [firstn]. apply app_nil_r. }
  exists a, rest. rewrite Hcut in Hk. repeat split; try assumption.
  intros a2 rest2 Hn -> Ha2. specialize (Hmax a2 rest2 Hn eq_refl Ha2).
  cbv beta in Hmax. rewrite app_assoc, Hcut in Hmax. exact Hmax.
Qed.

End RepetitionFacts.

(** ** CDN thumb URLs, exactly *)

Section CdnShapeFacts.

(** What follows group 1 of the pattern of the high-resolution rewrite. *)
Lemma cdnTail_complete (g file : str) :
  forallb dot file = true ->
  endsWith ".jpg" file = true \/ endsWith ".png" file = true ->
  lits "/" (star dot (lits "." (alt (lits "jpg") (lits "png")
    (eos (ret ("https://a1.mzstatic.com/us/r1000/063/" ++ g))))))
    ("/" ++ file) <> None.
Proof.
  intros Hd He. rewrite lits_app.
  assert (Hf : exists a e, file = a ++ "." ++ e /\ forallb dot a = true /\
                           (e = lit "jpg" \/ e = lit "png")).
  { destruct He as [He|He]; apply endsWith_inv in He as [a ->];
      rewrite forallb_app in Hd; apply andb_true_iff in Hd as [Hd _];
      [exists a, (lit "jpg")|exists a, (lit "png")]; tauto. }
  destruct Hf as (a & e & -> & Ha & He').
  apply star_complete; [exact Ha|]. rewrite lits_app.
  destruct He' as [-> | ->]; discriminate.
Qed.

Lemma cdnTail_inv (g t : str) (r : hit) :
  lits "/" (star dot (lits "." (alt (lits "jpg") (lits "png")
    (eos (ret ("https://a1.mzstatic.com/us/r1000/063/" ++ g)))))) t = Some r ->
  exists file,
    t = "/" ++ file /\ forallb dot file = true /\
    (endsWith ".jpg" file = true \/ endsWith ".png" file = true) /\
    r = (hdPrefix ++ g, []).
Proof.
  intros H. apply lits_inv in H as (file & -> & H). exists file.
  split; [reflexivity|].
  apply star_inv in H as (a & u & -> & Ha & H).
  apply lits_inv in H as (t5 & -> & H).
  apply alt_inv in H as [H|H]; apply lits_inv in H as (t6 & -> & H);
    apply eos_inv in H as [-> H]; injection H as <-;
    rewrite forallb_app, Ha; (split; [reflexivity|]); (split; [|reflexivity]).
  - left. change (a ++ "." ++ "jpg" ++ []) with (a ++ ".jpg").
    apply endsWith_app.
  - right. change (a ++ "." ++ "png" ++ []) with (a ++ ".png").
    apply endsWith_app.
Qed.

Lemma includes_slash_inv (s : str) :
  includes "/" s = true -> exists a b, s = a ++ "/"%char :: b.
Proof.
  intros H. apply includes_inv in H as (a & b & ->). now exists a, b.
Qed.

Lemma cdnThumb_complete (s host path file : str) :
  cdnShape s host path file -> cdnThumb s <> None.
Proof.
  intros (-> & Hh & Hp & Hf & He). unfold cdnThumb, cdnMarker.
  rewrite lits_app. apply starLazy_complete; [exact Hh|].
  rewrite lits_app. apply capture_star_complete; [exact Hp|].
  intros g. now apply cdnTail_complete.
Qed.

Lemma cdnThumb_inv_split (s new rest : str) :
  cdnThumb s = Some (new, rest) ->
  exists host path file,
    cdnSplit s host path file /\ new = hdPrefix ++ path /\ rest = [].
Proof.
  unfold cdnThumb. intros H.
  apply lits_inv in H as (t1 & -> & H).
  apply starLazy_inv_min in H as (host & t2 & -> & Hh & H & Hmin).
  apply lits_inv in H as (t3 & -> & H).
  apply capture_star_inv_max in H as (path & t4 & -> & Hp & H & Hmax).
  apply cdnTail_inv in H as (file & -> & Hf & He & Hr).
  injection Hr as -> ->.
  exists host, path, file. split; [|now split].
  split; [|split].
  - unfold cdnShape, cdnMarker. repeat split; assumption.
  - (* the file name: a longer path would have matched as well *)
    destruct (includes "/" file) eqn:Hs; [exfalso|reflexivity].
    apply includes_slash_inv in Hs as (f1 & f2 & ->).
    rewrite forallb_app in Hf. apply andb_true_iff in Hf as [Hf1 Hf2].
    cbn [forallb] in Hf2. apply andb_true_iff in Hf2 as [_ Hf2].
    assert (He2 : endsWith ".jpg" f2 = true \/ endsWith ".png" f2 = true).
    { assert (Hcut : forall e : str, length e = 4 ->
                includes "/" e = false ->
                endsWith e (f1 ++ "/"%char :: f2) = true ->
                endsWith e f2 = true).
      { intros e Hl Hne Hend. apply endsWith_inv in Hend as [x Hx].
        assert (Hslash : forall u v : str, includes "/" (u ++ "/"%char :: v)
                                            = true).
        { intros u v. change ("/"%char :: v) with ("/" ++ v).
          apply includes_app. }
        apply app_eq_app in Hx as [l [[E1 E2]|[E1 E2]]].
        - exfalso. rewrite E2, Hslash in Hne. discriminate Hne.
        - destruct l as [|c l].
          + exfalso. cbn [app] in E2. rewrite <- E2 in Hne.
            pose proof (Hslash [] f2) as Hs2. cbn [app] in Hs2.
            rewrite Hs2 in Hne. discriminate Hne.
          + cbn [app] in E2. injection E2 as _ ->. apply endsWith_app. }
      destruct He as [He|He]; [left|right];
        (eapply Hcut; [reflexivity|reflexivity|exact He]). }
    assert (Hno := Hmax ("/"%char :: f1) ("/"%char :: f2)
                     ltac:(discriminate) eq_refl Hf1).
    apply (cdnTail_complete (path ++ "/"%char :: f1) f2 Hf2 He2).
    exact Hno.
  - (* the host: the marker does not occur before its end *)
    destruct (includes cdnMarker (host ++ ".mzstatic.com/image/thumb")) eqn:Hi;
      [exfalso|reflexivity].
    apply includes_inv in Hi as (x & y & E).
    assert (Hlen : length x < length host).
    { apply (f_equal (@length ascii)) in E. rewrite !length_app in E.
      cbn [length cdnMarker lit list_ascii_of_string] in E. lia. }
    assert (Hsplit : exists a2, host = x ++ a2 /\ a2 <> []).
    { apply app_eq_app in E as [l [[E1 E2]|[E1 E2]]].
      - exists l. split; [exact E1|]. intros ->. rewrite app_nil_r in E1.
        subst x. lia.
      - exfalso. subst x. rewrite length_app in Hlen. lia. }
    destruct Hsplit as (a2 & -> & Hn).
    rewrite <- app_assoc in E. apply app_inv_head in E.
    specialize (Hmin x a2 eq_refl Hn).
    change (lit ".mzstatic.com/image/thumb/")
      with (".mzstatic.com/image/thumb" ++ lit "/") in Hmin.
    rewrite <- (app_assoc _ (lit "/")), (app_assoc a2), E in Hmin.
    rewrite <- !app_assoc in Hmin.
    unfold cdnMarker in Hmin. rewrite lits_app in Hmin.
    revert Hmin.
    replace (y ++ "/" ++ path ++ "/" ++ file)
      with ((y ++ "/" ++ path) ++ "/" ++ file)
      by now rewrite <- !app_assoc.
    apply capture_star_complete.
    + rewrite !forallb_app, Hp, andb_true_r.
      rewrite forallb_app in Hh. apply andb_true_iff in Hh as [_ Hh].
      assert (Hall : forallb dot (a2 ++ ".mzstatic.com/image/thumb") = true)
        by (rewrite forallb_app, Hh; reflexivity).
      rewrite E, forallb_app in Hall.
      apply andb_true_iff in Hall as [_ Hall].
      now rewrite Hall.
    + intros g. now apply cdnTail_complete.
Qed.

(** The pattern of the high-resolution rewrite matches the CDN thumb URLs,
    and group 1 is then the whole asset path. *)
Lemma cdnThumb_spec (s : str) :
  (cdnThumb s = None /\ forall host path file, ~ cdnShape s host path file) \/
  (exists host path file,
     cdnSplit s host path file /\ cdnThumb s = Some (hdPrefix ++ path, [])).
Proof.
  destruct (cdnThumb s) as [[new rest]|] eqn:E.
  - right. apply cdnThumb_inv_split in E as (host & path & file & H & -> & ->).
    now exists host, path, file.
  - left. split; [reflexivity|]. intros host path file H.
    now apply (cdnThumb_complete s host path file H).
Qed.

End CdnShapeFacts.

Section StrippedFacts.

Lemma imageExt_app {R} (k : @cont R) (e rest : str) :
  In e imageExts -> imageExt k (e ++ rest) = k rest.
Proof.
  unfold imageExts. cbn [In].
  intros [<-|[<-|[<-|[<-|[]]]]]; unfold imageExt, alt; cbn;
    destruct (k rest); reflexivity.
Qed.

Lemma bbInLastSegment_inv_seg (t new rest : str) :
  bbInLastSegment t = Some (new, rest) ->
  exists g e,
    t = "/" ++ g ++ "bb" ++ e /\ forallb notSlash g = true /\
    In e imageExts /\ new = "/" ++ g ++ e /\ rest = [].
Proof.
  unfold bbInLastSegment. intros H.
  apply lits_inv in H as (t1 & -> & H).
  apply (capture_inv (fun a => forallb notSlash a = true)) in H.
  2:{ intros k' r' Hk. apply starLazy_inv in Hk as (a & u & -> & Ha & Hk).
      now exists a, u. }
  destruct H as (g & t2 & -> & Hg & H).
  apply lits_inv in H as (t3 & -> & H).
  apply (capture_inv (fun e => In e imageExts)) in H.
  2:{ intros k' r' Hk. now apply imageExt_inv in Hk. }
  destruct H as (e & t4 & -> & He & H).
  apply eos_inv in H as [-> H]. injection H as <- <-.
  exists g, e. rewrite app_nil_r. now repeat split.
Qed.

Lemma bbInLastSegment_complete (g e : str) :
  forallb notSlash g = true -> In e imageExts ->
  bbInLastSegment ("/" ++ g ++ "bb" ++ e) <> None.
Proof.
  intros Hg He. unfold bbInLastSegment. rewrite lits_app.
  unfold capture at 1. apply starLazy_complete; [exact Hg|].
  rewrite lits_app. unfold capture.
  rewrite <- (app_nil_r e) at 1. rewrite (imageExt_app _ e [] He).
  discriminate.
Qed.

(** [replace] with the pattern that strips [bb] from the last segment. *)
Lemma replace_bbInLastSegment (x : str) :
  bbStripped x (replace bbInLastSegment x).
Proof.
  destruct (replace_cases bbInLastSegment x)
    as [[Hn ->]|(pre & t & new & rest & -> & Hm & _ & ->)].
  - right. split; [|reflexivity]. intros p g e Hg He E.
    apply (bbInLastSegment_complete g e Hg He). now apply (Hn p).
  - left. apply bbInLastSegment_inv_seg in Hm as (g & e & -> & Hg & He & -> & ->).
    exists pre, g, e. rewrite app_nil_r. repeat split; assumption.
Qed.

(** The maximum-resolution URL, exactly: for a resized URL that is no CDN
    thumb URL, the resized URL with [bb] stripped from its last segment, which
    ends in the requested extension; for a CDN thumb URL the asset path under
    [hdPrefix], with [bb] stripped likewise. *)
Lemma artworkUrl5000_spec (usePng : bool) (url : str) :
  ((forall host path file,
      ~ cdnShape (fixArtworkUrl usePng url 10000) host path file) /\
   bbStripped (fixArtworkUrl usePng url 10000) (artworkUrl5000 usePng url) /\
   endsWith (ext usePng) (artworkUrl5000 usePng url) = true) \/
  (exists host path file,
     cdnSplit (fixArtworkUrl usePng url 10000) host path file /\
     bbStripped (hdPrefix ++ path) (artworkUrl5000 usePng url)).
Proof.
  unfold artworkUrl5000, replaceAtStart.
  destruct (cdnThumb_spec (fixArtworkUrl usePng url 10000))
    as [[-> Hn]|(host & path & file & Hs & ->)].
  - left. split; [exact Hn|]. split; [apply replace_bbInLastSegment|].
    apply bbInLastSegment_ext, fixArtworkUrl_ext.
  - right. exists host, path, file. split; [exact Hs|].
    rewrite app_nil_r. apply replace_bbInLastSegment.
Qed.

End StrippedFacts.

(** ** The default link set *)

(** C2, as amended.  For an album [displayResults] renders exactly four
    links, labelled 600, 1500, 3000 and HD.  The three sized links end in
    [.jpg], or in [.png] when PNG was asked for.  The HD link is the
    maximum-resolution URL.  When the thumbnail resized to 10000 is no CDN
    thumb URL, it is that resized URL with [bb] stripped from its last
    segment, and ends in the same extension.  When it is one, the HD link is
    its asset path (what stands between the first marker and the last slash)
    re-rooted under [hdPrefix], with [bb] stripped likewise: its ending is the
    asset's own. *)
Theorem C2_album_links (usePng : bool) (artworkUrl100 : str) :
  links (deriveLinks album usePng artworkUrl100)
  = [ {| label := "600"; href := fixArtworkUrl usePng artworkUrl100 600 |};
      {| label := "1500"; href := fixArtworkUrl usePng artworkUrl100 1500 |};
      {| label := "3000"; href := fixArtworkUrl usePng artworkUrl100 3000 |};
      {| label := "HD"; href := artworkUrl5000 usePng artworkUrl100 |} ] /\
  endsWith (ext usePng) (fixArtworkUrl usePng artworkUrl100 600) = true /\
  endsWith (ext usePng) (fixArtworkUrl usePng artworkUrl100 1500) = true /\
  endsWith (ext usePng) (fixArtworkUrl usePng artworkUrl100 3000) = true /\
  (((forall host path file,
       ~ cdnShape (fixArtworkUrl usePng artworkUrl100 10000) host path file) /\
    bbStripped (fixArtworkUrl usePng artworkUrl100 10000)
      (artworkUrl5000 usePng artworkUrl100) /\
    endsWith (ext usePng) (artworkUrl5000 usePng artworkUrl100) = true) \/
   (exists host path file,
      cdnSplit (fixArtworkUrl usePng artworkUrl100 10000) host path file /\
      bbStripped (hdPrefix ++ path) (artworkUrl5000 usePng artworkUrl100))).
Proof.
  split; [reflexivity|].
  repeat (split; [apply fixArtworkUrl_ext|]).
  apply artworkUrl5000_spec.
Qed.

(** C2 as stated fails on the HD link: for a CDN thumbnail it is the asset
    path, which here ends neither in [.jpg] nor, when PNG is asked for, in
    [.png]. *)
Lemma C2_counterexample :
  let url : str :=
    "https://is1-ssl.mzstatic.com/image/thumb/Music115/v4/ab/cd/source/100x100bb.jpg" in
  map href (links (deriveLinks album false url))
  = [ lit "https://is1-ssl.mzstatic.com/image/thumb/Music115/v4/ab/cd/source/600x600-999.jpg";
      lit "https://is1-ssl.mzstatic.com/image/thumb/Music115/v4/ab/cd/source/1500x1500-999.jpg";
      lit "https://is1-ssl.mzstatic.com/image/thumb/Music115/v4/ab/cd/source/3000x3000-999.jpg";
      lit "https://a1.mzstatic.com/us/r1000/063/Music115/v4/ab/cd/source" ] /\
  forallb (endsWith ".jpg") (map href (links (deriveLinks album false url)))
  = false /\
  forallb (endsWith ".png") (map href (links (deriveLinks album true url)))
  = false.
Proof. vm_compute. repeat split. Qed.

(** ** Movies and TV seasons *)

Section MovieFacts.

Lemma startsWith_app_short (p s b : str) :
  length p <= length s -> startsWith p (s ++ b) = startsWith p s.
Proof.
  revert s; induction p as [|c p IH]; intros s H; [reflexivity|].
  destruct s as [|d s]; simpl in H; [lia|].
  simpl. rewrite IH by lia. reflexivity.
Qed.

Lemma includes_none (p s : str) :
  includes p s = false ->
  forall a t, s = a ++ t -> startsWith p t = false.
Proof.
  intros H a. revert s H. induction a as [|c a IH]; intros s H t ->.
  - simpl in H. destruct t; simpl in H; now apply orb_false_iff in H as [H _].
  - simpl in H. apply orb_false_iff in H as [_ H]. now apply (IH _ H).
Qed.

(** After [.jpg] has been ensured the way the movie branch does it, the URL
    ends in [.jpg]. *)
Lemma movie_ensure_jpg (u : str) :
  endsWith ".jpg"
    (if negb (endsWith ".jpg" u) then
       let u' := replace otherExtAtEnd u in
       if negb (endsWith ".jpg" u') then u' ++ ".jpg" else u'
     else u) = true.
Proof.
  destruct (endsWith ".jpg" u) eqn:E; cbn [negb]; [exact E|].
  cbv zeta. destruct (endsWith ".jpg" (replace otherExtAtEnd u)) eqn:E';
    cbn [negb]; [exact E'|apply endsWith_app].
Qed.

Lemma movieHdUrl_ext (usePng : bool) (url : str) :
  endsWith (ext usePng) (movieHdUrl usePng url) = true.
Proof.
  unfold movieHdUrl. cbv zeta.
  set (u := replace bbBeforeExt _).
  pose proof (movie_ensure_jpg u) as H. cbv zeta in H.
  destruct usePng; cbn [ext]; [now apply jpgAtEnd_png|exact H].
Qed.

Lemma bbBeforeExt_inv (t new rest : str) :
  bbBeforeExt t = Some (new, rest) ->
  exists e, t = "bb" ++ e /\ In e imageExts /\ new = e /\ rest = [].
Proof.
  unfold bbBeforeExt. intros H.
  apply lits_inv in H as (t1 & -> & H).
  apply (capture_inv (fun e => In e imageExts)) in H.
  2:{ intros k' r' Hk. now apply imageExt_inv in Hk. }
  destruct H as (e & t2 & -> & He & H).
  apply eos_inv in H as [-> H]. injection H as <- <-.
  exists e. rewrite app_nil_r. now repeat split.
Qed.

(** On a thumbnail of the usual shape, whose first [100x100] is the one
    before [bb.jpg], the movie branch yields the same URL with the size
    [10000x10000-999] and without [bb]. *)
Lemma movieHdUrl_shape (usePng : bool) (pre : str) :
  includes "100x100" (pre ++ "100x10") = false ->
  movieHdUrl usePng (pre ++ "100x100bb.jpg")
  = pre ++ "10000x10000-999" ++ ext usePng.
Proof.
  intros Hfirst. unfold movieHdUrl. cbv zeta.
  assert (H1 : replace (lits "100x100" (ret "10000x10000-999"))
                 (pre ++ "100x100bb.jpg")
               = pre ++ "10000x10000-999" ++ "bb.jpg").
  { apply (replace_first _ pre (lit "100x100bb.jpg")); [reflexivity|].
    intros p1 t1 -> Hn. apply lits_fail.
    change (lit "100x100bb.jpg") with ("100x10" ++ lit "0bb.jpg").
    rewrite app_assoc, startsWith_app_short.
    - apply (includes_none _ _ Hfirst p1). now rewrite <- app_assoc.
    - rewrite length_app. destruct t1; [congruence|]. simpl. lia. }
  rewrite H1.
  assert (H2 : replace bbBeforeExt (pre ++ "10000x10000-999" ++ "bb.jpg")
               = (pre ++ "10000x10000-999") ++ ".jpg").
  { rewrite app_assoc.
    rewrite <- (app_nil_r (lit ".jpg")).
    apply replace_first; [reflexivity|].
    intros p1 t1 _ Hn.
    destruct (bbBeforeExt (t1 ++ "bb.jpg")) as [[new rest]|] eqn:E;
      [|reflexivity].
    apply bbBeforeExt_inv in E as (e & He & Hin & _).
    unfold imageExts in Hin. simpl in Hin.
    pose proof (f_equal (@length ascii) He) as Hl.
    rewrite !length_app in Hl.
    destruct Hin as [<-|[<-|[<-|[<-|[]]]]];
      destruct t1 as [|c1 [|c2 t1]]; simpl in Hl; try lia; try congruence;
      cbn in He; discriminate He. }
  rewrite H2, endsWith_app. cbn [negb].
  destruct usePng; cbn [ext].
  - unfold jpgAtEnd. rewrite replace_suffix. now rewrite <- app_assoc.
  - now rewrite <- app_assoc.
Qed.

End MovieFacts.

(** C7.  For a movie and for a TV season [displayResults] renders one link,
    HD, and the two branches compute the same URL from the same thumbnail.
    That URL ends in [.jpg], or in [.png] when PNG was asked for; on a
    thumbnail of the usual shape it is the thumbnail itself, host included,
    with [100x100bb] replaced by [10000x10000-999]. *)
Theorem C7_movie_tvSeason_same_single_link (usePng : bool) (url : str) :
  links (deriveLinks movie usePng url)
  = [ {| label := "HD"; href := movieHdUrl usePng url |} ] /\
  links (deriveLinks tvSeason usePng url)
  = [ {| label := "HD"; href := tvHdUrl usePng url |} ] /\
  movieHdUrl usePng url = tvHdUrl usePng url /\
  links (deriveLinks movie usePng url) = links (deriveLinks tvSeason usePng url) /\
  endsWith (ext usePng) (movieHdUrl usePng url) = true /\
  (forall pre,
     url = pre ++ "100x100bb.jpg" ->
     includes "100x100" (pre ++ "100x10") = false ->
     movieHdUrl usePng url = pre ++ "10000x10000-999" ++ ext usePng).
Proof.
  repeat split.
  - apply movieHdUrl_ext.
  - intros pre -> H. now apply movieHdUrl_shape.
Qed.

(** C7 at a CDN thumbnail: the host is kept. *)
Lemma C7_witness :
  movieHdUrl true
    "https://is1-ssl.mzstatic.com/image/thumb/Video/v4/ab/poster.jpg/100x100bb.jpg"
  = "https://is1-ssl.mzstatic.com/image/thumb/Video/v4/ab/poster.jpg/10000x10000-999.png".
Proof.
  apply (proj2 (proj2 (proj2 (proj2 (proj2
    (C7_movie_tvSeason_same_single_link true
       "https://is1-ssl.mzstatic.com/image/thumb/Video/v4/ab/poster.jpg/100x100bb.jpg"))))))
    with (pre := lit "https://is1-ssl.mzstatic.com/image/thumb/Video/v4/ab/poster.jpg/");
    reflexivity.
Defined.

(** ** The query parser *)

Section ParserFacts.

Lemma truthy_includes (s : str) :
  truthy s && includes ".png" (toLowerCase s) = includes ".png" (toLowerCase s).
Proof. destruct s; reflexivity. Qed.

Ltac parse_cases :=
  unfold parseSearchTerm; cbv zeta;
  repeat match goal with
    | |- context [search urlPattern ?s] =>
        destruct (search urlPattern s) as [[? ?]|] eqn:?; cbv beta iota
    | |- context [findPrefix ?t ?s] =>
        destruct (findPrefix t s) as [[? ?]|] eqn:?; cbv beta iota
    | |- context [let '(_, _) := ?p in _] => destruct p; cbv beta iota
    | |- context [if truthy ?s then _ else _] =>
        destruct (truthy s) eqn:?; cbv beta iota
    end.

Lemma parse_usePng (rawTerm : str) :
  usePng (parseSearchTerm rawTerm) = includes ".png" (toLowerCase rawTerm).
Proof.
  rewrite <- truthy_includes. parse_cases; reflexivity.
Qed.

Lemma parse_lookupMode (rawTerm : str) :
  lookupMode (parseSearchTerm rawTerm)
  = match search urlPattern (rawTermAfterFormat rawTerm) with
    | Some _ => true
    | None => false
    end.
Proof.
  unfold rawTermAfterFormat. parse_cases; reflexivity.
Qed.

Lemma lower_eqi (c x : ascii) :
  In c (lit ".png") -> Ascii.eqb c (toLowerChar x) = eqi c x.
Proof.
  intros [<-|[<-|[<-|[<-|[]]]]];
    destruct x as [[] [] [] [] [] [] [] []]; reflexivity.
Qed.

Lemma equalsIgnoreCase_length (a b : str) :
  equalsIgnoreCase a b = true -> length a = length b.
Proof.
  revert b; induction a as [|x a IH]; intros [|y b] H;
    simpl in *; try discriminate; [reflexivity|].
  apply andb_true_iff in H as [_ H]. now rewrite (IH b H).
Qed.

Lemma lower_png_sameText (t : str) :
  toLowerCase t = ".png" <-> sameText ".png" t.
Proof.
  unfold sameText.
  assert (Hlen : toLowerCase t = ".png" \/ equalsIgnoreCase ".png" t = true ->
                 length t = 4).
  { intros [H|H].
    - apply (f_equal (@length ascii)) in H. unfold toLowerCase in H.
      now rewrite length_map in H.
    - now apply equalsIgnoreCase_length in H. }
  destruct t as [|x1 [|x2 [|x3 [|x4 [|x5 t]]]]];
    try (split; intros H; exfalso;
         (assert (Hl := Hlen (or_introl H)) || assert (Hl := Hlen (or_intror H)));
         simpl in Hl; lia).
  clear Hlen.
  change (lit ".png") with ["."%char; "p"%char; "n"%char; "g"%char].
  cbn [toLowerCase map equalsIgnoreCase].
  rewrite <- (lower_eqi "." x1), <- (lower_eqi "p" x2),
    <- (lower_eqi "n" x3), <- (lower_eqi "g" x4) by (simpl; tauto).
  rewrite andb_true_r, !andb_true_iff, !Ascii.eqb_eq.
  split.
  - intros H. injection H as <- <- <- <-. tauto.
  - intros (<- & <- & <- & <-). reflexivity.
Qed.

(** [usePng] is set exactly when the raw term contains [.png] in some
    spelling of upper and lower case. *)
Lemma parse_usePng_iff (rawTerm : str) :
  usePng (parseSearchTerm rawTerm) = true <->
  exists a t b, rawTerm = a ++ t ++ b /\ sameText ".png" t.
Proof.
  rewrite parse_usePng. split.
  - intros H. apply includes_inv in H as (a' & b' & H).
    unfold toLowerCase in H.
    apply map_eq_app in H as (a & r & -> & _ & H).
    apply map_eq_app in H as (t & b & -> & Ht & _).
    exists a, t, b. split; [reflexivity|]. now apply lower_png_sameText.
  - intros (a & t & b & -> & Ht). apply lower_png_sameText in Ht.
    unfold toLowerCase in *. rewrite !map_app, Ht. apply includes_app.
Qed.

End ParserFacts.

(** C4.  The format modifier, a country prefix and an attribute prefix in one
    query. *)
Theorem C4_country_attribute_png :
  parseSearchTerm "uk: artist: Coldplay .png"
  = {| searchTerm := "Coldplay";
       entity := album;
       countryCode := "gb";
       usePng := true;
       attribute := artistTerm;
       lookupMode := false |}.
Proof. vm_compute. reflexivity. Qed.

(** C5 at a term in which the token is nested three deep: the two removal
    passes, both of which run before the prefixes are parsed, leave [.png] in
    the search term. *)
Theorem C5_nested_token_survives :
  usePng (parseSearchTerm ".p.p.pngngng") = true /\
  searchTerm (parseSearchTerm ".p.p.pngngng") = ".png" /\
  includes ".png" (searchTerm (parseSearchTerm ".p.p.pngngng")) = true.
Proof. vm_compute. repeat split. Qed.

(** The second removal pass runs before the prefixes are parsed: here it
    uncovers the country prefix, which is then consumed. *)
Example second_pass_precedes_prefixes :
  parseSearchTerm ".p.pngnguk: x"
  = {| searchTerm := "x";
       entity := album;
       countryCode := "gb";
       usePng := true;
       attribute := noAttribute;
       lookupMode := false |}.
Proof. vm_compute. reflexivity. Qed.

(** ** Store URLs *)

Section StoreUrlFacts.

Lemma equalsIgnoreCase_app (c1 c2 a1 a2 : str) :
  equalsIgnoreCase c1 a1 = true -> equalsIgnoreCase c2 a2 = true ->
  equalsIgnoreCase (c1 ++ c2) (a1 ++ a2) = true.
Proof.
  revert a1; induction c1 as [|c c1 IH]; intros [|a a1] H1 H2;
    simpl in *; try discriminate; [exact H2|].
  apply andb_true_iff in H1 as [-> H1]. now apply IH.
Qed.

Lemma equalsIgnoreCase_app_inv (c1 c2 a : str) :
  equalsIgnoreCase (c1 ++ c2) a = true ->
  exists a1 a2,
    a = a1 ++ a2 /\ equalsIgnoreCase c1 a1 = true /\
    equalsIgnoreCase c2 a2 = true.
Proof.
  revert a; induction c1 as [|c c1 IH]; intros a H.
  - now exists [], a.
  - destruct a as [|x a]; simpl in H; [discriminate|].
    apply andb_true_iff in H as [Hx H].
    destruct (IH _ H) as (a1 & a2 & -> & H1 & H2).
    exists (x :: a1), a2. simpl. now rewrite Hx.
Qed.

Lemma search_inv {R} (m : @cont (R * str)) (s txt : str) (r : R) :
  search m s = Some (txt, r) ->
  exists pre t rest, s = pre ++ t /\ m t = Some (r, rest).
Proof.
  induction s as [|c s IH]; simpl; intros H.
  - destruct (m []) as [[r' rest]|] eqn:E; [|discriminate].
    injection H as _ <-. now exists [], [], rest.
  - destruct (m (c :: s)) as [[r' rest]|] eqn:E.
    + injection H as _ <-. now exists [], (c :: s), rest.
    + destruct (IH H) as (pre & t & rest & -> & Hm).
      now exists (c :: pre), t, rest.
Qed.

Lemma search_complete {R} (m : @cont (R * str)) (pre t : str) :
  m t <> None -> search m (pre ++ t) <> None.
Proof.
  intros Hm. induction pre as [|c pre IH]; simpl.
  - destruct t; simpl; destruct (m _) as [[? ?]|]; congruence.
  - destruct (m (c :: pre ++ t)) as [[? ?]|]; [discriminate|exact IH].
Qed.

Lemma search_none {R} (m : @cont (R * str)) (s : str) :
  (forall pre t, s = pre ++ t -> m t = None) -> search m s = None.
Proof.
  intros H. destruct (search m s) as [[txt r]|] eqn:E; [|reflexivity].
  apply search_inv in E as (pre & t & rest & Hs & Hm).
  rewrite (H pre t Hs) in Hm. discriminate.
Qed.

Lemma urlPattern_inv (t id rest : str) :
  urlPattern t = Some (id, rest) ->
  exists u, t = u ++ rest /\ isStoreUrl u id.
Proof.
  unfold urlPattern. intros H.
  apply litsi_inv in H as (a1 & t1 & -> & Ha1 & H).
  assert (Hs : exists scheme t2,
             a1 ++ t1 = scheme ++ t2 /\
             (sameText "http" scheme \/ sameText "https" scheme) /\
             litsi "://"
               (alt (litsi "itunes") (alt (litsi "apps") (litsi "books"))
                  (litsi ".apple.com/" (plus notSpace (litsi "/id"
                     (capture (plus isDigit)
                        (fun g3 rest0 => Some (g3, rest0))))))) t2
             = Some (id, rest)).
  { apply alt_inv in H as [H|H].
    - apply litsi_inv in H as (a2 & t2 & -> & Ha2 & H).
      exists (a1 ++ a2), t2. rewrite <- app_assoc.
      split; [reflexivity|]. split; [|exact H].
      right. now apply (equalsIgnoreCase_app "http" "s").
    - exists a1, t1. split; [reflexivity|]. split; [now left|exact H]. }
  clear H Ha1. destruct Hs as (scheme & t2 & -> & Hscheme & H).
  apply litsi_inv in H as (sep & t3 & -> & Hsep & H).
  assert (Hh : exists host t4,
             t3 = host ++ t4 /\
             (sameText "itunes" host \/ sameText "apps" host \/
              sameText "books" host) /\
             litsi ".apple.com/" (plus notSpace (litsi "/id"
               (capture (plus isDigit) (fun g3 rest0 => Some (g3, rest0))))) t4
             = Some (id, rest)).
  { apply alt_inv in H as [H|H]; [|apply alt_inv in H as [H|H]];
      apply litsi_inv in H as (host & t4 & -> & Hhost & H);
      exists host, t4; (split; [reflexivity|]); (split; [|exact H]); tauto. }
  clear H. destruct Hh as (host & t4 & -> & Hhost & H).
  apply litsi_inv in H as (domain & t5 & -> & Hdomain & H).
  apply plus_inv in H as (path & t6 & -> & Hp1 & Hp2 & H).
  apply litsi_inv in H as (marker & t7 & -> & Hmarker & H).
  apply (capture_inv (fun a => a <> [] /\ forallb isDigit a = true)) in H.
  2:{ intros k' r' Hk. apply plus_inv in Hk as (a & u & -> & ? & ? & Hk).
      now exists a, u. }
  destruct H as (g3 & t8 & -> & [Hi1 Hi2] & H). injection H as <- <-.
  exists (scheme ++ sep ++ host ++ domain ++ path ++ marker ++ g3).
  split; [now rewrite <- !app_assoc|].
  exists scheme, sep, host, domain, path, marker. now repeat split.
Qed.

Lemma urlPattern_complete (u id post : str) :
  isStoreUrl u id -> urlPattern (u ++ post) <> None.
Proof.
  intros (scheme & sep & host & domain & path & marker & -> & Hscheme &
          Hsep & Hhost & Hdomain & Hp1 & Hp2 & Hmarker & Hi1 & Hi2).
  rewrite <- !app_assoc. unfold urlPattern.
  set (k2 := litsi "://" _).
  assert (H2 : k2 (sep ++ host ++ domain ++ path ++ marker ++ id ++ post)
               <> None).
  { unfold k2. rewrite (litsi_app _ _ _ _ Hsep).
    set (k4 := litsi ".apple.com/" _).
    assert (H4 : k4 (domain ++ path ++ marker ++ id ++ post) <> None).
    { unfold k4. rewrite (litsi_app _ _ _ _ Hdomain).
      apply plus_complete; try assumption.
      rewrite (litsi_app _ _ _ _ Hmarker).
      unfold capture. apply plus_complete; try assumption. discriminate. }
    destruct Hhost as [Hh|[Hh|Hh]].
    - apply alt_complete. left. now rewrite (litsi_app _ _ _ _ Hh).
    - apply alt_complete. right. apply alt_complete. left.
      now rewrite (litsi_app _ _ _ _ Hh).
    - apply alt_complete. right. apply alt_complete. right.
      now rewrite (litsi_app _ _ _ _ Hh). }
  destruct Hscheme as [Hs|Hs].
  - rewrite (litsi_app _ _ _ _ Hs). apply alt_complete. now right.
  - apply (equalsIgnoreCase_app_inv "http" "s") in Hs
      as (a1 & a2 & -> & Ha1 & Ha2).
    rewrite <- app_assoc, (litsi_app _ _ _ _ Ha1).
    apply alt_complete. left. now rewrite (litsi_app _ _ _ _ Ha2).
Qed.

Lemma search_urlPattern_id (s url id : str) :
  search urlPattern s = Some (url, id) ->
  id <> [] /\ forallb isDigit id = true.
Proof.
  intros H. apply search_inv in H as (pre & t & rest & _ & H).
  apply urlPattern_inv in H as (u & _ & Hu).
  destruct Hu as (? & ? & ? & ? & ? & ? & _ & _ & _ & _ & _ & _ & _ & _ & H).
  exact H.
Qed.

(** [search urlPattern] succeeds exactly on the strings that contain a store
    URL. *)
Lemma search_urlPattern_iff (s : str) :
  search urlPattern s <> None <->
  exists pre u id post, s = pre ++ u ++ post /\ isStoreUrl u id.
Proof.
  split.
  - destruct (search urlPattern s) as [[txt id]|] eqn:E; [intros _|congruence].
    apply search_inv in E as (pre & t & rest & -> & H).
    apply urlPattern_inv in H as (u & -> & Hu).
    now exists pre, u, id, rest.
  - intros (pre & u & id & post & -> & Hu).
    apply search_complete. now apply (urlPattern_complete u id).
Qed.

End StoreUrlFacts.

(** ** The search term *)

(** C6, as amended.  The search term has no white space at either end
    whenever something was recognized in the raw term (the format token, a
    store URL or a prefix); when nothing was, the raw term is returned as it
    came, so the search term is trimmed if the raw term was. *)
Theorem C6_searchTerm_trimmed (rawTerm : str) :
  (isTrimmed (searchTerm (parseSearchTerm rawTerm)) = true \/
   parseSearchTerm rawTerm = plainQuery rawTerm) /\
  (isTrimmed rawTerm = true ->
   isTrimmed (searchTerm (parseSearchTerm rawTerm)) = true).
Proof.
  assert (H : isTrimmed (searchTerm (parseSearchTerm rawTerm)) = true \/
              parseSearchTerm rawTerm = plainQuery rawTerm).
  { unfold parseSearchTerm. cbv zeta.
    destruct (truthy rawTerm && includes ".png" (toLowerCase rawTerm)) eqn:E1.
    - left.
      set (r1 := trim (replaceAll pngToken rawTerm)).
      assert (Hr1 : isTrimmed r1 = true) by apply trim_isTrimmed.
      set (s0 := if truthy r1 && includes ".png" (toLowerCase r1)
                 then trim (replaceAll pngToken r1) else r1).
      assert (Hs0 : isTrimmed s0 = true).
      { unfold s0. destruct (truthy r1 && includes ".png" (toLowerCase r1));
          [apply trim_isTrimmed|exact Hr1]. }
      clearbody s0.
      destruct (search urlPattern r1) as [[url id]|] eqn:Es; cbv beta iota.
      + cbn [searchTerm]. apply digits_isTrimmed.
        apply (search_urlPattern_id _ _ _ Es).
      + destruct (truthy s0); [|exact Hs0].
        destruct (findPrefix countryMap (toLowerCase s0)) as [[? ?]|];
          cbv beta iota;
          match goal with
          | |- context [findPrefix entityMap ?s] =>
              destruct (findPrefix entityMap s) as [[? ?]|]; cbv beta iota
          end;
          match goal with
          | |- context [findPrefix attributeEntityMap ?s] =>
              destruct (findPrefix attributeEntityMap s) as [[? [? ?]]|];
              cbv beta iota
          end;
          cbn [searchTerm]; first [apply trim_isTrimmed|exact Hs0].
    - cbv beta iota. rewrite E1.
      destruct (search urlPattern rawTerm) as [[url id]|] eqn:Es; cbv beta iota.
      + left. cbn [searchTerm]. apply digits_isTrimmed.
        apply (search_urlPattern_id _ _ _ Es).
      + destruct (truthy rawTerm); [|right; reflexivity].
        destruct (findPrefix countryMap (toLowerCase rawTerm)) as [[? ?]|];
          cbv beta iota;
          match goal with
          | |- context [findPrefix entityMap ?s] =>
              destruct (findPrefix entityMap s) as [[? ?]|]; cbv beta iota
          end;
          match goal with
          | |- context [findPrefix attributeEntityMap ?s] =>
              destruct (findPrefix attributeEntityMap s) as [[? [? ?]]|];
              cbv beta iota
          end;
          first [left; cbn [searchTerm]; apply trim_isTrimmed
                |right; reflexivity]. }
  split; [exact H|].
  intros Ht. destruct H as [H|H]; [exact H|]. now rewrite H.
Qed.

(** C6 as stated fails in the degenerate case: with no format token and no
    prefix the raw term is returned untrimmed. *)
Lemma C6_counterexample :
  searchTerm (parseSearchTerm "  x ") = "  x " /\
  isTrimmed (searchTerm (parseSearchTerm "  x ")) = false.
Proof. vm_compute. split; reflexivity. Qed.

(** C6 at a term that is trimmed to begin with. *)
Lemma C6_witness :
  isTrimmed (searchTerm (parseSearchTerm "Taylor Swift")) = true.
Proof.
  apply (proj2 (C6_searchTerm_trimmed "Taylor Swift")). reflexivity.
Defined.

(** ** Plain terms *)

Section PlainTermFacts.

Lemma findPrefix_none {V} (table : list (string * V)) (s : str) :
  (forall p, In p (map fst table) -> startsWith (lit p) s = false) ->
  findPrefix table s = None.
Proof.
  induction table as [|[p v] table IH]; intros H; [reflexivity|].
  simpl. rewrite (H p) by now left.
  apply IH. intros q Hq. apply H. now right.
Qed.

Lemma startsWithPrefix_none (term : str) (p : string) :
  startsWithPrefix term = false -> In p allPrefixes ->
  startsWith (lit p) (toLowerCase term) = false.
Proof.
  unfold startsWithPrefix. intros H Hp.
  destruct (startsWith p (toLowerCase term)) eqn:E; [|reflexivity].
  assert (Hex : existsb (fun p : string => startsWith p (toLowerCase term))
                  allPrefixes = true)
    by (apply existsb_exists; now exists p).
  congruence.
Qed.

(** A term with no format token, no store URL and no prefix is returned as
    it is, with every default. *)
Lemma parse_plain (term : str) :
  includes ".png" (toLowerCase term) = false ->
  search urlPattern term = None ->
  startsWithPrefix term = false ->
  parseSearchTerm term = plainQuery term.
Proof.
  intros Hpng Hurl Hpre.
  unfold parseSearchTerm. cbv zeta.
  rewrite Hpng, andb_false_r. cbv beta iota.
  rewrite Hpng, andb_false_r, Hurl. cbv beta iota.
  destruct (truthy term); [|reflexivity].
  rewrite (findPrefix_none countryMap). 2:{
    intros p Hp. apply startsWithPrefix_none; [exact Hpre|].
    unfold allPrefixes. apply in_or_app. now left. }
  cbv beta iota.
  rewrite (findPrefix_none entityMap). 2:{
    intros p Hp. apply startsWithPrefix_none; [exact Hpre|].
    unfold allPrefixes. apply in_or_app. right. apply in_or_app. now left. }
  cbv beta iota.
  rewrite (findPrefix_none attributeEntityMap). 2:{
    intros p Hp. apply startsWithPrefix_none; [exact Hpre|].
    unfold allPrefixes. apply in_or_app. right. apply in_or_app. now right. }
  reflexivity.
Qed.

Lemma digit_lower (c : ascii) : isDigit c = true -> toLowerChar c = c.
Proof.
  destruct c as [[] [] [] [] [] [] [] []]; vm_compute; congruence.
Qed.

Lemma digit_not_h (c : ascii) : isDigit c = true -> eqi "h" c = false.
Proof.
  destruct c as [[] [] [] [] [] [] [] []]; vm_compute; congruence.
Qed.

Lemma digit_not_dot (c : ascii) : isDigit c = true -> Ascii.eqb "." c = false.
Proof.
  destruct c as [[] [] [] [] [] [] [] []]; vm_compute; congruence.
Qed.

Lemma digits_lower (s : str) :
  forallb isDigit s = true -> toLowerCase s = s.
Proof.
  induction s as [|c s IH]; simpl; intros H; [reflexivity|].
  apply andb_true_iff in H as [Hc H].
  now rewrite (digit_lower c Hc), (IH H).
Qed.

Lemma digits_no_png (s : str) :
  forallb isDigit s = true -> includes ".png" s = false.
Proof.
  induction s as [|c s IH]; intros H; [reflexivity|].
  simpl in H. apply andb_true_iff in H as [Hc H].
  change (includes ".png" (c :: s))
    with (Ascii.eqb "." c && startsWith "png" s || includes ".png" s).
  now rewrite (digit_not_dot c Hc), (IH H).
Qed.

Lemma digits_no_url (s : str) :
  forallb isDigit s = true -> search urlPattern s = None.
Proof.
  intros H. apply search_none. intros pre t ->.
  rewrite forallb_app in H. apply andb_true_iff in H as [_ H].
  destruct t as [|c t]; [reflexivity|].
  simpl in H. apply andb_true_iff in H as [Hc _].
  unfold urlPattern.
  change (lit "http") with ("h"%char :: lit "ttp").
  cbn [litsi chr]. now rewrite (digit_not_h c Hc).
Qed.

Lemma prefixes_start_with_no_digit :
  forallb (fun p : string =>
             match lit p with
             | a :: _ => negb (isDigit a)
             | [] => false
             end) allPrefixes = true.
Proof. vm_compute. reflexivity. Qed.

Lemma digits_no_prefix (s : str) :
  forallb isDigit s = true -> startsWithPrefix s = false.
Proof.
  intros H. unfold startsWithPrefix. rewrite (digits_lower s H).
  destruct (existsb _ allPrefixes) eqn:E; [|reflexivity].
  apply existsb_exists in E as (p & Hp & Hs).
  pose proof prefixes_start_with_no_digit as Hall.
  rewrite forallb_forall in Hall. specialize (Hall p Hp).
  destruct (lit p) as [|a p']; [discriminate|].
  destruct s as [|c s]; [discriminate|].
  simpl in Hs, H. apply andb_true_iff in Hs as [Hac _].
  apply Ascii.eqb_eq in Hac. subst c.
  apply andb_true_iff in H as [Ha _]. now rewrite Ha in Hall.
Qed.

End PlainTermFacts.

(** ** The prefix tables *)

Section PrefixGrammarFacts.

Lemma in_allChars (x : ascii) : In x allChars.
Proof.
  unfold allChars. rewrite <- (ascii_nat_embedding x).
  apply in_map, in_seq. pose proof (nat_ascii_bounded x). lia.
Qed.

Lemma lower_eqi_table :
  forallb (fun c =>
             negb (isLowerPlain c) ||
             forallb (fun x => Bool.eqb (Ascii.eqb c (toLowerChar x)) (eqi c x))
               allChars) allChars = true.
Proof. vm_compute. reflexivity. Qed.

Lemma lower_eqi_plain (c x : ascii) :
  isLowerPlain c = true -> Ascii.eqb c (toLowerChar x) = eqi c x.
Proof.
  intros Hc. pose proof lower_eqi_table as H.
  rewrite forallb_forall in H. specialize (H c (in_allChars c)).
  rewrite Hc in H. cbn [negb orb] in H.
  rewrite forallb_forall in H. specialize (H x (in_allChars x)).
  now apply Bool.eqb_prop in H.
Qed.

(** A prefix typed in any letter case is the key it lower-cases to, as far as
    the [i] flag is concerned. *)
Lemma lower_sameText (p typed : str) :
  forallb isLowerPlain p = true -> toLowerCase typed = p -> sameText p typed.
Proof.
  unfold sameText. revert typed.
  induction p as [|c p IH]; intros [|x typed] Hp H; try discriminate;
    [reflexivity|].
  simpl in Hp. apply andb_true_iff in Hp as [Hc Hp].
  simpl in H. injection H as Hx H.
  simpl. rewrite <- (lower_eqi_plain c x Hc), Hx, Ascii.eqb_refl.
  now apply IH.
Qed.

Lemma keys_lower_plain :
  forallb (fun k : string => forallb isLowerPlain (lit k)) allPrefixes = true.
Proof. vm_compute. reflexivity. Qed.

Lemma clash_startsWith (p q rest : str) :
  clash p q = true ->
  startsWith p (q ++ rest) = false /\ startsWith q (p ++ rest) = false.
Proof.
  revert q; induction p as [|a p IH]; intros [|b q] H; try discriminate.
  simpl in H. simpl. rewrite (Ascii.eqb_sym b a).
  destruct (Ascii.eqb a b); [|now split].
  simpl in H. apply (IH q H).
Qed.

Lemma findPrefix_hit {V} (table : list (string * V)) (p : string) (v : V)
    (rest : str) :
  pairwiseClash (map fst table) = true -> In (p, v) table ->
  findPrefix table (lit p ++ rest) = Some (p, v).
Proof.
  induction table as [|[q w] table IH]; intros Hc Hin; [destruct Hin|].
  simpl in Hc. apply andb_true_iff in Hc as [Hq Hc].
  destruct Hin as [E|Hin].
  - injection E as -> ->. simpl. now rewrite startsWith_app.
  - simpl. rewrite forallb_forall in Hq.
    assert (Hqp : clash q p = true).
    { apply (Hq p). change p with (fst (p, v)). now apply in_map. }
    destruct (clash_startsWith q p rest Hqp) as [-> _]. now apply IH.
Qed.

Lemma findPrefix_miss {V} (table : list (string * V)) (q rest : str) :
  forallb (fun k : string => clash k q) (map fst table) = true ->
  findPrefix table (q ++ rest) = None.
Proof.
  induction table as [|[k w] table IH]; intros H; [reflexivity|].
  simpl in H. apply andb_true_iff in H as [Hk H].
  simpl. destruct (clash_startsWith k q rest Hk) as [-> _]. now apply IH.
Qed.

Lemma trimStart_spaces (sp rest : str) :
  forallb isWhiteSpace sp = true -> trimStart (sp ++ rest) = trimStart rest.
Proof.
  induction sp as [|c sp IH]; intros H; [reflexivity|].
  simpl in H. apply andb_true_iff in H as [Hc H].
  simpl. rewrite Hc. now apply IH.
Qed.

Lemma trim_spaces (sp rest : str) :
  forallb isWhiteSpace sp = true -> isTrimmed rest = true ->
  trim (sp ++ rest) = rest.
Proof.
  intros Hsp Hrest. unfold trim. rewrite (trimStart_spaces sp rest Hsp).
  now apply trim_fixed.
Qed.

Lemma includes_suffix (p a b : str) :
  includes p (a ++ b) = false -> includes p b = false.
Proof.
  intros H. destruct (includes p b) eqn:E; [|reflexivity].
  apply includes_inv in E as (x & y & ->).
  rewrite app_assoc, includes_app in H. discriminate.
Qed.

Lemma search_suffix {R} (m : @cont (R * str)) (a b : str) :
  search m (a ++ b) = None -> search m b = None.
Proof.
  intros H. destruct (search m b) as [[txt r]|] eqn:E; [|reflexivity].
  apply search_inv in E as (pre & t & rest & -> & Hm).
  exfalso. rewrite app_assoc in H.
  apply (search_complete m (a ++ pre) t); [congruence|exact H].
Qed.

(** Without a format token and a store URL, [parseSearchTerm] is the three
    prefix stages. *)
Lemma parse_stages (term : str) :
  includes ".png" (toLowerCase term) = false ->
  search urlPattern term = None ->
  parseSearchTerm term =
  if truthy term then
    match findPrefix countryMap (toLowerCase term) with
    | Some (countryPrefix, code) =>
        prefixStages false (lit code)
          (trim (replaceAtStart (prefixPattern countryPrefix) term))
    | None => prefixStages false "us" term
    end
  else plainQuery term.
Proof.
  intros Hpng Hurl. unfold parseSearchTerm. cbv zeta.
  rewrite Hpng, andb_false_r. cbv beta iota.
  rewrite Hpng, andb_false_r, Hurl. cbv beta iota.
  destruct (truthy term); [|reflexivity].
  destruct (findPrefix countryMap (toLowerCase term)) as [[p code]|];
    reflexivity.
Qed.

Lemma prefixStages_nil (usePng : bool) (countryCode : str) :
  prefixStages usePng countryCode []
  = {| searchTerm := [];
       entity := album;
       countryCode := countryCode;
       usePng := usePng;
       attribute := noAttribute;
       lookupMode := false |}.
Proof. reflexivity. Qed.

Lemma prefixStages_country (usePng : bool) (code countryCode term : str) :
  withCountry code (prefixStages usePng countryCode term)
  = prefixStages usePng code term.
Proof.
  unfold prefixStages. cbv zeta.
  destruct (findPrefix entityMap (toLowerCase term)) as [[? ?]|];
    cbv beta iota;
    match goal with
    | |- context [findPrefix attributeEntityMap ?s] =>
        destruct (findPrefix attributeEntityMap s) as [[? [? ?]]|]
    end; reflexivity.
Qed.

(** The head of a term that starts with a typed prefix. *)
Lemma typed_lower (p : string) (typed rest : str) :
  toLowerCase typed = lit p ->
  toLowerCase (typed ++ rest) = lit p ++ toLowerCase rest.
Proof. intros H. unfold toLowerCase in *. now rewrite map_app, H. Qed.

Lemma typed_strip (p : string) (typed sp rest : str) :
  In p allPrefixes -> toLowerCase typed = lit p ->
  forallb isWhiteSpace sp = true -> isTrimmed rest = true ->
  trim (replaceAtStart (prefixPattern p) (typed ++ sp ++ rest)) = rest.
Proof.
  intros Hp Ht Hsp Hrest.
  assert (Hs : sameText p typed).
  { apply lower_sameText; [|exact Ht].
    pose proof keys_lower_plain as H. rewrite forallb_forall in H.
    now apply H. }
  unfold replaceAtStart, prefixPattern.
  rewrite (litsi_app _ _ _ _ Hs). unfold ret. cbv beta iota.
  change (lit "") with (@nil ascii). cbn [app]. now apply trim_spaces.
Qed.

Lemma keys_nonempty :
  forallb (fun k : string => truthy (lit k)) allPrefixes = true.
Proof. vm_compute. reflexivity. Qed.

Lemma typed_truthy (p : string) (typed rest : str) :
  In p allPrefixes -> toLowerCase typed = lit p -> truthy (typed ++ rest) = true.
Proof.
  intros Hp Ht. destruct typed; [|reflexivity].
  pose proof keys_nonempty as H. rewrite forallb_forall in H.
  specialize (H p Hp). simpl in Ht. rewrite <- Ht in H. discriminate.
Qed.

Lemma country_keys_clash : pairwiseClash (map fst countryMap) = true.
Proof. vm_compute. reflexivity. Qed.

Lemma entity_keys_clash : pairwiseClash (map fst entityMap) = true.
Proof. vm_compute. reflexivity. Qed.

Lemma attribute_keys_clash : pairwiseClash (map fst attributeEntityMap) = true.
Proof. vm_compute. reflexivity. Qed.

(** No key of one table is a prefix of a key of another, or the other way
    round. *)
Lemma country_keys_apart :
  forallb (fun q : string =>
             forallb (fun k : string => clash k q) (map fst countryMap))
    (map fst entityMap ++ map fst attributeEntityMap) = true.
Proof. vm_compute. reflexivity. Qed.

Lemma entity_keys_apart :
  forallb (fun q : string =>
             forallb (fun k : string => clash k q) (map fst entityMap))
    (map fst attributeEntityMap) = true.
Proof. vm_compute. reflexivity. Qed.

Lemma in_countryMap_all (p code : string) :
  In (p, code) countryMap -> In p allPrefixes.
Proof.
  intros H. unfold allPrefixes. apply in_or_app. left.
  change p with (fst (p, code)). now apply in_map.
Qed.

Lemma in_entityMap_all (p : string) (e : Entity) :
  In (p, e) entityMap -> In p allPrefixes.
Proof.
  intros H. unfold allPrefixes. apply in_or_app. right. apply in_or_app. left.
  change p with (fst (p, e)). now apply in_map.
Qed.

Lemma in_attributeMap_all (p : string) (v : Entity * Attribute) :
  In (p, v) attributeEntityMap -> In p allPrefixes.
Proof.
  intros H. unfold allPrefixes. apply in_or_app. right. apply in_or_app. right.
  change p with (fst (p, v)). now apply in_map.
Qed.

Lemma country_miss_entity (p : string) (e : Entity) (rest : str) :
  In (p, e) entityMap -> findPrefix countryMap (lit p ++ rest) = None.
Proof.
  intros H. apply findPrefix_miss.
  pose proof country_keys_apart as Hc. rewrite forallb_forall in Hc.
  apply (Hc p). apply in_or_app. left.
  change p with (fst (p, e)). now apply in_map.
Qed.

Lemma country_miss_attribute (p : string) (v : Entity * Attribute)
    (rest : str) :
  In (p, v) attributeEntityMap -> findPrefix countryMap (lit p ++ rest) = None.
Proof.
  intros H. apply findPrefix_miss.
  pose proof country_keys_apart as Hc. rewrite forallb_forall in Hc.
  apply (Hc p). apply in_or_app. right.
  change p with (fst (p, v)). now apply in_map.
Qed.

Lemma entity_miss_attribute (p : string) (v : Entity * Attribute)
    (rest : str) :
  In (p, v) attributeEntityMap -> findPrefix entityMap (lit p ++ rest) = None.
Proof.
  intros H. apply findPrefix_miss.
  pose proof entity_keys_apart as Hc. rewrite forallb_forall in Hc.
  apply (Hc p). change p with (fst (p, v)). now apply in_map.
Qed.

Lemma lower_app3 (a b c : str) :
  toLowerCase (a ++ b ++ c) = toLowerCase (a ++ b) ++ toLowerCase c.
Proof. unfold toLowerCase. now rewrite app_assoc, map_app. Qed.

(** What is left of a decorated term has no format token and no store URL
    either. *)
Lemma rest_clean (typed sp rest : str) :
  includes ".png" (toLowerCase (typed ++ sp ++ rest)) = false ->
  search urlPattern (typed ++ sp ++ rest) = None ->
  includes ".png" (toLowerCase rest) = false /\
  search urlPattern rest = None.
Proof.
  intros Hpng Hurl. split.
  - rewrite lower_app3 in Hpng. now apply includes_suffix in Hpng.
  - rewrite app_assoc in Hurl. now apply search_suffix in Hurl.
Qed.

End PrefixGrammarFacts.

(** ** Trimming *)

Section TrimFacts.

Lemma trimStart_app (u v : str) :
  trimStart (u ++ v)
  = if forallb isWhiteSpace u then trimStart v else trimStart u ++ v.
Proof.
  induction u as [|c u IH]; [reflexivity|].
  cbn [app trimStart forallb]. destruct (isWhiteSpace c); [exact IH|reflexivity].
Qed.

Lemma trimStart_all (u : str) :
  forallb isWhiteSpace u = true -> trimStart u = [].
Proof.
  induction u as [|c u IH]; [reflexivity|]. cbn [forallb trimStart].
  intros H. apply andb_true_iff in H as [-> H]. now apply IH.
Qed.

Lemma trimEnd_cons (c : ascii) (z : str) :
  trimEnd (c :: z)
  = if isWhiteSpace c && forallb isWhiteSpace z then [] else c :: trimEnd z.
Proof.
  unfold trimEnd. cbn [rev]. rewrite trimStart_app.
  assert (Hrev : forallb isWhiteSpace (rev z) = forallb isWhiteSpace z).
  { induction z as [|d z IH]; [reflexivity|]. cbn [rev forallb].
    rewrite forallb_app, IH. cbn [forallb]. rewrite andb_true_r.
    apply andb_comm. }
  rewrite Hrev. destruct (forallb isWhiteSpace z) eqn:Ez.
  - rewrite (trimStart_all _ Hrev).
    cbn [trimStart]. destruct (isWhiteSpace c); reflexivity.
  - rewrite andb_false_r, rev_app_distr. reflexivity.
Qed.

Lemma trimEnd_all (z : str) :
  forallb isWhiteSpace z = true -> trimEnd z = [].
Proof.
  induction z as [|c z IH]; [reflexivity|]. cbn [forallb].
  intros H. apply andb_true_iff in H as [Hc H].
  now rewrite trimEnd_cons, Hc, H.
Qed.

Lemma trimStart_trimEnd (z : str) :
  trimStart (trimEnd z) = trimEnd (trimStart z).
Proof.
  induction z as [|c z IH]; [reflexivity|].
  rewrite trimEnd_cons. cbn [trimStart].
  destruct (isWhiteSpace c) eqn:Hc; cbn [andb].
  - destruct (forallb isWhiteSpace z) eqn:Hz.
    + now rewrite (trimStart_all z Hz).
    + cbn [trimStart]. now rewrite Hc.
  - cbn [trimStart]. rewrite Hc, trimEnd_cons, Hc. reflexivity.
Qed.

Lemma trimEnd_trimEnd (z : str) : trimEnd (trimEnd z) = trimEnd z.
Proof.
  unfold trimEnd. rewrite rev_involutive.
  now rewrite (trimStart_fixed _ (trimStart_head (rev z))).
Qed.

Lemma trim_trimEnd (z : str) : trim (trimEnd z) = trim z.
Proof.
  unfold trim. now rewrite trimStart_trimEnd, trimEnd_trimEnd.
Qed.

Lemma trim_after_spaces (sp w : str) :
  forallb isWhiteSpace sp = true -> trim (sp ++ w) = trim w.
Proof.
  intros H. unfold trim. now rewrite trimStart_app, H.
Qed.

(** Text without white space keeps what follows it from being trimmed away
    with it. *)
Lemma trim_solid_app (x y : str) :
  x <> [] -> forallb notSpace x = true ->
  trim (x ++ y) = x ++ trimEnd y.
Proof.
  intros Hn Hx. unfold trim.
  assert (Hhead : headIsSpace (x ++ y) = false).
  { destruct x as [|c x]; [congruence|]. cbn [forallb] in Hx.
    apply andb_true_iff in Hx as [Hc _]. cbn [app headIsSpace].
    unfold notSpace in Hc. now apply negb_true_iff in Hc. }
  rewrite (trimStart_fixed _ Hhead). clear Hhead.
  induction x as [|c x IH]; [congruence|].
  cbn [forallb] in Hx. apply andb_true_iff in Hx as [Hc Hx].
  unfold notSpace in Hc. apply negb_true_iff in Hc.
  cbn [app]. rewrite trimEnd_cons, Hc. cbn [andb]. f_equal.
  destruct x as [|d x]; [reflexivity|]. apply IH; [discriminate|exact Hx].
Qed.

Lemma trim_substring (s : str) : exists x y, s = x ++ trim s ++ y.
Proof.
  unfold trim, trimEnd.
  destruct (trimStart_suffix s) as [x Hx].
  destruct (trimStart_suffix (rev (trimStart s))) as [y Hy].
  exists x, (rev y). rewrite Hx at 1. f_equal.
  rewrite <- rev_app_distr, <- Hy. now rewrite rev_involutive.
Qed.

End TrimFacts.

(** ** Typed prefixes *)

Section SlotFacts.

Lemma lower_space_table :
  forallb (fun x => Bool.eqb (isWhiteSpace (toLowerChar x)) (isWhiteSpace x))
    allChars = true.
Proof. vm_compute. reflexivity. Qed.

Lemma keys_solid :
  forallb (fun k : string => forallb notSpace (lit k)) allPrefixes = true.
Proof. vm_compute. reflexivity. Qed.

(** A prefix typed in any letter case lower-cases to the key. *)
Lemma sameText_lower (p typed : str) :
  forallb isLowerPlain p = true -> sameText p typed -> toLowerCase typed = p.
Proof.
  unfold sameText. revert typed.
  induction p as [|c p IH]; intros [|x typed] Hp H; try discriminate;
    [reflexivity|].
  cbn [forallb] in Hp. apply andb_true_iff in Hp as [Hc Hp].
  cbn [equalsIgnoreCase] in H. apply andb_true_iff in H as [Hx H].
  cbn [toLowerCase map]. rewrite <- (lower_eqi_plain c x Hc) in Hx.
  apply Ascii.eqb_eq in Hx. rewrite <- Hx. f_equal. now apply IH.
Qed.

Lemma key_lower (p : string) (typed : str) :
  In p allPrefixes -> sameText p typed -> toLowerCase typed = lit p.
Proof.
  intros Hp Hs. apply sameText_lower; [|exact Hs].
  pose proof keys_lower_plain as H. rewrite forallb_forall in H. now apply H.
Qed.

Lemma typed_solid (p : string) (typed : str) :
  In p allPrefixes -> sameText p typed ->
  typed <> [] /\ forallb notSpace typed = true.
Proof.
  intros Hp Hs. pose proof (key_lower p typed Hp Hs) as Hl.
  split.
  - intros ->. pose proof keys_nonempty as H. rewrite forallb_forall in H.
    specialize (H p Hp). cbn in Hl. rewrite <- Hl in H. discriminate H.
  - pose proof keys_solid as H. rewrite forallb_forall in H.
    specialize (H p Hp). rewrite <- Hl in H. clear Hl Hs.
    induction typed as [|x typed IH]; [reflexivity|].
    cbn [toLowerCase map forallb] in H. apply andb_true_iff in H as [Hx H].
    cbn [forallb]. rewrite (IH H), andb_true_r.
    pose proof lower_space_table as T. rewrite forallb_forall in T.
    specialize (T x (in_allChars x)). apply Bool.eqb_prop in T.
    unfold notSpace in *. now rewrite <- T.
Qed.

(** The term a stage finds after earlier stages: the rest of the query,
    trimmed once a prefix has been consumed. *)
Lemma typed_head (consumed : bool) (p : string) (typed w : str) :
  In p allPrefixes -> sameText p typed ->
  exists y,
    (if consumed then trim (typed ++ w) else typed ++ w) = typed ++ y /\
    trim y = trim w.
Proof.
  intros Hp Hs. destruct (typed_solid p typed Hp Hs) as [Hn Hsolid].
  destruct consumed.
  - exists (trimEnd w). split; [now apply trim_solid_app|apply trim_trimEnd].
  - now exists w.
Qed.

Lemma stageTerm_hit {V} (table : list (string * V)) (consumed : bool)
    (x w : str) :
  pairwiseClash (map fst table) = true ->
  (forall p, In p (map fst table) -> In p allPrefixes) ->
  typedPrefix (map fst table) x ->
  stageTerm table (if consumed then trim (x ++ w) else x ++ w) = trim w.
Proof.
  intros Hclash Hall (p & typed & sp & Hp & Hs & Hsp & ->).
  rewrite <- app_assoc.
  destruct (typed_head consumed p typed (sp ++ w) (Hall p Hp) Hs)
    as (y & -> & Hy).
  unfold stageTerm. unfold toLowerCase. rewrite map_app.
  fold (toLowerCase typed). rewrite (key_lower p typed (Hall p Hp) Hs).
  apply in_map_iff in Hp as ([q v] & Hq & Hin). cbn [fst] in Hq. subst q.
  rewrite (findPrefix_hit table p v _ Hclash Hin).
  unfold replaceAtStart, prefixPattern. rewrite (litsi_app _ _ _ _ Hs).
  unfold ret. cbv beta iota. change (lit "") with (@nil ascii). cbn [app].
  rewrite Hy. now apply trim_after_spaces.
Qed.

Lemma stageTerm_miss {V} (table : list (string * V)) (term : str) :
  findPrefix table (toLowerCase term) = None -> stageTerm table term = term.
Proof. unfold stageTerm. now intros ->. Qed.

(** A term that starts with a typed prefix of another table. *)
Lemma typed_lower_head (consumed : bool) (x w : str)
    (keys : list string) :
  (forall q, In q keys -> In q allPrefixes) ->
  typedPrefix keys x ->
  exists (q : string) rest,
    In q keys /\
    toLowerCase (if consumed then trim (x ++ w) else x ++ w) = lit q ++ rest.
Proof.
  intros Hall (q & typed & sp & Hq & Hs & Hsp & ->).
  rewrite <- app_assoc.
  destruct (typed_head consumed q typed (sp ++ w) (Hall q Hq) Hs)
    as (y & -> & _).
  exists q, (toLowerCase y). split; [exact Hq|].
  unfold toLowerCase. rewrite map_app. fold (toLowerCase typed).
  now rewrite (key_lower q typed (Hall q Hq) Hs).
Qed.

Lemma plain_miss {V} (table : list (string * V)) (term : str) :
  (forall p, In p (map fst table) -> In p allPrefixes) ->
  startsWithPrefix term = false ->
  findPrefix table (toLowerCase term) = None.
Proof.
  intros Hall H. apply findPrefix_none. intros p Hp.
  apply startsWithPrefix_none; [exact H|now apply Hall].
Qed.

Lemma country_in_all (p : string) :
  In p (map fst countryMap) -> In p allPrefixes.
Proof. intros H. unfold allPrefixes. apply in_or_app. now left. Qed.

Lemma entity_in_all (p : string) :
  In p (map fst entityMap) -> In p allPrefixes.
Proof.
  intros H. unfold allPrefixes. apply in_or_app. right.
  apply in_or_app. now left.
Qed.

Lemma attribute_in_all (p : string) :
  In p (map fst attributeEntityMap) -> In p allPrefixes.
Proof.
  intros H. unfold allPrefixes. apply in_or_app. right.
  apply in_or_app. now right.
Qed.

Lemma truthy_app (a b : str) : truthy (a ++ b) = truthy a || truthy b.
Proof. destruct a; reflexivity. Qed.

Lemma typedPrefix_truthy (keys : list string) (x : str) :
  (forall q, In q keys -> In q allPrefixes) ->
  typedPrefix keys x -> truthy x = true.
Proof.
  intros Hall (q & typed & sp & Hq & Hs & _ & ->).
  destruct (typed_solid q typed (Hall q Hq) Hs) as [Hn _].
  destruct typed; [congruence|reflexivity].
Qed.

(** One stage of the parser at a slot of the query: a prefix that stands in
    the slot is consumed, and without one the term is left alone, provided
    no key of the table starts what follows. *)
Lemma slot_step {V} (table : list (string * V)) (consumed : bool)
    (x w : str) :
  pairwiseClash (map fst table) = true ->
  (forall p, In p (map fst table) -> In p allPrefixes) ->
  prefixSlot (map fst table) x ->
  (x = [] ->
   findPrefix table (toLowerCase (if consumed then trim w else w)) = None) ->
  stageTerm table (if consumed then trim (x ++ w) else x ++ w)
  = (if consumed || truthy x then trim w else w).
Proof.
  intros Hclash Hall [-> | Hx] Hmiss.
  - cbn [app truthy]. rewrite orb_false_r.
    apply stageTerm_miss. now apply Hmiss.
  - rewrite (typedPrefix_truthy _ x Hall Hx), orb_true_r.
    now apply stageTerm_hit.
Qed.

Lemma keys_apart_country (q : string) (rest : str) :
  In q (map fst entityMap) \/ In q (map fst attributeEntityMap) ->
  findPrefix countryMap (lit q ++ rest) = None.
Proof.
  intros H. apply findPrefix_miss.
  pose proof country_keys_apart as Hc. rewrite forallb_forall in Hc.
  apply (Hc q). apply in_or_app. exact H.
Qed.

Lemma keys_apart_entity (q : string) (rest : str) :
  In q (map fst attributeEntityMap) ->
  findPrefix entityMap (lit q ++ rest) = None.
Proof.
  intros H. apply findPrefix_miss.
  pose proof entity_keys_apart as Hc. rewrite forallb_forall in Hc.
  now apply (Hc q).
Qed.

End SlotFacts.

(** ** The term of a query that follows the prefix grammar *)

Section GrammarFacts.

(** The search term of a query without store URL: what the three prefix
    stages leave of the text from which the format token has been removed
    twice, once for the whole query and once more for the term. *)
Lemma parse_term_stages (rawTerm : str) :
  search urlPattern (rawTermAfterFormat rawTerm) = None ->
  searchTerm (parseSearchTerm rawTerm)
  = stageTerm attributeEntityMap
      (stageTerm entityMap
         (stageTerm countryMap
            (rawTermAfterFormat (rawTermAfterFormat rawTerm)))).
Proof.
  unfold parseSearchTerm. cbv zeta. fold (rawTermAfterFormat rawTerm).
  fold (rawTermAfterFormat (rawTermAfterFormat rawTerm)).
  generalize (rawTermAfterFormat (rawTermAfterFormat rawTerm)).
  intros r Hurl. rewrite Hurl. unfold stageTerm.
  destruct r as [|x r]; [reflexivity|]. cbn [truthy].
  destruct (findPrefix countryMap (toLowerCase (x :: r))) as [[p code]|];
    cbv beta iota;
    match goal with
    | |- context [findPrefix entityMap (toLowerCase ?s)] =>
        destruct (findPrefix entityMap (toLowerCase s)) as [[q v]|];
        cbv beta iota
    end;
    match goal with
    | |- context [findPrefix attributeEntityMap (toLowerCase ?s)] =>
        destruct (findPrefix attributeEntityMap (toLowerCase s))
          as [[q' [v1 v2]]|]
    end; reflexivity.
Qed.

Lemma miss_at_country (consumed : bool) (e a rest : str) :
  prefixSlot (map fst entityMap) e ->
  prefixSlot (map fst attributeEntityMap) a ->
  startsWithPrefix
    (if consumed || truthy e || truthy a then trim rest else rest) = false ->
  findPrefix countryMap
    (toLowerCase (if consumed then trim (e ++ a ++ rest) else e ++ a ++ rest))
  = None.
Proof.
  intros [-> | He] Ha Hbody.
  - cbn [app truthy] in *. rewrite orb_false_r in Hbody.
    destruct Ha as [-> | Ha].
    + cbn [app truthy] in *. rewrite orb_false_r in Hbody.
      now apply plain_miss; [apply country_in_all|].
    + destruct (typed_lower_head consumed a rest _ attribute_in_all Ha)
        as (q & y & Hq & ->).
      apply keys_apart_country. now right.
  - destruct (typed_lower_head consumed e (a ++ rest) _ entity_in_all He)
      as (q & y & Hq & ->).
    apply keys_apart_country. now left.
Qed.

Lemma miss_at_entity (consumed : bool) (a rest : str) :
  prefixSlot (map fst attributeEntityMap) a ->
  startsWithPrefix (if consumed || truthy a then trim rest else rest)
  = false ->
  findPrefix entityMap
    (toLowerCase (if consumed then trim (a ++ rest) else a ++ rest)) = None.
Proof.
  intros [-> | Ha] Hbody.
  - cbn [app truthy] in *. rewrite orb_false_r in Hbody.
    now apply plain_miss; [apply entity_in_all|].
  - destruct (typed_lower_head consumed a rest _ attribute_in_all Ha)
      as (q & y & Hq & ->).
    now apply keys_apart_entity.
Qed.

(** A query that follows the prefix grammar: what the three stages leave is
    the rest after the prefixes, trimmed when a prefix was consumed. *)
Lemma stages_of_grammar (c e a rest : str) :
  prefixSlot (map fst countryMap) c ->
  prefixSlot (map fst entityMap) e ->
  prefixSlot (map fst attributeEntityMap) a ->
  startsWithPrefix (if truthy (c ++ e ++ a) then trim rest else rest)
  = false ->
  stageTerm attributeEntityMap
    (stageTerm entityMap (stageTerm countryMap (c ++ e ++ a ++ rest)))
  = (if truthy (c ++ e ++ a) then trim rest else rest).
Proof.
  intros Hc He Ha Hbody. rewrite !truthy_app in *.
  pose proof (slot_step countryMap false c (e ++ a ++ rest)
                country_keys_clash country_in_all Hc) as S1.
  cbn [orb] in S1. rewrite S1; clear S1.
  2:{ intros ->. cbn [truthy orb] in Hbody.
      now apply (miss_at_country false). }
  pose proof (slot_step entityMap (truthy c) e (a ++ rest)
                entity_keys_clash entity_in_all He) as S2.
  rewrite S2; clear S2.
  2:{ intros ->. cbn [truthy orb] in Hbody. now apply miss_at_entity. }
  pose proof (slot_step attributeEntityMap (truthy c || truthy e) a rest
                attribute_keys_clash attribute_in_all Ha) as S3.
  rewrite S3; clear S3.
  2:{ intros ->. cbn [truthy] in Hbody. rewrite !orb_false_r in Hbody.
      now apply plain_miss; [apply attribute_in_all|]. }
  now rewrite orb_assoc.
Qed.

Lemma includes_prefix_false (p a b : str) :
  includes p (a ++ b) = false -> includes p a = false.
Proof.
  intros H. destruct (includes p a) eqn:E; [|reflexivity].
  apply includes_inv in E as (x & y & ->).
  rewrite <- !app_assoc, includes_app in H. discriminate.
Qed.

(** A part of a text without format token and store URL has neither. *)
Lemma clean_part (x t y : str) :
  includes ".png" (toLowerCase (x ++ t ++ y)) = false ->
  search urlPattern (x ++ t ++ y) = None ->
  includes ".png" (toLowerCase t) = false /\ search urlPattern t = None.
Proof.
  intros Hpng Hurl. split.
  - unfold toLowerCase in *. rewrite !map_app in Hpng.
    apply includes_suffix in Hpng. now apply includes_prefix_false in Hpng.
  - destruct (search urlPattern t) as [[txt id]|] eqn:E; [exfalso|reflexivity].
    assert (Hex : search urlPattern t <> None) by congruence.
    apply search_urlPattern_iff in Hex as (pre & u & id' & post & -> & Hu).
    assert (Hall : search urlPattern (x ++ (pre ++ u ++ post) ++ y) <> None).
    { apply search_urlPattern_iff. exists (x ++ pre), u, id', (post ++ y).
      split; [now rewrite <- !app_assoc|exact Hu]. }
    congruence.
Qed.

Lemma lookup_term_plain (rawTerm : str) :
  lookupMode (parseSearchTerm rawTerm) = true ->
  parseSearchTerm (searchTerm (parseSearchTerm rawTerm))
  = plainQuery (searchTerm (parseSearchTerm rawTerm)).
Proof.
  rewrite parse_lookupMode.
  unfold parseSearchTerm, rawTermAfterFormat. cbv zeta.
  set (r1 := if truthy rawTerm && includes ".png" (toLowerCase rawTerm)
             then trim (replaceAll pngToken rawTerm) else rawTerm).
  destruct (search urlPattern r1) as [[url id]|] eqn:E; [intros _|discriminate].
  cbn [searchTerm].
  destruct (search_urlPattern_id _ _ _ E) as [_ Hd].
  fold (parseSearchTerm id). apply parse_plain.
  - rewrite (digits_lower _ Hd). now apply digits_no_png.
  - now apply digits_no_url.
  - now apply digits_no_prefix.
Qed.

End GrammarFacts.

(** C8, as amended.  Parsing the search term that [parseSearchTerm] returns
    gives that term back with every default (album, the US store, no
    attribute, JPG, no lookup) for every query with a store URL, whose term
    is the id; and for every other query whose text, once the format token
    has been removed from it twice (the parser removes it from the query and
    once more from the term), holds no format token and no store URL and
    follows the prefix grammar: at most one country prefix, at most one
    media-kind prefix and at most one attribute prefix, in this order, each
    typed in any letter case and followed by any white space, and then a rest
    that (trimmed, when a prefix stands before it) starts with no prefix.
    That rest is the search term. *)
Theorem C8_plain_term_reparsed (rawTerm : str) :
  let term := searchTerm (parseSearchTerm rawTerm) in
  let text := rawTermAfterFormat (rawTermAfterFormat rawTerm) in
  (lookupMode (parseSearchTerm rawTerm) = true ->
   parseSearchTerm term = plainQuery term) /\
  (forall c e a rest,
     lookupMode (parseSearchTerm rawTerm) = false ->
     includes ".png" (toLowerCase text) = false ->
     search urlPattern text = None ->
     text = c ++ e ++ a ++ rest ->
     prefixSlot (map fst countryMap) c ->
     prefixSlot (map fst entityMap) e ->
     prefixSlot (map fst attributeEntityMap) a ->
     startsWithPrefix (if truthy (c ++ e ++ a) then trim rest else rest)
     = false ->
     term = (if truthy (c ++ e ++ a) then trim rest else rest) /\
     parseSearchTerm term = plainQuery term).
Proof.
  cbv zeta. split; [apply lookup_term_plain|].
  intros c e a rest Hlook Hpng Hurl Hr Hc He Ha Hbody.
  assert (Hurl1 : search urlPattern (rawTermAfterFormat rawTerm) = None).
  { rewrite parse_lookupMode in Hlook.
    now destruct (search urlPattern (rawTermAfterFormat rawTerm)). }
  assert (Hterm : searchTerm (parseSearchTerm rawTerm)
                  = (if truthy (c ++ e ++ a) then trim rest else rest)).
  { rewrite (parse_term_stages rawTerm Hurl1), Hr.
    now apply stages_of_grammar. }
  split; [exact Hterm|]. rewrite Hterm.
  assert (Hpart : exists x y,
             rawTermAfterFormat (rawTermAfterFormat rawTerm)
             = x ++ (if truthy (c ++ e ++ a) then trim rest else rest) ++ y).
  { rewrite Hr. destruct (truthy (c ++ e ++ a)).
    - destruct (trim_substring rest) as (x & y & Hx).
      exists (c ++ e ++ a ++ x), y. rewrite Hx at 1.
      now rewrite <- !app_assoc.
    - exists (c ++ e ++ a), []. now rewrite app_nil_r, <- !app_assoc. }
  destruct Hpart as (x & y & Hxy). rewrite Hxy in Hpng, Hurl.
  destruct (clean_part _ _ _ Hpng Hurl) as [Hp Hu].
  now apply parse_plain.
Qed.

(** C8 at the query of C4: [Coldplay] is parsed to itself. *)
Lemma C8_witness :
  searchTerm (parseSearchTerm "uk: artist: Coldplay .png") = "Coldplay" /\
  parseSearchTerm (searchTerm (parseSearchTerm "uk: artist: Coldplay .png"))
  = plainQuery (searchTerm (parseSearchTerm "uk: artist: Coldplay .png")).
Proof.
  apply (proj2 (C8_plain_term_reparsed "uk: artist: Coldplay .png")
           "uk: " [] "artist: " "Coldplay").
  - reflexivity.
  - reflexivity.
  - reflexivity.
  - reflexivity.
  - right. exists "uk:"%string, (lit "uk:"), (lit " ").
    repeat split; vm_compute; tauto.
  - now left.
  - right. exists "artist:"%string, (lit "artist:"), (lit " ").
    repeat split; vm_compute; tauto.
  - reflexivity.
Defined.

(** C8 as stated fails: only one prefix of a kind is consumed, so a second
    one stays in the search term and is consumed when that term is parsed. *)
Lemma C8_counterexample :
  searchTerm (parseSearchTerm "uk: uk: x") = "uk: x" /\
  parseSearchTerm "uk: x"
  = {| searchTerm := "x";
       entity := album;
       countryCode := "gb";
       usePng := false;
       attribute := noAttribute;
       lookupMode := false |} /\
  parseSearchTerm (searchTerm (parseSearchTerm "uk: uk: x"))
  <> plainQuery (searchTerm (parseSearchTerm "uk: uk: x")).
Proof. vm_compute. repeat split. discriminate. Qed.

(** The two conditions on the twice-cleaned text are needed as well: a format
    token nested three deep leaves one in the search term, and one nested in
    the id marker of a store URL leaves the URL, which is then looked up. *)
Example searchTerm_keeps_nested_token :
  searchTerm (parseSearchTerm ".p.p.pngngng x") = ".png x" /\
  searchTerm (parseSearchTerm ".png x") = "x".
Proof. split; reflexivity. Qed.

Example searchTerm_keeps_store_url :
  searchTerm (parseSearchTerm "https://apps.apple.com/a/i.p.pngngd1")
  = "https://apps.apple.com/a/id1" /\
  lookupMode (parseSearchTerm "https://apps.apple.com/a/id1") = true.
Proof. split; reflexivity. Qed.

(** ** Direct lookup *)

(** C3, as amended.  [lookupMode] is set exactly when the raw term, once the
    format token has been removed from it, contains a store URL, and the
    search submitted from the form then looks the id up instead of searching
    for a term.  A term made of digits only is not looked up: it is searched
    for as it is, with every default. *)
Theorem C3_lookupMode_store_url (rawTerm : str) :
  (lookupMode (parseSearchTerm rawTerm) = true <->
   exists pre u id post,
     rawTermAfterFormat rawTerm = pre ++ u ++ post /\ isStoreUrl u id) /\
  submitSearch rawTerm
  = (let q := parseSearchTerm rawTerm in
     if lookupMode q then fetchResultsLookup (searchTerm q) (countryCode q)
     else fetchResults (searchTerm q) (entity q) (countryCode q)) /\
  (forallb isDigit rawTerm = true ->
   parseSearchTerm rawTerm = plainQuery rawTerm /\
   submitSearch rawTerm = fetchResults rawTerm album "us").
Proof.
  assert (Hdigits : forallb isDigit rawTerm = true ->
                    parseSearchTerm rawTerm = plainQuery rawTerm).
  { intros H. apply parse_plain.
    - rewrite (digits_lower _ H). now apply digits_no_png.
    - now apply digits_no_url.
    - now apply digits_no_prefix. }
  split; [|split].
  - rewrite parse_lookupMode, <- search_urlPattern_iff.
    destruct (search urlPattern (rawTermAfterFormat rawTerm));
      split; congruence.
  - reflexivity.
  - intros H. split; [now apply Hdigits|].
    unfold submitSearch. cbv zeta. now rewrite (Hdigits H).
Qed.

(** C3 as stated fails on a bare numeric ID. *)
Lemma C3_counterexample :
  forallb isDigit "284882215" = true /\
  lookupMode (parseSearchTerm "284882215") = false.
Proof. vm_compute. split; reflexivity. Qed.

(** C3 at a bare numeric ID. *)
Lemma C3_witness :
  parseSearchTerm "284882215" = plainQuery "284882215" /\
  submitSearch "284882215" = fetchResults "284882215" album "us".
Proof.
  apply (proj2 (proj2 (C3_lookupMode_store_url "284882215"))). reflexivity.
Defined.

(** A store URL is looked up by its id. *)
Example submitSearch_store_url :
  submitSearch "https://apps.apple.com/us/app/instagram/id389801252"
  = fetchResultsLookup "389801252" "us".
Proof. reflexivity. Qed.

(** ** Malformed thumbnails *)

Section BestEffortFacts.

Lemma ebook_ext (usePng : bool) (url : str) :
  endsWith (ext usePng) (artworkUrl1467x2200 ebook usePng url) = true.
Proof.
  unfold artworkUrl1467x2200. cbv zeta.
  set (u := replace ebookSizeBeforeJpg _).
  assert (H : endsWith ".jpg"
                (if negb (endsWith ".jpg" u)
                 then (if negb (endsInMarker u) then u ++ "-999" else u)
                        ++ ".jpg"
                 else u) = true).
  { destruct (endsWith ".jpg" u) eqn:E; cbn [negb];
      [exact E|apply endsWith_app]. }
  destruct usePng; cbn [ext]; [now apply jpgAtEnd_png|exact H].
Qed.

Lemma replace_literal_none (p new s : str) :
  includes p s = false -> replace (lits p (ret new)) s = s.
Proof.
  intros H. apply replace_none. intros pre t Hs.
  apply lits_fail. now apply (includes_none p s H pre).
Qed.

Lemma otherExtAtEnd_inv (t new rest : str) :
  otherExtAtEnd t = Some (new, rest) ->
  In t imageExts /\ t <> ".jpg" /\ new = [] /\ rest = [].
Proof.
  unfold otherExtAtEnd. intros H.
  apply lits_inv in H as (t1 & -> & H).
  repeat (apply alt_inv in H as [H|H]);
    apply lits_inv in H as (t2 & -> & H);
    apply eos_inv in H as [-> H]; injection H as <- <-;
    (split; [unfold imageExts; simpl; tauto|]);
    (split; [discriminate|]); now split.
Qed.

(** Two image extensions that end the same string are the same. *)
Lemma imageExt_unique (x x' e e' : str) :
  In e imageExts -> In e' imageExts -> x ++ e = x' ++ e' ->
  x = x' /\ e = e'.
Proof.
  intros He He' H.
  assert (E : e = e').
  { apply (f_equal (@rev ascii)) in H. rewrite !rev_app_distr in H.
    unfold imageExts in He, He'. simpl in He, He'.
    destruct He as [<-|[<-|[<-|[<-|[]]]]];
      destruct He' as [<-|[<-|[<-|[<-|[]]]]];
      try reflexivity; discriminate H. }
  subst e'. split; [|reflexivity]. now apply app_inv_tail in H.
Qed.

(** The movie branch gives back a malformed thumbnail, one without
    [100x100], up to its ending. *)
Lemma movieHdUrl_malformed (usePng : bool) (url : str) :
  includes "100x100" url = false ->
  exists base tail,
    url = base ++ tail /\ movieHdUrl usePng url = base ++ ext usePng.
Proof.
  intros Hno. unfold movieHdUrl. cbv zeta.
  rewrite (replace_literal_none _ _ _ Hno).
  set (u2 := replace bbBeforeExt url).
  assert (H3 : exists base tail,
             url = base ++ tail /\
             (if negb (endsWith ".jpg" u2) then
                if negb (endsWith ".jpg" (replace otherExtAtEnd u2))
                then replace otherExtAtEnd u2 ++ ".jpg"
                else replace otherExtAtEnd u2
              else u2) = base ++ ".jpg").
  { assert (Hstrip : forall s : str,
               (exists tail, url = s ++ tail) ->
               exists base tail,
                 url = base ++ tail /\
                 (if negb (endsWith ".jpg" s) then s ++ ".jpg" else s)
                 = base ++ ".jpg").
    { intros s [tail Hs]. destruct (endsWith ".jpg" s) eqn:E; cbn [negb].
      - apply endsWith_inv in E as [c ->].
        exists c, (".jpg" ++ tail). now rewrite Hs, <- app_assoc.
      - now exists s, tail. }
    destruct (replace_cases bbBeforeExt url)
      as [[_ Hu]|(pre & t & new & rest & Hurl & Hm & _ & Hu)];
      fold u2 in Hu; rewrite Hu.
    - destruct (endsWith ".jpg" url) eqn:E; cbn [negb].
      + apply endsWith_inv in E as [c ->]. now exists c, (lit ".jpg").
      + apply Hstrip.
        destruct (replace_cases otherExtAtEnd url)
          as [[_ ->]|(x & t & new & rest & Hx & Hm & _ & ->)].
        * exists []. now rewrite app_nil_r.
        * apply otherExtAtEnd_inv in Hm as (_ & _ & -> & ->).
          exists t. now rewrite app_nil_r.
    - apply bbBeforeExt_inv in Hm as (e & -> & He & -> & ->).
      rewrite app_nil_r.
      destruct (endsWith ".jpg" (pre ++ e)) eqn:E; cbn [negb].
      + apply endsWith_inv in E as [c Hc].
        destruct (imageExt_unique pre c e ".jpg" He) as [<- ->];
          [unfold imageExts; simpl; tauto|exact Hc|].
        exists pre, (lit "bb.jpg"). now split.
      + destruct (replace_cases otherExtAtEnd (pre ++ e))
          as [[Hn _]|(x & t & new & rest & Hx & Hm & _ & ->)].
        * exfalso. specialize (Hn pre e eq_refl).
          unfold imageExts in He. simpl in He.
          destruct He as [<-|[<-|[<-|[<-|[]]]]]; try discriminate Hn.
          now rewrite endsWith_app in E.
        * apply otherExtAtEnd_inv in Hm as (Ht & _ & -> & ->).
          destruct (imageExt_unique pre x e t He Ht Hx) as [<- <-].
          rewrite app_nil_r. apply Hstrip.
          exists ("bb" ++ e). exact Hurl. }
  destruct H3 as (base & tail & Hurl & ->).
  exists base, tail. split; [exact Hurl|].
  destruct usePng; cbn [ext]; [apply replace_suffix|reflexivity].
Qed.

End BestEffortFacts.

(** ** Malformed thumbnails, exactly *)

Section MalformedFacts.














End MalformedFacts.



(** * Further properties *)

(** ** The prefix grammar *)

Section TypedPrefixFacts.

Lemma typed_strip_any (p : string) (typed sp rest : str) :
  sameText p typed -> forallb isWhiteSpace sp = true ->
  trim (replaceAtStart (prefixPattern p) (typed ++ sp ++ rest)) = trim rest.
Proof.
  intros Hs Hsp. unfold replaceAtStart, prefixPattern.
  rewrite (litsi_app _ _ _ _ Hs). unfold ret. cbv beta iota.
  change (lit "") with (@nil ascii). cbn [app].
  now apply trim_after_spaces.
Qed.

End TypedPrefixFacts.

(** X1.  A country prefix of the table, typed in any letter case (as the [i]
    flag reads it) and followed by any white space, only changes the country:
    the rest of the query is parsed as it would be on its own.  The rest is
    taken trimmed, the query free of format token and store URL, and the rest
    not to start with a country prefix of its own (only one is consumed). *)
Theorem X1_country_prefix_sets_country
    (p code : string) (typed sp rest : str) :
  In (p, code) countryMap ->
  sameText p typed ->
  forallb isWhiteSpace sp = true ->
  isTrimmed rest = true ->
  includes ".png" (toLowerCase (typed ++ sp ++ rest)) = false ->
  search urlPattern (typed ++ sp ++ rest) = None ->
  findPrefix countryMap (toLowerCase rest) = None ->
  parseSearchTerm (typed ++ sp ++ rest)
  = withCountry code (parseSearchTerm rest).
Proof.
  intros Hin Hs Hsp Hrest Hpng Hurl Hc.
  pose proof (in_countryMap_all p code Hin) as Hp.
  pose proof (key_lower p typed Hp Hs) as Ht.
  destruct (rest_clean _ _ _ Hpng Hurl) as [Hpng' Hurl'].
  rewrite (parse_stages _ Hpng Hurl), (parse_stages _ Hpng' Hurl').
  rewrite (typed_truthy p typed _ Hp Ht), (typed_lower p typed _ Ht).
  rewrite (findPrefix_hit countryMap p code _ country_keys_clash Hin).
  rewrite (typed_strip p typed sp rest Hp Ht Hsp Hrest).
  destruct rest as [|c rest]; [reflexivity|]. cbn [truthy].
  rewrite Hc. now rewrite prefixStages_country.
Qed.

(** X1 at [UK: Coldplay]. *)
Lemma X1_witness :
  parseSearchTerm "UK: Coldplay" = withCountry "gb" (parseSearchTerm "Coldplay").
Proof.
  apply (X1_country_prefix_sets_country "uk:" "gb" "UK:" " " "Coldplay");
    vm_compute; tauto.
Defined.

(** X2.  A media-kind prefix of the table, typed in any letter case (as the
    [i] flag reads it) and followed by any white space, only sets the entity,
    also over the default entity of an attribute prefix that follows.  The
    rest is taken trimmed, the query free of format token and store URL, and
    the rest to start with neither a country nor a media-kind prefix. *)
Theorem X2_entity_prefix_sets_entity
    (p : string) (e : Entity) (typed sp rest : str) :
  In (p, e) entityMap ->
  sameText p typed ->
  forallb isWhiteSpace sp = true ->
  isTrimmed rest = true ->
  includes ".png" (toLowerCase (typed ++ sp ++ rest)) = false ->
  search urlPattern (typed ++ sp ++ rest) = None ->
  findPrefix countryMap (toLowerCase rest) = None ->
  findPrefix entityMap (toLowerCase rest) = None ->
  parseSearchTerm (typed ++ sp ++ rest)
  = withEntity e (parseSearchTerm rest).
Proof.
  intros Hin Hs Hsp Hrest Hpng Hurl Hc He.
  pose proof (in_entityMap_all p e Hin) as Hp.
  pose proof (key_lower p typed Hp Hs) as Ht.
  destruct (rest_clean _ _ _ Hpng Hurl) as [Hpng' Hurl'].
  rewrite (parse_stages _ Hpng Hurl), (parse_stages _ Hpng' Hurl').
  rewrite (typed_truthy p typed _ Hp Ht), (typed_lower p typed _ Ht).
  rewrite (country_miss_entity p e _ Hin).
  unfold prefixStages at 1. cbv zeta.
  rewrite (typed_lower p typed _ Ht).
  rewrite (findPrefix_hit entityMap p e _ entity_keys_clash Hin).
  cbv beta iota.
  rewrite (typed_strip p typed sp rest Hp Ht Hsp Hrest).
  destruct rest as [|c rest]; [reflexivity|]. cbn [truthy].
  rewrite Hc. unfold prefixStages. cbv zeta. rewrite He. cbv beta iota.
  destruct (findPrefix attributeEntityMap (toLowerCase (c :: rest)))
    as [[? [? ?]]|]; reflexivity.
Qed.

(** X2 at [Movie: director: Nolan]. *)
Lemma X2_witness :
  parseSearchTerm "Movie: director: Nolan"
  = withEntity movie (parseSearchTerm "director: Nolan").
Proof.
  apply (X2_entity_prefix_sets_entity "movie:" movie "Movie:" " "
           "director: Nolan");
    vm_compute; tauto.
Defined.

(** X3.  In a query free of format token and store URL, an attribute prefix
    of the table at the head, typed in any letter case (as the [i] flag reads
    it) and followed by any white space, sets the attribute and the entity
    that goes with it; whatever follows, trimmed, is the search term,
    prefixes included, since the attribute stage is the last; the country
    stays [us]. *)
Theorem X3_attribute_prefix_sets_attribute
    (p : string) (e : Entity) (a : Attribute) (typed sp rest : str) :
  In (p, (e, a)) attributeEntityMap ->
  sameText p typed ->
  forallb isWhiteSpace sp = true ->
  includes ".png" (toLowerCase (typed ++ sp ++ rest)) = false ->
  search urlPattern (typed ++ sp ++ rest) = None ->
  parseSearchTerm (typed ++ sp ++ rest)
  = {| searchTerm := trim rest;
       entity := e;
       countryCode := "us";
       usePng := false;
       attribute := a;
       lookupMode := false |}.
Proof.
  intros Hin Hs Hsp Hpng Hurl.
  pose proof (in_attributeMap_all p (e, a) Hin) as Hp.
  pose proof (key_lower p typed Hp Hs) as Ht.
  rewrite (parse_stages _ Hpng Hurl).
  rewrite (typed_truthy p typed _ Hp Ht), (typed_lower p typed _ Ht).
  rewrite (country_miss_attribute p (e, a) _ Hin).
  unfold prefixStages. cbv zeta.
  rewrite (typed_lower p typed _ Ht).
  rewrite (entity_miss_attribute p (e, a) _ Hin). cbv beta iota.
  rewrite (typed_lower p typed _ Ht).
  rewrite (findPrefix_hit attributeEntityMap p (e, a) _
             attribute_keys_clash Hin).
  cbv beta iota.
  now rewrite (typed_strip_any p typed sp rest Hs Hsp).
Qed.

(** X3 at [Artist: uk: x ]: the country prefix after the attribute prefix
    stays in the term. *)
Lemma X3_witness :
  parseSearchTerm "Artist: uk: x "
  = {| searchTerm := trim "uk: x ";
       entity := album;
       countryCode := "us";
       usePng := false;
       attribute := artistTerm;
       lookupMode := false |}.
Proof.
  apply (X3_attribute_prefix_sets_attribute "artist:" album artistTerm
           "Artist:" " " "uk: x ");
    vm_compute; tauto.
Defined.

(** ** Store URLs and the format token *)

Section UrlBranchFacts.

Lemma search_eq {R} (m : @cont (R * str)) (s : str) :
  search m s =
  match m s with
  | Some (r, rest) => Some (firstn (length s - length rest) s, r)
  | None => match s with [] => None | _ :: s' => search m s' end
  end.
Proof. destruct s; reflexivity. Qed.

Lemma search_text_inv {R} (m : @cont (R * str)) (s txt : str) (r : R) :
  search m s = Some (txt, r) ->
  exists pre t rest,
    s = pre ++ t /\ m t = Some (r, rest) /\
    txt = firstn (length t - length rest) t.
Proof.
  induction s as [|c s IH]; rewrite search_eq; intros H.
  - destruct (m []) as [[r' rest]|] eqn:E; [|discriminate].
    injection H as <- <-. now exists [], [], rest.
  - destruct (m (c :: s)) as [[r' rest]|] eqn:E.
    + injection H as <- <-. now exists [], (c :: s), rest.
    + destruct (IH H) as (pre & t & rest & -> & Hm & Ht).
      now exists (c :: pre), t, rest.
Qed.

(** The text [search] returns for [urlPattern] is the store URL itself. *)
Lemma search_urlPattern_text (s txt id : str) :
  search urlPattern s = Some (txt, id) ->
  exists pre post, s = pre ++ txt ++ post /\ isStoreUrl txt id.
Proof.
  intros H. apply search_text_inv in H as (pre & t & rest & -> & Hm & ->).
  apply urlPattern_inv in Hm as (u & -> & Hu).
  rewrite length_app, Nat.add_sub, firstn_app, Nat.sub_diag, firstn_all.
  simpl. rewrite app_nil_r. now exists pre, rest.
Qed.

End UrlBranchFacts.

(** X4.  A store URL in the query overrides everything else: when
    [lookupMode] is set, the search term is the id of a store URL of the raw
    term (format token removed), a non-empty run of digits, the entity is
    read off that URL, and whatever prefixes were typed, the country is [us]
    and there is no attribute. *)
Theorem X4_store_url_overrides_prefixes (rawTerm : str) :
  lookupMode (parseSearchTerm rawTerm) = true ->
  let q := parseSearchTerm rawTerm in
  countryCode q = "us" /\
  attribute q = noAttribute /\
  searchTerm q <> [] /\
  forallb isDigit (searchTerm q) = true /\
  exists pre url post,
    rawTermAfterFormat rawTerm = pre ++ url ++ post /\
    isStoreUrl url (searchTerm q) /\
    entity q = urlEntityOf (toLowerCase url).
Proof.
  rewrite parse_lookupMode. cbv zeta.
  unfold parseSearchTerm, rawTermAfterFormat. cbv zeta.
  set (r1 := if truthy rawTerm && includes ".png" (toLowerCase rawTerm)
             then trim (replaceAll pngToken rawTerm) else rawTerm).
  destruct (search urlPattern r1) as [[url id]|] eqn:E; [intros _|discriminate].
  cbn [countryCode attribute searchTerm entity].
  destruct (search_urlPattern_id _ _ _ E) as [Hne Hd].
  destruct (search_urlPattern_text _ _ _ E) as (pre & post & Hr & Hu).
  repeat split; try assumption.
  now exists pre, url, post.
Qed.

(** X4 at a URL typed after a country and an attribute prefix. *)
Lemma X4_witness :
  countryCode
    (parseSearchTerm "uk: artist: https://apps.apple.com/gb/app/x/id12")
  = "us" /\
  attribute
    (parseSearchTerm "uk: artist: https://apps.apple.com/gb/app/x/id12")
  = noAttribute /\
  searchTerm
    (parseSearchTerm "uk: artist: https://apps.apple.com/gb/app/x/id12")
  = "12" /\
  entity (parseSearchTerm "uk: artist: https://apps.apple.com/gb/app/x/id12")
  = software.
Proof.
  pose proof (X4_store_url_overrides_prefixes
                "uk: artist: https://apps.apple.com/gb/app/x/id12" eq_refl)
    as (Hc & Ha & _).
  split; [exact Hc|]. split; [exact Ha|]. split; reflexivity.
Defined.

(** X5.  [usePng] is set exactly when the raw term contains the token [.png]
    in some spelling of upper and lower case, wherever it stands. *)
Theorem X5_usePng_iff_token (rawTerm : str) :
  usePng (parseSearchTerm rawTerm) = true <->
  exists a t b, rawTerm = a ++ t ++ b /\ sameText ".png" t.
Proof.
  rewrite parse_usePng. split.
  - intros H. apply includes_inv in H as (a' & b' & H).
    unfold toLowerCase in H.
    apply map_eq_app in H as (a & r & -> & _ & H).
    apply map_eq_app in H as (t & b & -> & Ht & _).
    exists a, t, b. split; [reflexivity|]. now apply lower_png_sameText.
  - intros (a & t & b & -> & Ht). apply lower_png_sameText in Ht.
    unfold toLowerCase in *. rewrite !map_app, Ht. apply includes_app.
Qed.

(** ** The other link sets *)

Section LinkSetFacts.

Lemma png_not_jpg (s : str) :
  endsWith ".png" s = true -> endsWith ".jpg" s = false.
Proof.
  intros H. apply endsWith_inv in H as [t ->].
  unfold endsWith. now rewrite rev_app_distr.
Qed.

(** Converting to [.png] a second time changes nothing. *)
Lemma jpgAtEnd_again (usePng : bool) (s : str) :
  endsWith (ext usePng) s = true ->
  (if usePng then replace jpgAtEnd s else s) = s.
Proof.
  destruct usePng; [|reflexivity]. intros H.
  apply replace_no_suffix. now apply png_not_jpg.
Qed.

Lemma jpgAtEnd_never_jpg (s : str) :
  endsWith ".jpg" (replace jpgAtEnd s) = false.
Proof.
  destruct (endsWith ".jpg" s) eqn:E.
  - apply png_not_jpg. now apply jpgAtEnd_png.
  - unfold jpgAtEnd. now rewrite replace_no_suffix.
Qed.

End LinkSetFacts.

(** X6.  For an audiobook and for an eBook [displayResults] renders two
    links, a sized one (3000, and 2200 for the portrait cover) and HD.  The
    second conversion to [.png] that these branches apply to the sized link
    changes nothing: the link is the URL computed before, and it ends in the
    requested extension. *)
Theorem X6_audiobook_ebook_links (usePng : bool) (url : str) :
  links (deriveLinks audiobook usePng url)
  = [ {| label := "3000"; href := fixArtworkUrl usePng url 3000 |};
      {| label := "HD"; href := artworkUrl5000 usePng url |} ] /\
  links (deriveLinks ebook usePng url)
  = [ {| label := "2200"; href := artworkUrl1467x2200 ebook usePng url |};
      {| label := "HD"; href := artworkUrl5000 usePng url |} ] /\
  endsWith (ext usePng) (fixArtworkUrl usePng url 3000) = true /\
  endsWith (ext usePng) (artworkUrl1467x2200 ebook usePng url) = true.
Proof.
  pose proof (fixArtworkUrl_ext usePng url 3000) as H1.
  pose proof (ebook_ext usePng url) as H2.
  repeat split; try assumption.
  - unfold deriveLinks, linksHtml, artworkUrl3000. cbn [links]. cbv zeta.
    now rewrite (jpgAtEnd_again usePng _ H1).
  - unfold deriveLinks, linksHtml. cbn [links]. cbv zeta.
    now rewrite (jpgAtEnd_again usePng _ H2).
Qed.

(** X7.  For an app [displayResults] renders one link, HD: the
    maximum-resolution URL of the other branches, converted to [.png] on
    request, which that URL itself is not.  With PNG asked for the link never
    ends in [.jpg]; when the maximum-resolution URL ends in [.jpg], the link
    is that URL with [.png] in its place. *)
Theorem X7_software_link (usePng : bool) (url : str) :
  links (deriveLinks software usePng url)
  = [ {| label := "HD"; href := appHdUrl usePng url |} ] /\
  appHdUrl false url = artworkUrl5000 false url /\
  endsWith ".jpg" (appHdUrl true url) = false /\
  (forall stem,
     artworkUrl5000 true url = stem ++ ".jpg" ->
     appHdUrl true url = stem ++ ".png").
Proof.
  split; [reflexivity|]. split; [reflexivity|]. split.
  - apply jpgAtEnd_never_jpg.
  - intros stem H.
    change (appHdUrl true url) with (replace jpgAtEnd (artworkUrl5000 true url)).
    rewrite H. apply replace_suffix.
Qed.

(** X7 at the thumbnail of an app whose icon is a [.jpg] asset. *)
Lemma X7_witness :
  appHdUrl true
    "https://is1-ssl.mzstatic.com/image/thumb/Purple/v4/a/icon.jpg/100x100bb.jpg"
  = "https://a1.mzstatic.com/us/r1000/063/Purple/v4/a/icon" ++ ".png".
Proof.
  apply (proj2 (proj2 (proj2 (X7_software_link true
    "https://is1-ssl.mzstatic.com/image/thumb/Purple/v4/a/icon.jpg/100x100bb.jpg")))).
  reflexivity.
Defined.

(** ** Thumbnails of the usual shape *)

Section ShapeFacts.

Lemma includes_bb_step (pre rest : str) (c : ascii) :
  Ascii.eqb "b" c = false ->
  includes "bb" (pre ++ c :: rest)
  = includes "bb" pre || includes "bb" (c :: rest).
Proof.
  intros Hc. induction pre as [|x pre IH].
  - reflexivity.
  - change (includes "bb" ((x :: pre) ++ c :: rest))
      with (startsWith "bb" (x :: pre ++ c :: rest)
            || includes "bb" (pre ++ c :: rest)).
    change (includes "bb" (x :: pre))
      with (startsWith "bb" (x :: pre) || includes "bb" pre).
    rewrite IH, orb_assoc. f_equal. f_equal.
    destruct pre as [|y pre]; [|reflexivity].
    change (startsWith "bb" (x :: [] ++ c :: rest))
      with (Ascii.eqb "b" x && (Ascii.eqb "b" c && true)).
    change (startsWith "bb" [x]) with (Ascii.eqb "b" x && false).
    rewrite Hc. now destruct (Ascii.eqb "b" x).
Qed.

(** Before the leftmost occurrence of a literal nothing is replaced: the
    occurrence is told by the text before it, with the literal less its last
    character, not including the literal. *)
Lemma replace_literal_first (p c new pre post : str) :
  length c = 1 ->
  includes (p ++ c) (pre ++ p) = false ->
  replace (lits (p ++ c) (ret new)) (pre ++ (p ++ c) ++ post)
  = pre ++ new ++ post.
Proof.
  intros Hc Hfirst.
  apply replace_first; [now rewrite lits_app|].
  intros p1 t1 -> Hn. apply lits_fail.
  rewrite <- !app_assoc, (app_assoc t1 p), startsWith_app_short.
  - apply (includes_none _ _ Hfirst p1). now rewrite <- app_assoc.
  - rewrite !length_app, Hc. destruct t1; [congruence|]. simpl. lia.
Qed.

Lemma ebook_shape (usePng : bool) (pre : str) :
  includes "100x100" (pre ++ "100x10") = false ->
  includes "bb" pre = false ->
  includes "1467x2200" (pre ++ "1467x220") = false ->
  artworkUrl1467x2200 ebook usePng (pre ++ "100x100bb.jpg")
  = pre ++ "1467x2200-999" ++ ext usePng.
Proof.
  intros H100 Hbb H1467. unfold artworkUrl1467x2200. cbv zeta.
  assert (E1 : replace (lits "100x100" (ret "1467x2200")) (pre ++ "100x100bb.jpg")
               = pre ++ "1467x2200" ++ "bb.jpg").
  { apply (replace_literal_first "100x10" "0" "1467x2200" pre "bb.jpg");
      [reflexivity|exact H100]. }
  rewrite E1.
  assert (E2 : replace bbBeforeJpg (pre ++ "1467x2200" ++ "bb.jpg")
               = pre ++ "1467x2200" ++ ".jpg").
  { rewrite !app_assoc.
    change (lit ".jpg") with ([] ++ lit ".jpg").
    apply replace_first; [reflexivity|].
    intros p1 t1 Hp Hn. unfold bbBeforeJpg. apply lits_fail.
    change (lit "bb.jpg") with (lit "b" ++ lit "b.jpg").
    rewrite app_assoc, startsWith_app_short.
    - assert (Hall : includes "bb" ((pre ++ "1467x2200") ++ "b") = false).
      { rewrite <- app_assoc.
        change (lit "1467x2200" ++ lit "b") with ("1"%char :: lit "467x2200b").
        rewrite includes_bb_step by reflexivity. now rewrite Hbb. }
      apply (includes_none _ _ Hall p1). now rewrite Hp, <- app_assoc.
    - rewrite length_app. destruct t1; [congruence|]. simpl. lia. }
  rewrite E2.
  assert (E3 : replace ebookSizeBeforeJpg (pre ++ "1467x2200" ++ ".jpg")
               = pre ++ "1467x2200-999" ++ ".jpg").
  { apply (replace_first _ pre ("1467x2200" ++ ".jpg")); [reflexivity|].
    intros p1 t1 -> Hn. unfold ebookSizeBeforeJpg.
    rewrite capture_lits. apply lits_fail.
    change (lit "1467x2200" ++ lit ".jpg") with ("1467x220" ++ lit "0.jpg").
    rewrite app_assoc, startsWith_app_short.
    - apply (includes_none _ _ H1467 p1). now rewrite <- app_assoc.
    - rewrite length_app. destruct t1; [congruence|]. simpl. lia. }
  rewrite E3.
  replace (pre ++ "1467x2200-999" ++ ".jpg")
    with ((pre ++ "1467x2200-999") ++ ".jpg") by now rewrite <- app_assoc.
  rewrite endsWith_app. cbn [negb].
  destruct usePng; cbn [ext].
  - unfold jpgAtEnd. rewrite replace_suffix. now rewrite <- app_assoc.
  - now rewrite <- app_assoc.
Qed.

End ShapeFacts.

(** X8.  For an eBook whose thumbnail has the usual shape, ending in
    [100x100bb.jpg] with no [100x100], [bb] or [1467x2200] before, the sized
    link is the thumbnail with the portrait size [1467x2200-999] in place of
    [100x100bb], in the requested extension; the other link is HD. *)
Theorem X8_ebook_portrait_link (usePng : bool) (pre : str) :
  includes "100x100" (pre ++ "100x10") = false ->
  includes "bb" pre = false ->
  includes "1467x2200" (pre ++ "1467x220") = false ->
  links (deriveLinks ebook usePng (pre ++ "100x100bb.jpg"))
  = [ {| label := "2200"; href := pre ++ "1467x2200-999" ++ ext usePng |};
      {| label := "HD";
         href := artworkUrl5000 usePng (pre ++ "100x100bb.jpg") |} ].
Proof.
  intros H100 Hbb H1467.
  unfold deriveLinks, linksHtml. cbn [links]. cbv zeta.
  rewrite (jpgAtEnd_again usePng _ (ebook_ext usePng _)).
  now rewrite (ebook_shape usePng pre H100 Hbb H1467).
Qed.

(** X8 at the thumbnail of a book cover. *)
Lemma X8_witness :
  links (deriveLinks ebook true
           "https://is1-ssl.mzstatic.com/image/thumb/Pub/v4/a/cover.jpg/100x100bb.jpg")
  = [ {| label := "2200";
         href := "https://is1-ssl.mzstatic.com/image/thumb/Pub/v4/a/cover.jpg/"
                   ++ "1467x2200-999" ++ ext true |};
      {| label := "HD";
         href := artworkUrl5000 true
                   ("https://is1-ssl.mzstatic.com/image/thumb/Pub/v4/a/cover.jpg/"
                      ++ "100x100bb.jpg") |} ].
Proof.
  apply (X8_ebook_portrait_link true
           "https://is1-ssl.mzstatic.com/image/thumb/Pub/v4/a/cover.jpg/");
    reflexivity.
Defined.

(** ** The maximum-resolution URL of a CDN thumbnail *)

Section CdnFacts.

Lemma dropWhile_app (p : ascii -> bool) (a b : str) :
  dropWhile p (a ++ b)
  = match dropWhile p a with
    | [] => dropWhile p b
    | c :: l => c :: l ++ b
    end.
Proof.
  induction a as [|x a IH]; simpl.
  - now destruct (dropWhile p b).
  - destruct (p x); [exact IH|reflexivity].
Qed.

Lemma headIs_app (p : ascii -> bool) (a b : str) :
  headIs p (a ++ b) = match a with [] => headIs p b | _ => headIs p a end.
Proof. now destruct a. Qed.

(** A token cannot reach over a [/]: no token starts where none did once a
    [/] and more text follow. *)
Lemma sizeTokenSplit_before_slash (t r : str) :
  t <> [] -> sizeTokenSplit t = None ->
  sizeTokenSplit (t ++ "/"%char :: r) = None.
Proof.
  intros Hne H. destruct t as [|c s1]; [congruence|].
  unfold sizeTokenSplit in *. cbn [app].
  destruct (Ascii.eqb "/" c); [|reflexivity]. cbn [andb] in *.
  rewrite headIs_app.
  destruct s1 as [|d s1]; [reflexivity|].
  destruct (headIs isDigit (d :: s1)) eqn:Hd; [|reflexivity].
  rewrite dropWhile_app.
  destruct (dropWhile isDigit (d :: s1)) as [|x s3]; [reflexivity|].
  destruct (Ascii.eqb "x" x); [|reflexivity]. cbn [andb] in *.
  rewrite headIs_app.
  destruct s3 as [|e s3]; [reflexivity|].
  destruct (headIs isDigit (e :: s3)); [|reflexivity].
  cbv zeta in H. destruct (startsWith "bb" (dropWhile isDigit (e :: s3)));
    discriminate H.
Qed.

(** A greedy star settles for the longest run after which the continuation
    accepts. *)
Lemma star_longest {R} (p : ascii -> bool) (k : @cont R) (a rest : str) (r : R) :
  forallb p a = true -> k rest = Some r ->
  (forall a2 rest2, a2 <> [] -> rest = a2 ++ rest2 -> forallb p a2 = true ->
     k rest2 = None) ->
  star p k (a ++ rest) = Some r.
Proof.
  intros Ha Hk Hno. induction a as [|c a IH].
  - cbn [app]. destruct rest as [|c s]; [exact Hk|].
    cbn [star]. destruct (p c) eqn:Hc; [|exact Hk].
    destruct (star p k s) as [r'|] eqn:Es; [|exact Hk].
    apply star_inv in Es as (a2 & rest2 & -> & Ha2 & Hk2).
    rewrite (Hno (c :: a2) rest2) in Hk2; try discriminate; try reflexivity.
    simpl. now rewrite Hc.
  - simpl in Ha. apply andb_true_iff in Ha as [Hc Ha].
    cbn [app star]. rewrite Hc. now rewrite (IH Ha).
Qed.

(** A lazy star settles for the shortest run after which the continuation
    accepts. *)
Lemma starLazy_first {R} (p : ascii -> bool) (k : @cont R) (a rest : str)
    (r : R) :
  forallb p a = true -> k rest = Some r ->
  (forall a1 a2, a = a1 ++ a2 -> a2 <> [] -> k (a2 ++ rest) = None) ->
  starLazy p k (a ++ rest) = Some r.
Proof.
  intros Ha Hk Hno. induction a as [|c a IH].
  - cbn [app]. destruct rest; cbn [starLazy]; now rewrite Hk.
  - simpl in Ha. apply andb_true_iff in Ha as [Hc Ha].
    cbn [app starLazy].
    assert (E : k ((c :: a) ++ rest) = None)
      by (apply (Hno [] (c :: a)); [reflexivity|discriminate]).
    cbn [app] in E. rewrite E, Hc. apply (IH Ha).
    intros a1 a2 -> Hn. now apply (Hno (c :: a1) a2).
Qed.

(** The resized URL of a CDN thumbnail whose only size token is the one
    before the extension. *)
Lemma fixArtworkUrl_thumbnail (usePng : bool) (front : str) (size : N) :
  hasSizeToken front = false ->
  fixArtworkUrl usePng (front ++ "/100x100bb.jpg") size
  = front ++ newToken size ++ ext usePng.
Proof.
  intros Hno. rewrite fixArtworkUrl_closing.
  assert (E : replace (sizeToken size) (front ++ "/100x100bb.jpg")
              = front ++ newToken size ++ ".jpg").
  { apply replace_first; [now rewrite sizeToken_split|].
    intros p1 t1 Hf Hn. rewrite sizeToken_split.
    change (lit "/100x100bb.jpg") with ("/"%char :: lit "100x100bb.jpg").
    rewrite sizeTokenSplit_before_slash; [reflexivity|exact Hn|].
    now apply (hasSizeToken_none front Hno p1). }
  rewrite E.
  destruct (closing_after_token usePng size front ".jpg")
    as (stem & [Hs|[_ Hs]] & ->); [|discriminate Hs].
  change (lit ".jpg") with ([] ++ lit ".jpg") in Hs.
  apply app_inv_tail in Hs. now subst stem.
Qed.

(** The pattern of the high-resolution rewrite on a resized CDN thumbnail:
    group 1 is the path between [/image/thumb/] and the file name. *)
Lemma cdnThumb_thumbnail (usePng : bool) (host path : str) :
  forallb dot host = true ->
  forallb dot path = true ->
  includes ".mzstatic.com/image/thumb/" (host ++ ".mzstatic.com/image/thumb")
  = false ->
  cdnThumb ("https://" ++ host ++ ".mzstatic.com/image/thumb/" ++ path
              ++ newToken 10000 ++ ext usePng)
  = Some (hdPrefix ++ path, []).
Proof.
  intros Hhost Hpath Hfirst. unfold cdnThumb. rewrite lits_app.
  apply starLazy_first; [exact Hhost| |].
  - rewrite lits_app. unfold capture.
    apply star_longest; [exact Hpath| |].
    + rewrite length_app, Nat.add_sub, firstn_app, Nat.sub_diag, firstn_all.
      simpl firstn. rewrite app_nil_r.
      destruct usePng; reflexivity.
    + intros a2 rest2 Hn Hsplit _.
      apply lits_fail.
      destruct a2 as [|c a2]; [congruence|].
      assert (Hfile : exists file,
                 newToken 10000 ++ ext usePng = "/"%char :: file /\
                 includes "/" file = false)
        by (destruct usePng; eexists; split; reflexivity).
      destruct Hfile as (file & Hfile & Hslash).
      rewrite Hfile in Hsplit. injection Hsplit as _ Hsplit.
      apply (includes_none _ _ Hslash a2). exact Hsplit.
  - intros a1 a2 -> Hn. apply lits_fail.
    change (lit ".mzstatic.com/image/thumb/")
      with (".mzstatic.com/image/thumb" ++ lit "/").
    rewrite <- (app_assoc _ (lit "/")), (app_assoc a2), startsWith_app_short.
    + apply (includes_none _ _ Hfirst a1). now rewrite <- app_assoc.
    + rewrite !length_app. destruct a2; [congruence|]. simpl. lia.
Qed.

End CdnFacts.

(** X9.  For a CDN thumbnail
    [https://{host}.mzstatic.com/image/thumb/{path}/100x100bb.jpg] whose only
    size token is the one before the extension, the maximum-resolution URL
    is the asset path re-rooted under [hdPrefix], with [bb] stripped from
    its last segment when it has one before an image extension.  It is the
    same URL whether JPG or PNG was asked for. *)
Theorem X9_max_resolution_of_cdn_thumbnail (usePng : bool) (host path : str) :
  forallb dot host = true ->
  forallb dot path = true ->
  includes ".mzstatic.com/image/thumb/" (host ++ ".mzstatic.com/image/thumb")
  = false ->
  hasSizeToken ("https://" ++ host ++ ".mzstatic.com/image/thumb/" ++ path)
  = false ->
  let url := "https://" ++ host ++ ".mzstatic.com/image/thumb/" ++ path
               ++ "/100x100bb.jpg" in
  artworkUrl5000 usePng url = replace bbInLastSegment (hdPrefix ++ path) /\
  artworkUrl5000 usePng url = artworkUrl5000 (negb usePng) url.
Proof.
  intros Hhost Hpath Hfirst Hno. cbv zeta.
  assert (H : forall b,
             artworkUrl5000 b
               ("https://" ++ host ++ ".mzstatic.com/image/thumb/" ++ path
                  ++ "/100x100bb.jpg")
             = replace bbInLastSegment (hdPrefix ++ path)).
  { intros b. unfold artworkUrl5000. cbv zeta.
    replace ("https://" ++ host ++ ".mzstatic.com/image/thumb/" ++ path
               ++ "/100x100bb.jpg")
      with (("https://" ++ host ++ ".mzstatic.com/image/thumb/" ++ path)
              ++ "/100x100bb.jpg")
      by now rewrite <- !app_assoc.
    rewrite (fixArtworkUrl_thumbnail b _ 10000 Hno).
    rewrite <- !app_assoc. unfold replaceAtStart.
    rewrite (cdnThumb_thumbnail b host path Hhost Hpath Hfirst).
    now rewrite app_nil_r. }
  split; [apply H|]. now rewrite !H.
Qed.

(** X9 at the thumbnail of an album. *)
Lemma X9_witness :
  artworkUrl5000 true
    ("https://" ++ "is1-ssl" ++ ".mzstatic.com/image/thumb/"
       ++ "Music115/v4/ab/cd/source" ++ "/100x100bb.jpg")
  = replace bbInLastSegment (hdPrefix ++ "Music115/v4/ab/cd/source").
Proof.
  apply (X9_max_resolution_of_cdn_thumbnail true "is1-ssl"
           "Music115/v4/ab/cd/source");
    reflexivity.
Defined.

(** ** The name a link is saved under *)

Section DownloadFacts.

Lemma split_nonempty (sep : ascii) (s : str) : split sep s <> [].
Proof.
  destruct s as [|c s]; cbn [split]; [discriminate|].
  destruct (Ascii.eqb c sep); [discriminate|].
  destruct (split sep s); discriminate.
Qed.

Lemma includes_char_cons (sep c : ascii) (s : str) :
  includes [sep] (c :: s) = Ascii.eqb sep c || includes [sep] s.
Proof.
  cbn [includes startsWith]. now rewrite andb_true_r.
Qed.

Lemma split_without (sep : ascii) (s : str) :
  includes [sep] s = false -> split sep s = [s].
Proof.
  induction s as [|c s IH]; intros H; [reflexivity|].
  rewrite includes_char_cons in H. apply orb_false_iff in H as [Hc Hs].
  cbn [split]. rewrite Ascii.eqb_sym, Hc, (IH Hs). reflexivity.
Qed.

Lemma last_split_app (sep : ascii) (a b : str) :
  last (split sep (a ++ sep :: b)) [] = last (split sep b) [].
Proof.
  induction a as [|c a IH]; cbn [app split].
  - rewrite Ascii.eqb_refl.
    destruct (split sep b) eqn:E; [now destruct (split_nonempty sep b)|].
    reflexivity.
  - destruct (Ascii.eqb c sep).
    + destruct (split sep (a ++ sep :: b)) eqn:E;
        [now destruct (split_nonempty sep (a ++ sep :: b))|].
      exact IH.
    + destruct (split sep (a ++ sep :: b)) as [|p ps] eqn:E;
        [now destruct (split_nonempty sep (a ++ sep :: b))|].
      destruct ps; [|exact IH].
      cbn [last] in IH |- *.
      (* the only piece is the last one: impossible, a separator occurs *)
      exfalso. clear IH.
      assert (Hlen : forall s, 2 <= length (split sep (s ++ sep :: b))).
      { clear. induction s as [|x s IH]; cbn [app split].
        - rewrite Ascii.eqb_refl. cbn [length].
          pose proof (split_nonempty sep b).
          destruct (split sep b); [congruence|cbn [length]; lia].
        - destruct (Ascii.eqb x sep); [cbn [length]; lia|].
          destruct (split sep (s ++ sep :: b)); cbn [length] in *; lia. }
      specialize (Hlen a). rewrite E in Hlen. cbn [length] in Hlen. lia.
Qed.

Lemma hd_split_app (sep : ascii) (a b : str) :
  includes [sep] a = false ->
  hd [] (split sep (a ++ sep :: b)) = a.
Proof.
  induction a as [|c a IH]; intros H; cbn [app split].
  - now rewrite Ascii.eqb_refl.
  - rewrite includes_char_cons in H. apply orb_false_iff in H as [Hc Hs].
    rewrite Ascii.eqb_sym, Hc. specialize (IH Hs).
    destruct (split sep (a ++ sep :: b)); cbn [hd] in *; now subst.
Qed.

Lemma hd_split_prefix (sep : ascii) (s : str) :
  exists rest, s = hd [] (split sep s) ++ rest /\
               includes [sep] (hd [] (split sep s)) = false.
Proof.
  induction s as [|c s (rest & E & H)]; [now exists []|].
  cbn [split]. destruct (Ascii.eqb c sep) eqn:Hc.
  - exists (c :: s). now split.
  - destruct (split sep s) as [|p ps]; cbn [hd] in *.
    + exists rest. split; [now rewrite E at 1|].
      rewrite includes_char_cons, Ascii.eqb_sym, Hc. exact H.
    + exists rest. split; [now rewrite E at 1|].
      rewrite includes_char_cons, Ascii.eqb_sym, Hc. exact H.
Qed.

Lemma last_split_suffix (sep : ascii) (s : str) :
  exists front, s = front ++ last (split sep s) [] /\
                includes [sep] (last (split sep s) []) = false.
Proof.
  induction s as [|c s (front & E & H)]; [now exists []|].
  cbn [split]. destruct (Ascii.eqb c sep) eqn:Hc.
  - pose proof (split_nonempty sep s) as Hn.
    destruct (split sep s) as [|p ps] eqn:Es; [congruence|].
    exists (c :: front). split; [cbn [app]; now f_equal|exact H].
  - pose proof (split_nonempty sep s) as Hn.
    destruct (split sep s) as [|p ps] eqn:Es; [congruence|].
    destruct ps as [|q qs].
    + cbn [last] in *. exists []. cbn [app].
      assert (front = []) as ->.
      { apply (f_equal (@length ascii)) in E. rewrite length_app in E.
        destruct front; [reflexivity|].
        (* the single piece is the whole text *)
        exfalso.
        assert (Hall : forall t, length (split sep t) = 1 ->
                  hd [] (split sep t) = t).
        { clear. induction t as [|x t IH]; [reflexivity|].
          cbn [split]. destruct (Ascii.eqb x sep).
          - cbn [length]. pose proof (split_nonempty sep t).
            destruct (split sep t); [congruence|cbn [length]; lia].
          - pose proof (split_nonempty sep t).
            destruct (split sep t) as [|p ps]; [congruence|].
            cbn [length hd] in *. intros Hl. f_equal. apply IH. lia. }
        specialize (Hall s). rewrite Es in Hall. cbn [length hd] in Hall.
        specialize (Hall eq_refl). subst p. cbn [length] in E. lia. }
      cbn [app] in E. subst p. split; [reflexivity|].
      rewrite includes_char_cons, Ascii.eqb_sym, Hc. exact H.
    + exists (c :: front). split; [cbn [app]; now f_equal|exact H].
Qed.

Lemma includes_char_app (sep : ascii) (a b : str) :
  includes [sep] (a ++ b) = includes [sep] a || includes [sep] b.
Proof.
  induction a as [|c a IH]; cbn [app].
  - destruct b; reflexivity.
  - rewrite !includes_char_cons, IH. apply orb_assoc.
Qed.

End DownloadFacts.

Section DownloadNameFacts.

Lemma digits_of_uint (u : Decimal.uint) :
  forallb isDigit (lit (NilEmpty.string_of_uint u)) = true.
Proof.
  induction u; cbn [NilEmpty.string_of_uint lit list_ascii_of_string forallb];
    [reflexivity| rewrite ?andb_true_iff; split; [reflexivity|exact IHu] ..].
Qed.

Lemma numberToString_digits (n : N) :
  forallb isDigit (numberToString n) = true.
Proof.
  unfold numberToString, NilZero.string_of_uint.
  destruct (N.to_uint n) eqn:E; [reflexivity| rewrite <- E; apply digits_of_uint ..].
Qed.

Lemma digits_no_char (sep : ascii) (s : str) :
  isDigit sep = false -> forallb isDigit s = true -> includes [sep] s = false.
Proof.
  intros Hs. induction s as [|c s IH]; intros H; [reflexivity|].
  cbn [forallb] in H. apply andb_true_iff in H as [Hc H].
  rewrite includes_char_cons, (IH H), orb_false_r.
  destruct (Ascii.eqb sep c) eqn:E; [|reflexivity].
  apply Ascii.eqb_eq in E. congruence.
Qed.

Lemma downloadFilename_segment (dir file linkText : str) :
  includes "/" file = false ->
  includes "?" file = false ->
  5 <= length file ->
  downloadFilename (dir ++ "/" ++ file) linkText = file.
Proof.
  intros Hs Hq Hl. unfold downloadFilename.
  change (lit "/") with ["/"%char] in *. change (lit "?") with ["?"%char] in *.
  change (dir ++ ["/"%char] ++ file) with (dir ++ "/"%char :: file).
  rewrite last_split_app, (split_without _ _ Hs). cbn [last].
  rewrite (split_without _ _ Hq). cbn [hd].
  destruct file as [|c file]; [cbn [length] in Hl; lia|]. cbn [truthy negb orb].
  apply Nat.ltb_ge in Hl. now rewrite Hl.
Qed.

Lemma downloadFilename_query (dir file query linkText : str) :
  includes "/" file = false ->
  includes "?" file = false ->
  includes "/" query = false ->
  5 <= length file ->
  downloadFilename (dir ++ "/" ++ file ++ "?" ++ query) linkText = file.
Proof.
  intros Hs Hq Hsq Hl. unfold downloadFilename.
  change (lit "/") with ["/"%char] in *. change (lit "?") with ["?"%char] in *.
  change (dir ++ ["/"%char] ++ file ++ ["?"%char] ++ query)
    with (dir ++ "/"%char :: (file ++ "?"%char :: query)).
  rewrite last_split_app.
  assert (Hn : includes ["/"%char] (file ++ "?"%char :: query) = false).
  { rewrite includes_char_app, Hs, includes_char_cons, Hsq. reflexivity. }
  rewrite (split_without _ _ Hn). cbn [last].
  rewrite (hd_split_app _ _ _ Hq).
  destruct file as [|c file]; [cbn [length] in Hl; lia|]. cbn [truthy negb orb].
  apply Nat.ltb_ge in Hl. now rewrite Hl.
Qed.

End DownloadNameFacts.

(** X10.  A link whose URL ends in a path segment of five characters or more
    is saved under that segment: the directories before it and a query string
    after it are dropped, and the text of the link plays no part. *)
Theorem X10_saved_under_last_segment (dir file query linkText : str) :
  includes "/" file = false ->
  includes "?" file = false ->
  includes "/" query = false ->
  5 <= length file ->
  downloadFilename (dir ++ "/" ++ file) linkText = file /\
  downloadFilename (dir ++ "/" ++ file ++ "?" ++ query) linkText = file.
Proof.
  intros Hs Hq Hsq Hl. split.
  - now apply downloadFilename_segment.
  - now apply downloadFilename_query.
Qed.

Lemma X10_witness :
  downloadFilename "https://a1.mzstatic.com/us/r1000/063/Music/cover.jpg?v=2"
    "HD"
  = "cover.jpg".
Proof.
  apply (X10_saved_under_last_segment
           "https://a1.mzstatic.com/us/r1000/063/Music" "cover.jpg" "v=2" "HD");
    [reflexivity | reflexivity | reflexivity | vm_compute; lia].
Defined.

(** X11.  The name a link is saved under has at least four characters, and
    when the text of the link holds no [/] and no [?] the name holds none
    either. *)
Theorem X11_saved_name_is_a_file_name (url linkText : str) :
  includes "/" linkText = false ->
  includes "?" linkText = false ->
  4 <= length (downloadFilename url linkText) /\
  includes "/" (downloadFilename url linkText) = false /\
  includes "?" (downloadFilename url linkText) = false.
Proof.
  intros Hs Hq. unfold downloadFilename.
  change (lit "/") with ["/"%char] in *. change (lit "?") with ["?"%char] in *.
  destruct (last_split_suffix "/" url) as (front & _ & Hseg).
  set (seg := last (split "/" url) []) in *.
  destruct (hd_split_prefix "?" seg) as (rest & Eseg & Hname).
  set (name := hd [] (split "?" seg)) in *.
  destruct (negb (truthy name) || (length name <? 5)) eqn:Hc.
  - rewrite length_app, !includes_char_app, Hs, Hq.
    destruct (endsWith ".png" url); repeat split; try reflexivity;
      cbn [length lit list_ascii_of_string]; lia.
  - apply orb_false_iff in Hc as [_ Hl]. apply Nat.ltb_ge in Hl.
    split; [lia|]. split; [|exact Hname].
    rewrite Eseg, includes_char_app in Hseg.
    now apply orb_false_iff in Hseg as [Hseg _].
Qed.

Lemma X11_witness :
  4 <= length (downloadFilename "https://a1.mzstatic.com/us/r1000/063/a/b?x/y"
                 "HD").
Proof.
  apply (X11_saved_name_is_a_file_name
           "https://a1.mzstatic.com/us/r1000/063/a/b?x/y" "HD");
    reflexivity.
Defined.

(** X12.  The sized links of a standard thumbnail are saved under the size
    alone: the file of the link of size [n] is called [nxn-999.jpg], or
    [nxn-999.png] in a PNG search, whatever the artwork. *)
Theorem X12_sized_link_saved_under_its_size
    (usePng : bool) (front linkText : str) (size : N) :
  hasSizeToken front = false ->
  downloadFilename
    (fixArtworkUrl usePng (front ++ "/100x100bb.jpg") size) linkText
  = numberToString size ++ "x" ++ numberToString size ++ "-999"
      ++ ext usePng.
Proof.
  intros Hf. rewrite (fixArtworkUrl_thumbnail usePng front size Hf).
  unfold newToken. rewrite <- !app_assoc.
  pose proof (numberToString_digits size) as Hd.
  apply downloadFilename_segment.
  - change (lit "/") with ["/"%char].
    rewrite !includes_char_app, (digits_no_char "/" _ eq_refl Hd).
    now destruct usePng.
  - change (lit "?") with ["?"%char].
    rewrite !includes_char_app, (digits_no_char "?" _ eq_refl Hd).
    now destruct usePng.
  - rewrite !length_app. destruct usePng; cbn [ext length lit list_ascii_of_string]; lia.
Qed.

Lemma X12_witness :
  downloadFilename
    (fixArtworkUrl true
       "https://is1-ssl.mzstatic.com/image/thumb/Music/v4/ab/cd/cover.jpg/100x100bb.jpg"
       600) "600"
  = "600x600-999.png".
Proof.
  apply (X12_sized_link_saved_under_its_size true
           "https://is1-ssl.mzstatic.com/image/thumb/Music/v4/ab/cd/cover.jpg"
           "600" 600).
  reflexivity.
Defined.

(** ** Requests *)

Section RequestFacts.

Lemma sameName_eq (a b : str) : sameName a b = true -> a = b.
Proof.
  revert b. induction a as [|x a IH]; intros [|y b] H;
    try discriminate; [reflexivity|].
  cbn [sameName] in H. apply andb_true_iff in H as [Hx H].
  apply Ascii.eqb_eq in Hx. subst. f_equal. now apply IH.
Qed.

Lemma buildUrl_pairs (windowAttribute term country : str) (entity : Entity) :
  buildUrl windowAttribute term entity country
  = [(lit "country", country); (lit "limit", lit "60")]
    ++ match buildUrlMediaMap entity with
       | Some (media, mapped) => [(lit "media", media); (lit "entity", mapped)]
       | None => []
       end
    ++ (if truthy windowAttribute
        then [(lit "attribute", windowAttribute)] else [])
    ++ [(lit "term", term); (lit "callback", lit "handleApiResponse")].
Proof.
  destruct entity, windowAttribute; reflexivity.
Qed.

Lemma fetchResultsProxy_pairs
    (windowAttribute term country : str) (entity : Entity) :
  fetchResultsProxy windowAttribute term entity country
  = [(lit "term", term); (lit "country", country); (lit "limit", lit "60")]
    ++ match proxyMediaMap entity with
       | Some (media, mapped) => [(lit "media", media); (lit "entity", mapped)]
       | None => [(lit "media", lit "music");
                  (lit "entity", entityName entity)]
       end
    ++ (if truthy windowAttribute
        then [(lit "attribute", windowAttribute)] else []).
Proof.
  destruct entity, windowAttribute; reflexivity.
Qed.

End RequestFacts.

(** X13.  What reaches the iTunes search API through the relay, for a search
    that [fetchResultsProxy] sends: the entity, its media type and the limit
    60 always; the term, the country and the attribute only when they are not
    empty.  Television seasons are asked for with the media type [music]. *)
Theorem X13_relay_forwards_search
    (windowAttribute term country : str) (entity : Entity) :
  handler (fun name =>
             get name (fetchResultsProxy windowAttribute term entity country))
  = (if truthy term then [(lit "term", term)] else [])
    ++ [(lit "entity", entityName entity)]
    ++ (if truthy country then [(lit "country", country)] else [])
    ++ [(lit "media",
         match entity with
         | audiobook => lit "audiobook"
         | ebook => lit "ebook"
         | movie => lit "movie"
         | software => lit "software"
         | album | song | tvSeason => lit "music"
         end)]
    ++ (if truthy windowAttribute
        then [(lit "attribute", windowAttribute)] else [])
    ++ [(lit "limit", lit "60")].
Proof.
  destruct entity, term, country, windowAttribute; reflexivity.
Qed.

(** X14.  [buildUrl] and [fetchResultsProxy] ask for the same search: every
    parameter of the one has the same value in the other, except for the
    [callback] that only [buildUrl] adds and for the media type of a
    television season, which is [tvShow] in [buildUrl] and [music] in
    [fetchResultsProxy]. *)
Theorem X14_buildUrl_and_proxy_parameters
    (windowAttribute term country name : str) (entity : Entity) :
  get name (buildUrl windowAttribute term entity country)
  = (if sameName "callback" name then Some (lit "handleApiResponse")
     else if sameName "media" name
             && match entity with tvSeason => true | _ => false end
     then Some (lit "tvShow")
     else get name (fetchResultsProxy windowAttribute term entity country))
  /\ get "media" (fetchResultsProxy windowAttribute term tvSeason country)
     = Some (lit "music").
Proof.
  split; [|now destruct windowAttribute].
  assert (Hkeys : forall k : str,
            sameName k name = true -> name = k)
    by (intros k H; symmetry; now apply sameName_eq).
  destruct (sameName "callback" name) eqn:Ecb.
  { apply Hkeys in Ecb. subst name.
    destruct entity, windowAttribute; reflexivity. }
  destruct (sameName "media" name) eqn:Em.
  { apply Hkeys in Em. subst name.
    destruct entity, windowAttribute; reflexivity. }
  cbn [andb].
  destruct (sameName "term" name) eqn:Et.
  { apply Hkeys in Et. subst name.
    destruct entity, windowAttribute; reflexivity. }
  destruct (sameName "country" name) eqn:Ec.
  { apply Hkeys in Ec. subst name.
    destruct entity, windowAttribute; reflexivity. }
  destruct (sameName "limit" name) eqn:El.
  { apply Hkeys in El. subst name.
    destruct entity, windowAttribute; reflexivity. }
  destruct (sameName "entity" name) eqn:Ee.
  { apply Hkeys in Ee. subst name.
    destruct entity, windowAttribute; reflexivity. }
  destruct (sameName "attribute" name) eqn:Ea.
  { apply Hkeys in Ea. subst name.
    destruct entity, windowAttribute; reflexivity. }
  rewrite buildUrl_pairs, fetchResultsProxy_pairs.
  destruct entity, windowAttribute;
    cbn [buildUrlMediaMap proxyMediaMap truthy app get];
    rewrite ?Ecb, ?Em, ?Et, ?Ec, ?El, ?Ee, ?Ea; reflexivity.
Qed.

Section RelayFacts.

Lemma handler_pairs (query : str -> option str) :
  let copy (name : string) :=
    match query name with
    | Some v => if truthy v then [(lit name, v)] else []
    | None => []
    end in
  handler query
  = copy "term" ++ copy "entity" ++ copy "country" ++ copy "media"
    ++ copy "attribute"
    ++ [(lit "limit",
         match query "limit" with
         | Some v => if truthy v then v else lit "60"
         | None => lit "60"
         end)].
Proof.
  cbv zeta. unfold handler. cbv zeta.
  destruct (query "term") as [[|? ?]|]; cbn [truthy];
    destruct (query "entity") as [[|? ?]|]; cbn [truthy];
    destruct (query "country") as [[|? ?]|]; cbn [truthy];
    destruct (query "media") as [[|? ?]|]; cbn [truthy];
    destruct (query "attribute") as [[|? ?]|]; cbn [truthy];
    reflexivity.
Qed.

End RelayFacts.

(** X15.  The relay passes on nothing but the six parameters it knows: a
    parameter of its request to iTunes is one of [term], [entity], [country],
    [media] and [attribute] with the non-empty value it was given, or it is
    [limit], with the value it was given or [60]. *)
Theorem X15_relay_forwards_only_known_parameters
    (query : str -> option str) (name v : str) :
  In (name, v) (handler query) ->
  (In name [lit "term"; lit "entity"; lit "country"; lit "media";
            lit "attribute"] /\
   query name = Some v /\ truthy v = true) \/
  (name = "limit" /\
   (query "limit" = Some v /\ truthy v = true \/ v = "60")).
Proof.
  rewrite handler_pairs. cbv zeta. intros H.
  assert (Hcopy : forall k : string,
            In (name, v)
              match query k with
              | Some v0 => if truthy v0 then [(lit k, v0)] else []
              | None => []
              end ->
            name = lit k /\ query name = Some v /\ truthy v = true).
  { intros k Hk. destruct (query k) as [v0|] eqn:E; [|destruct Hk].
    destruct (truthy v0) eqn:Et; [|destruct Hk].
    destruct Hk as [Hk|[]]. injection Hk as <- <-. now rewrite E. }
  repeat (apply in_app_or in H as [H|H];
          [left; destruct (Hcopy _ H) as (-> & Hq & Ht);
           split; [cbn [In]; tauto|now split]|]).
  clear Hcopy. right. destruct H as [H|[]].
  remember (query "limit") as given eqn:Eg.
  injection H as <- <-.
  split; [reflexivity|].
  destruct given as [v0|]; [|now right].
  destruct (truthy v0) eqn:Et;
    [left; split; [reflexivity|exact Et] | right; reflexivity].
Qed.

Lemma X15_witness :
  let query := fun name : str =>
    if sameName name "term" then Some (lit "abba")
    else if sameName name "callback" then Some (lit "run") else None in
  (In (lit "term")
     [lit "term"; lit "entity"; lit "country"; lit "media"; lit "attribute"]
   /\ query "term" = Some (lit "abba") /\ truthy "abba" = true) \/
  (lit "term" = "limit" /\
   (query "limit" = Some (lit "abba") /\ truthy "abba" = true \/
    lit "abba" = "60")).
Proof.
  cbv zeta.
  apply (X15_relay_forwards_only_known_parameters
           (fun name : str =>
              if sameName name "term" then Some (lit "abba")
              else if sameName name "callback" then Some (lit "run")
                   else None)
           "term" "abba").
  vm_compute. tauto.
Defined.

(** ** The enlarged artwork *)

Section ModalFacts.

Lemma noSlash_prefix (w u q r : str) :
  forallb notSlash w = true ->
  u ++ "/"%char :: q = w ++ r ->
  exists u', u = w ++ u'.
Proof.
  revert u. induction w as [|c w IH]; intros u Hw E; [now exists u|].
  cbn [forallb] in Hw. apply andb_true_iff in Hw as [Hc Hw].
  destruct u as [|d u]; cbn [app] in E.
  - injection E as <- _. discriminate Hc.
  - injection E as -> E. destruct (IH u Hw E) as [u' ->]. now exists u'.
Qed.

Lemma digits_notSlash (a : str) :
  forallb isDigit a = true -> forallb notSlash a = true.
Proof.
  induction a as [|c a IH]; [reflexivity|]. cbn [forallb].
  intros H. apply andb_true_iff in H as [Hc H]. rewrite (IH H), andb_true_r.
  unfold notSlash. destruct (Ascii.eqb c "/") eqn:E; [|reflexivity].
  apply Ascii.eqb_eq in E. subst c. discriminate Hc.
Qed.

Lemma suffix_last (s p t : str) (c : ascii) :
  s ++ [c] = p ++ t -> t <> [] -> exists t', t = t' ++ [c].
Proof.
  intros E Hn. destruct (exists_last Hn) as (t' & d & ->).
  rewrite app_assoc in E. apply app_inj_tail in E as [_ ->]. now exists t'.
Qed.

(** The digits, [x] and the same digits: where they stand, the pattern of
    [hasSquareToken] matches. *)
Lemma square_complete {R} (k : str -> @cont R) (a rest : str) :
  a <> [] -> forallb isDigit a = true ->
  k a rest <> None ->
  capture (plus isDigit) k (a ++ rest) <> None.
Proof.
  intros Hn Hd Hk. unfold capture.
  apply plus_complete; [exact Hn|exact Hd|].
  rewrite length_app, Nat.add_sub, firstn_app, Nat.sub_diag, firstn_all.
  cbn [firstn]. now rewrite app_nil_r.
Qed.

Lemma square_inv {R} (k : str -> @cont R) (s : str) (r : R) :
  capture (plus isDigit) k s = Some r ->
  exists a rest,
    s = a ++ rest /\ (a <> [] /\ forallb isDigit a = true) /\
    k a rest = Some r.
Proof.
  apply capture_inv. intros k' r' H.
  apply plus_inv in H as (a & rest & -> & Hn & Hd & Hk).
  now exists a, rest.
Qed.

Lemma hasSquareToken_none (pre p1 a rest : str) :
  hasSquareToken pre = false ->
  a <> [] -> forallb isDigit a = true ->
  pre <> p1 ++ a ++ "x" ++ a ++ rest.
Proof.
  unfold hasSquareToken. intros H Hn Hd ->.
  match type of H with
  | match search ?m _ with _ => _ end = _ =>
      assert (Hs : search m (p1 ++ a ++ "x" ++ a ++ rest) <> None)
  end.
  { apply search_complete, square_complete; [exact Hn|exact Hd|].
    rewrite (lits_app "x"), lits_app. discriminate. }
  destruct (search _ _); [discriminate|congruence].
Qed.

(** A pattern that begins with digits, [x] and the same digits matches
    nowhere before the last slash of a text without a square token. *)
Lemma no_square_before (m : @cont hit) (d pre tail : str) :
  hasSquareToken pre = false ->
  d <> [] -> forallb isDigit d = true ->
  (forall t r, m t = Some r -> startsWith (d ++ "x" ++ d) t = true) ->
  forall p1 t1, pre ++ "/" = p1 ++ t1 -> t1 <> [] -> m (t1 ++ tail) = None.
Proof.
  intros Hsq Hn Hd Hm p1 t1 E Ht.
  destruct (m (t1 ++ tail)) as [r|] eqn:Em; [exfalso|reflexivity].
  apply Hm, startsWith_inv in Em as [rest Er].
  destruct (suffix_last _ _ _ _ E Ht) as [u ->].
  rewrite app_assoc in E. apply app_inj_tail in E as [E _].
  rewrite <- app_assoc in Er. cbn [app] in Er.
  assert (Hw : forallb notSlash (d ++ "x" ++ d) = true).
  { rewrite !forallb_app, (digits_notSlash d Hd). reflexivity. }
  destruct (noSlash_prefix _ _ _ _ Hw Er) as [u' ->].
  apply (hasSquareToken_none pre p1 d u' Hsq Hn Hd).
  now rewrite E, <- !app_assoc.
Qed.

Lemma squareToken_starts (t : str) (r : hit) :
  squareToken t = Some r ->
  exists a rest,
    t = a ++ "x" ++ a ++ rest /\ a <> [] /\ forallb isDigit a = true.
Proof.
  unfold squareToken. intros H.
  apply square_inv in H as (a & rest & -> & [Hn Hd] & H).
  apply lits_inv in H as (rest1 & -> & H).
  apply lits_inv in H as (rest2 & -> & _).
  now exists a, rest2.
Qed.

(** The preview of a standard thumbnail gives the thumbnail back, less its
    marker and extension. *)
Lemma squareToken_preview (usePng : bool) (pre : str) :
  hasSquareToken pre = false ->
  replace squareToken (pre ++ "/300x300-999" ++ ext usePng)
  = pre ++ "/100x100".
Proof.
  intros Hsq.
  change (pre ++ "/300x300-999" ++ ext usePng)
    with (pre ++ "/" ++ ("300x300-999" ++ ext usePng)).
  rewrite app_assoc.
  change (pre ++ "/100x100") with (pre ++ "/" ++ "100x100" ++ []).
  rewrite (app_assoc pre).
  apply replace_first; [now destruct usePng|].
  intros p1 t1 E Ht.
  destruct (squareToken (t1 ++ "300x300-999" ++ ext usePng)) as [r|] eqn:Em;
    [exfalso|reflexivity].
  apply squareToken_starts in Em as (a & rest & Er & Hn & Hd).
  destruct (suffix_last _ _ _ _ E Ht) as [u ->].
  rewrite app_assoc in E. apply app_inj_tail in E as [E _].
  rewrite <- app_assoc in Er. cbn [app] in Er.
  assert (Hw : forallb notSlash (a ++ "x" ++ a) = true).
  { rewrite !forallb_app, (digits_notSlash a Hd). reflexivity. }
  rewrite (app_assoc a), (app_assoc (a ++ "x")), <- (app_assoc a) in Er.
  destruct (noSlash_prefix _ _ _ _ Hw Er) as [u' ->].
  apply (hasSquareToken_none pre p1 a u' Hsq Hn Hd).
  now rewrite E, <- !app_assoc.
Qed.

Lemma no_square_literal (d pre : str) (c : ascii) (p : str) :
  hasSquareToken pre = false ->
  d <> [] -> forallb isDigit d = true ->
  d ++ "x" ++ d = p ++ [c] ->
  includes (p ++ [c]) ((pre ++ "/") ++ p) = false.
Proof.
  intros Hsq Hn Hd Ep.
  destruct (includes (p ++ [c]) ((pre ++ "/") ++ p)) eqn:Hi; [exfalso|reflexivity].
  apply includes_inv in Hi as (a & b & E).
  assert (Hw : forallb notSlash (d ++ "x" ++ d) = true).
  { rewrite !forallb_app, (digits_notSlash d Hd). reflexivity. }
  rewrite <- Ep in E. rewrite <- app_assoc in E.
  apply app_eq_app in E as [l [[E1 E2]|[E1 E2]]].
  - change ("/" ++ p) with ("/"%char :: p) in E2. symmetry in E2.
    destruct (noSlash_prefix _ _ _ _ Hw E2) as [u' ->].
    apply (hasSquareToken_none pre a d u' Hsq Hn Hd).
    now rewrite E1, <- !app_assoc.
  - destruct l as [|x l].
    + destruct d as [|c0 d]; [congruence|].
      cbn [app] in E2. change (lit "/" ++ p) with ("/"%char :: p) in E2.
      injection E2 as <- _. discriminate Hd.
    + apply (f_equal (@length ascii)) in E2.
      apply (f_equal (@length ascii)) in Ep.
      rewrite !length_app in E2. rewrite !length_app in Ep.
      cbn [length lit list_ascii_of_string] in E2, Ep. lia.
Qed.

Lemma marker_not_ext (pre a e : str) :
  In e imageExts -> pre ++ "10000x10000-999" <> a ++ e.
Proof.
  intros He E. apply (f_equal (@rev ascii)) in E.
  rewrite !rev_app_distr in E.
  unfold imageExts in He. cbn [In] in He.
  destruct He as [<-|[<-|[<-|[<-|[]]]]]; cbn in E; discriminate E.
Qed.

(** The movie branch on a thumbnail that ends with the size. *)
Lemma movieHdUrl_bare (usePng : bool) (pre : str) :
  includes "100x100" (pre ++ "100x10") = false ->
  movieHdUrl usePng (pre ++ "100x100")
  = pre ++ "10000x10000-999" ++ ext usePng.
Proof.
  intros Hfirst. unfold movieHdUrl. cbv zeta.
  pose proof (replace_literal_first "100x10" "0" "10000x10000-999" pre []
                eq_refl Hfirst) as H1.
  rewrite !app_nil_r in H1.
  change (lit "100x10" ++ lit "0") with (lit "100x100") in H1.
  rewrite H1. clear H1.
  set (X := pre ++ "10000x10000-999").
  assert (H2 : replace bbBeforeExt X = X).
  { apply replace_none. intros a t E.
    destruct (bbBeforeExt t) as [[new rest]|] eqn:Em; [exfalso|reflexivity].
    apply bbBeforeExt_inv in Em as (e & -> & He & _).
    rewrite app_assoc in E. exact (marker_not_ext _ _ _ He E). }
  assert (H3 : endsWith ".jpg" X = false).
  { destruct (endsWith ".jpg" X) eqn:E; [exfalso|reflexivity].
    apply endsWith_inv in E as [a E].
    apply (marker_not_ext pre a ".jpg"); [cbn; tauto|exact E]. }
  assert (H4 : replace otherExtAtEnd X = X).
  { apply replace_none. intros a t E.
    destruct (otherExtAtEnd t) as [[new rest]|] eqn:Em; [exfalso|reflexivity].
    apply otherExtAtEnd_inv in Em as (He & _).
    exact (marker_not_ext _ _ _ He E). }
  rewrite H2, H3. cbn [negb]. rewrite H4, H3. cbn [negb].
  unfold X. rewrite <- app_assoc.
  destruct usePng; cbn [ext]; [|reflexivity].
  rewrite app_assoc. unfold jpgAtEnd. rewrite replace_suffix.
  now rewrite <- app_assoc.
Qed.

Lemma newToken_300 : newToken 300 = "/300x300-999".
Proof. reflexivity. Qed.

Lemma newToken_10000 : newToken 10000 = "/10000x10000-999".
Proof. reflexivity. Qed.

Lemma preview_thumbnail (usePng : bool) (pre : str) :
  hasSizeToken pre = false ->
  artworkUrl300 usePng (pre ++ "/100x100bb.jpg")
  = pre ++ "/300x300-999" ++ ext usePng.
Proof.
  intros H. unfold artworkUrl300.
  now rewrite (fixArtworkUrl_thumbnail usePng pre 300 H), newToken_300.
Qed.

End ModalFacts.

(** X16.  The modal computes its image from the source that the browser
    reports for the clicked preview.  For a movie or a television season
    whose preview reads [pre], [/300x300-999] and [.jpg] or [.png], with no
    run of digits, [x] and the same digits in [pre], that image is [pre],
    [/10000x10000-999] and the extension of [window.usePng]: the format of
    the preview plays no part.  It is the HD link of the thumbnail [pre]
    with [/100x100bb.jpg], computed with [window.usePng]; and a card with
    that thumbnail, when [pre] holds no size token, writes its preview in the
    shape above. *)
Theorem X16_film_modal_shows_hd_link
    (usePng windowUsePng : bool) (pre : str) :
  hasSquareToken pre = false ->
  let imgSrc := pre ++ "/300x300-999" ++ ext usePng in
  largeSrc ("result" ++ cssClass movie) windowUsePng imgSrc
  = pre ++ "/10000x10000-999" ++ ext windowUsePng /\
  largeSrc ("result" ++ cssClass tvSeason) windowUsePng imgSrc
  = pre ++ "/10000x10000-999" ++ ext windowUsePng /\
  movieHdUrl windowUsePng (pre ++ "/100x100bb.jpg")
  = pre ++ "/10000x10000-999" ++ ext windowUsePng /\
  tvHdUrl windowUsePng (pre ++ "/100x100bb.jpg")
  = pre ++ "/10000x10000-999" ++ ext windowUsePng /\
  (hasSizeToken pre = false ->
   artworkUrl300 usePng (pre ++ "/100x100bb.jpg") = imgSrc).
Proof.
  intros Hsq. cbv zeta.
  pose proof (no_square_literal "100" pre "0" "100x10" Hsq
                ltac:(discriminate) eq_refl eq_refl) as Hfirst.
  change (lit "100x10" ++ ["0"%char]) with (lit "100x100") in Hfirst.
  assert (Hcard : movieHdUrl windowUsePng (pre ++ "/100x100bb.jpg")
                  = pre ++ "/10000x10000-999" ++ ext windowUsePng).
  { pose proof (movieHdUrl_shape windowUsePng (pre ++ "/") Hfirst) as H.
    rewrite <- !app_assoc in H. exact H. }
  assert (Hmodal : forall e, e = movie \/ e = tvSeason ->
            largeSrc ("result" ++ cssClass e) windowUsePng
              (pre ++ "/300x300-999" ++ ext usePng)
            = pre ++ "/10000x10000-999" ++ ext windowUsePng).
  { intros e He.
    transitivity (movieHdUrl windowUsePng
                    (replace squareToken
                       (pre ++ "/300x300-999" ++ ext usePng))).
    { destruct He as [-> | ->]; reflexivity. }
    rewrite (squareToken_preview usePng pre Hsq).
    pose proof (movieHdUrl_bare windowUsePng (pre ++ "/") Hfirst) as H.
    rewrite <- !app_assoc in H. exact H. }
  split; [apply Hmodal; now left|].
  split; [apply Hmodal; now right|].
  split; [exact Hcard|]. split; [exact Hcard|].
  intros Hsz. now apply preview_thumbnail.
Qed.

Lemma X16_witness :
  largeSrc ("result" ++ cssClass movie) false
    ("https://is1-ssl.mzstatic.com/image/thumb/Video/v4/ab/cd/poster.jpg"
       ++ "/300x300-999" ++ ext true)
  = "https://is1-ssl.mzstatic.com/image/thumb/Video/v4/ab/cd/poster.jpg"
      ++ "/10000x10000-999" ++ ext false.
Proof.
  apply (X16_film_modal_shows_hd_link true false
           "https://is1-ssl.mzstatic.com/image/thumb/Video/v4/ab/cd/poster.jpg").
  reflexivity.
Defined.

Section AlbumModalFacts.

Lemma starGroup_lits_inv {R} (fuel : nat) (x : str) (k : @cont R)
    (s : str) (r : R) :
  starGroup fuel (lits x) (eos k) s = Some r ->
  exists n, s = concat (repeat x n).
Proof.
  revert s. induction fuel as [|fuel IH]; intros s H; cbn [starGroup] in H.
  - apply eos_inv in H as [-> _]. now exists 0.
  - destruct (lits x (starGroup fuel (lits x) (eos k)) s) as [r'|] eqn:E.
    + injection H as ->.
      apply lits_inv in E as (rest & -> & E).
      destruct (IH _ E) as [n ->]. now exists (S n).
    + apply eos_inv in H as [-> _]. now exists 0.
Qed.

Lemma repeat_snoc (x : str) (n : nat) :
  concat (repeat x (S n)) = concat (repeat x n) ++ x.
Proof.
  induction n as [|n IH]; [cbn; now rewrite app_nil_r|].
  change (concat (repeat x (S (S n)))) with (x ++ concat (repeat x (S n))).
  rewrite IH at 1. now rewrite app_assoc.
Qed.

(** A match of the marker pattern is a run of markers. *)
Lemma markerRun_inv (s : str) (r : hit) :
  markerRun s = Some r ->
  exists n, s = concat (repeat (lit "-999.jpg") n) ++ "-999.jpg".
Proof.
  unfold markerRun, plusGroup. intros H.
  apply lits_inv in H as (rest & -> & H).
  apply starGroup_lits_inv in H as [n ->].
  change (lit "-999.jpg" ++ concat (repeat (lit "-999.jpg") n))
    with (concat (repeat (lit "-999.jpg") (S n))).
  rewrite repeat_snoc. now exists n.
Qed.

Lemma repeat_before_two (x t : str) (n : nat) :
  t <> [] ->
  concat (repeat x n) ++ x = t ++ x ++ x ->
  exists z, t = z ++ x.
Proof.
  intros Ht E. rewrite app_assoc in E. apply app_inv_tail in E.
  destruct n as [|n].
  { destruct t; [congruence|discriminate E]. }
  rewrite repeat_snoc in E. apply app_inv_tail in E.
  destruct n as [|n].
  { cbn in E. congruence. }
  rewrite repeat_snoc in E. exists (concat (repeat x n)). now symmetry.
Qed.

Lemma previewSize_starts (t : str) (r : hit) :
  previewSize t = Some r -> startsWith ("300" ++ "x" ++ "300") t = true.
Proof.
  unfold previewSize. intros H.
  apply alt_inv in H as [H|H]; [|apply alt_inv in H as [H|H];
                                  [|apply alt_inv in H as [H|H]]];
    apply lits_inv in H as (rest & -> & _); reflexivity.
Qed.

Lemma previewSize_preview (usePng : bool) (pre : str) :
  hasSquareToken pre = false ->
  replace previewSize (pre ++ "/300x300-999" ++ ext usePng)
  = pre ++ "/10000x10000-999.jpg-999" ++ ext usePng.
Proof.
  intros Hsq.
  change (pre ++ "/300x300-999" ++ ext usePng)
    with (pre ++ "/" ++ ("300x300-999" ++ ext usePng)).
  rewrite app_assoc.
  change (pre ++ "/10000x10000-999.jpg-999" ++ ext usePng)
    with (pre ++ "/" ++ "10000x10000-999.jpg" ++ ("-999" ++ ext usePng)).
  rewrite (app_assoc pre).
  apply replace_first; [reflexivity|].
  apply (no_square_before previewSize "300" pre _ Hsq);
    [discriminate|reflexivity|exact previewSize_starts].
Qed.

Lemma markerRun_jpg (pre : str) :
  replace markerRun (pre ++ "/10000x10000-999.jpg-999.jpg")
  = pre ++ "/10000x10000-999.jpg".
Proof.
  change (pre ++ "/10000x10000-999.jpg-999.jpg")
    with (pre ++ "/10000x1000" ++ ["0"%char] ++ "-999.jpg-999.jpg").
  change (pre ++ "/10000x10000-999.jpg")
    with (pre ++ "/10000x1000" ++ ["0"%char] ++ "-999.jpg" ++ []).
  rewrite !(app_assoc pre), !(app_assoc (pre ++ _)).
  apply replace_first; [reflexivity|].
  intros p1 t1 E Ht.
  destruct (markerRun (t1 ++ "-999.jpg-999.jpg")) as [r|] eqn:Em;
    [exfalso|reflexivity].
  destruct (suffix_last _ _ _ _ E Ht) as [u ->].
  apply markerRun_inv in Em as (n & En). symmetry in En.
  change (lit "-999.jpg-999.jpg") with ("-999.jpg" ++ lit "-999.jpg") in En.
  apply repeat_before_two in En as [z Ez]; [|now destruct u].
  change (lit "-999.jpg") with ("-999.jp" ++ ["g"%char]) in Ez.
  rewrite app_assoc in Ez. apply app_inj_tail in Ez as [_ Ec].
  discriminate Ec.
Qed.

Lemma ends_png_not_jpg (a b : str) : a ++ ".png" <> b ++ ".jpg".
Proof.
  intros E. apply (f_equal (@rev ascii)) in E.
  rewrite !rev_app_distr in E. discriminate E.
Qed.

Lemma markerRun_png (pre : str) :
  replace markerRun (pre ++ "/10000x10000-999.jpg-999.png")
  = pre ++ "/10000x10000-999.jpg-999.png".
Proof.
  apply replace_none. intros a t E.
  destruct (markerRun t) as [r|] eqn:Em; [exfalso|reflexivity].
  apply markerRun_inv in Em as (n & ->).
  change (pre ++ "/10000x10000-999.jpg-999.png")
    with (pre ++ "/10000x10000-999.jpg-999" ++ ".png") in E.
  change (lit "-999.jpg") with ("-999" ++ lit ".jpg") in E at 2.
  rewrite !app_assoc in E. exact (ends_png_not_jpg _ _ E).
Qed.

Lemma jpgBeforePng_inv (t : str) (r : hit) :
  jpgBeforePng t = Some r ->
  (t = ".jpg.png" \/ t = ".jpg-999.png") /\ r = (lit ".png", []).
Proof.
  unfold jpgBeforePng. intros H.
  apply lits_inv in H as (r1 & -> & H).
  apply alt_inv in H as [H|H].
  - apply lits_inv in H as (r2 & -> & H).
    apply lits_inv in H as (r3 & -> & H).
    apply eos_inv in H as [-> H]. injection H as <-. split; [now right|reflexivity].
  - apply lits_inv in H as (r3 & -> & H).
    apply eos_inv in H as [-> H]. injection H as <-. split; [now left|reflexivity].
Qed.

Lemma jpgBeforePng_jpg (pre : str) :
  replace jpgBeforePng (pre ++ "/10000x10000-999.jpg")
  = pre ++ "/10000x10000-999.jpg".
Proof.
  apply replace_none. intros a t E.
  destruct (jpgBeforePng t) as [r|] eqn:Em; [exfalso|reflexivity].
  apply jpgBeforePng_inv in Em as [[-> | ->] _];
    change (pre ++ "/10000x10000-999.jpg")
      with (pre ++ "/10000x10000-999" ++ ".jpg") in E;
    rewrite !app_assoc in E; symmetry in E.
  - change (lit ".jpg.png") with (".jpg" ++ lit ".png") in E.
    rewrite app_assoc in E. exact (ends_png_not_jpg _ _ E).
  - change (lit ".jpg-999.png") with (".jpg-999" ++ lit ".png") in E.
    rewrite app_assoc in E. exact (ends_png_not_jpg _ _ E).
Qed.

Lemma jpgBeforePng_png (pre : str) :
  replace jpgBeforePng (pre ++ "/10000x10000-999.jpg-999.png")
  = pre ++ "/10000x10000-999.png".
Proof.
  change (pre ++ "/10000x10000-999.jpg-999.png")
    with (pre ++ "/10000x10000-999" ++ ".jpg-999.png").
  change (pre ++ "/10000x10000-999.png")
    with (pre ++ "/10000x10000-999" ++ ".png" ++ []).
  rewrite !(app_assoc pre).
  apply replace_first; [reflexivity|].
  intros p1 t1 _ Ht.
  destruct (jpgBeforePng (t1 ++ ".jpg-999.png")) as [r|] eqn:Em;
    [exfalso|reflexivity].
  apply jpgBeforePng_inv in Em as [[E|E] _];
    apply (f_equal (@length ascii)) in E; rewrite length_app in E;
    destruct t1; [congruence|cbn in E; lia|congruence|cbn in E; lia].
Qed.

End AlbumModalFacts.

(** X17.  For an album, a song, an audiobook or an ebook whose preview the
    browser reports as [pre], [/300x300-999] and [.jpg] or [.png], with no
    run of digits, [x] and the same digits in [pre], the image the modal
    shows is [pre], [/10000x10000-999] and the extension of [window.usePng];
    except when the preview is a [.png] while [window.usePng] is off: then
    the URL ends with [.jpg-999.png].  The regular image is the thumbnail
    [pre] with [/100x100bb.jpg] resized to 10000 with [window.usePng], and a
    card with that thumbnail writes its preview in the shape above, when
    [pre] holds no size token. *)
Theorem X17_album_modal_shows_largest_rendition
    (usePng windowUsePng : bool) (pre : str) (e : Entity) :
  hasSquareToken pre = false ->
  In e [album; song; audiobook; ebook] ->
  let imgSrc := pre ++ "/300x300-999" ++ ext usePng in
  largeSrc ("result" ++ cssClass e) windowUsePng imgSrc
  = (if usePng && negb windowUsePng
     then pre ++ "/10000x10000-999.jpg-999.png"
     else pre ++ "/10000x10000-999" ++ ext windowUsePng) /\
  (hasSizeToken pre = false ->
   artworkUrl300 usePng (pre ++ "/100x100bb.jpg") = imgSrc /\
   fixArtworkUrl windowUsePng (pre ++ "/100x100bb.jpg") 10000
   = pre ++ "/10000x10000-999" ++ ext windowUsePng).
Proof.
  intros Hsq He. cbv zeta. split.
  2:{ intros Hsz. split; [now apply preview_thumbnail|].
      now rewrite (fixArtworkUrl_thumbnail windowUsePng pre 10000 Hsz),
        newToken_10000. }
  transitivity
    (let largeSrc :=
       replace markerRun
         (replace previewSize (pre ++ "/300x300-999" ++ ext usePng)) in
     if windowUsePng then replace jpgAtEnd (replace jpgBeforePng largeSrc)
     else largeSrc).
  { cbn [In] in He. destruct He as [<-|[<-|[<-|[<-|[]]]]]; reflexivity. }
  cbv zeta. rewrite (previewSize_preview usePng pre Hsq).
  destruct usePng, windowUsePng; cbn [ext andb negb];
    change (pre ++ "/10000x10000-999.jpg-999" ++ ".png")
      with (pre ++ "/10000x10000-999.jpg-999.png");
    change (pre ++ "/10000x10000-999.jpg-999" ++ ".jpg")
      with (pre ++ "/10000x10000-999.jpg-999.jpg");
    rewrite ?markerRun_png, ?markerRun_jpg, ?jpgBeforePng_png,
      ?jpgBeforePng_jpg.
  - apply replace_no_suffix.
    change (pre ++ "/10000x10000-999.png")
      with (pre ++ "/10000x10000-999" ++ ".png").
    rewrite app_assoc. apply png_not_jpg, endsWith_app.
  - reflexivity.
  - change (pre ++ "/10000x10000-999.jpg")
      with (pre ++ "/10000x10000-999" ++ ".jpg").
    rewrite app_assoc. unfold jpgAtEnd. rewrite replace_suffix.
    now rewrite <- app_assoc.
  - reflexivity.
Qed.

Lemma X17_witness :
  largeSrc ("result" ++ cssClass album) false
    ("https://is1-ssl.mzstatic.com/image/thumb/Music/v4/ab/cd/cover.jpg"
       ++ "/300x300-999" ++ ext true)
  = "https://is1-ssl.mzstatic.com/image/thumb/Music/v4/ab/cd/cover.jpg/10000x10000-999.jpg-999.png".
Proof.
  apply (X17_album_modal_shows_largest_rendition true false
           "https://is1-ssl.mzstatic.com/image/thumb/Music/v4/ab/cd/cover.jpg"
           album);
    [reflexivity | simpl; tauto].
Defined.

(** X18.  For an app whose preview the browser reports as a CDN thumb URL,
    [https://], a host, the marker, a path, [/300x300-999] and [.jpg] or
    [.png] (host and path on one line, the marker first met after the host,
    no run of digits, [x] and the same digits before the size), the image
    the modal shows is the path re-rooted under [hdPrefix], less the [bb] of
    its last segment, with a final [.jpg] turned into [.png] when
    [window.usePng] is on.  It is the HD link of the thumbnail with
    [/100x100bb.jpg] for the size, computed with [window.usePng], and the
    card of that thumbnail writes its preview in the shape above, when no
    size token stands before the size. *)
Theorem X18_app_modal_shows_hd_link
    (usePng windowUsePng : bool) (host path : str) :
  forallb dot host = true ->
  forallb dot path = true ->
  includes ".mzstatic.com/image/thumb/" (host ++ ".mzstatic.com/image/thumb")
  = false ->
  hasSquareToken ("https://" ++ host ++ ".mzstatic.com/image/thumb/" ++ path)
  = false ->
  let front := "https://" ++ host ++ ".mzstatic.com/image/thumb/" ++ path in
  let imgSrc := front ++ "/300x300-999" ++ ext usePng in
  let stripped := replace bbInLastSegment (hdPrefix ++ path) in
  largeSrc ("result" ++ cssClass software) windowUsePng imgSrc
  = (if windowUsePng then replace jpgAtEnd stripped else stripped) /\
  (hasSizeToken front = false ->
   artworkUrl300 usePng (front ++ "/100x100bb.jpg") = imgSrc /\
   appHdUrl windowUsePng (front ++ "/100x100bb.jpg")
   = (if windowUsePng then replace jpgAtEnd stripped else stripped)).
Proof.
  intros Hhost Hpath Hfirst Hsq. cbv zeta.
  set (front := "https://" ++ host ++ ".mzstatic.com/image/thumb/" ++ path)
    in *.
  assert (Hcdn : forall b,
            replaceAtStart cdnThumb (front ++ newToken 10000 ++ ext b)
            = hdPrefix ++ path).
  { intros b. unfold replaceAtStart, front. rewrite <- !app_assoc.
    rewrite (cdnThumb_thumbnail b host path Hhost Hpath Hfirst).
    apply app_nil_r. }
  split.
  2:{ intros Hsz. split; [now apply preview_thumbnail|].
      unfold appHdUrl. cbv zeta.
      now rewrite (fixArtworkUrl_thumbnail windowUsePng front 10000 Hsz),
        Hcdn. }
  transitivity
    (let largeSrc :=
       replace (lits "100x100" (ret "10000x10000-999.jpg"))
         (replace squareToken (front ++ "/300x300-999" ++ ext usePng)) in
     let largeSrc := replaceAtStart cdnThumb largeSrc in
     let largeSrc := replace bbInLastSegment largeSrc in
     if windowUsePng then replace jpgAtEnd largeSrc else largeSrc);
    [reflexivity|].
  cbv zeta. rewrite (squareToken_preview usePng front Hsq).
  pose proof (no_square_literal "100" front "0" "100x10" Hsq
                ltac:(discriminate) eq_refl eq_refl) as Hlit.
  pose proof (replace_literal_first "100x10" "0" "10000x10000-999.jpg"
                (front ++ "/") [] eq_refl Hlit) as H1.
  rewrite <- !app_assoc in H1. rewrite !app_nil_r in H1.
  change (front ++ "/" ++ "100x10" ++ "0") with (front ++ "/100x100") in H1.
  change (lit "100x10" ++ lit "0") with (lit "100x100") in H1.
  rewrite H1.
  change (front ++ "/" ++ "10000x10000-999.jpg")
    with (front ++ newToken 10000 ++ ext false).
  now rewrite Hcdn.
Qed.

Lemma X18_witness :
  largeSrc ("result" ++ cssClass software) true
    (("https://" ++ "is1-ssl" ++ ".mzstatic.com/image/thumb/"
        ++ "Purple/v4/ab/cd/AppIcon.png") ++ "/300x300-999" ++ ext false)
  = "https://a1.mzstatic.com/us/r1000/063/Purple/v4/ab/cd/AppIcon.png".
Proof.
  apply (X18_app_modal_shows_hd_link false true "is1-ssl"
           "Purple/v4/ab/cd/AppIcon.png");
    reflexivity.
Defined.

(** ** Loading the page and submitting the form *)

Section PageFacts.

Lemma parse_url_branch (rawTerm : str) :
  lookupMode (parseSearchTerm rawTerm) = true ->
  countryCode (parseSearchTerm rawTerm) = "us" /\ truthy rawTerm = true.
Proof.
  destruct rawTerm as [|c rawTerm]; [discriminate|].
  split; [|reflexivity]. revert H.
  rewrite parse_lookupMode.
  unfold parseSearchTerm, rawTermAfterFormat. cbv zeta.
  set (r1 := if truthy (c :: rawTerm)
                && includes ".png" (toLowerCase (c :: rawTerm))
             then trim (replaceAll pngToken (c :: rawTerm))
             else c :: rawTerm).
  destruct (search urlPattern r1) as [[url id]|]; [reflexivity|discriminate].
Qed.

End PageFacts.

(** X19.  A store URL is looked up by its id when the form is submitted, but
    not when the page is loaded with the same text as its [term] parameter:
    [onload] then runs an ordinary search for the id, within the entity read
    off the URL.  [onload] never starts a lookup. *)
Theorem X19_page_load_searches_where_submit_looks_up (term : str) :
  lookupMode (parseSearchTerm term) = true ->
  submitSearch term
  = fetchResultsLookup (searchTerm (parseSearchTerm term)) "us" /\
  firstSearch (onload (Some term) None)
  = Some (fetchResults (searchTerm (parseSearchTerm term))
            (entity (parseSearchTerm term)) "us") /\
  forall t country id c,
    firstSearch (onload t country) <> Some (fetchResultsLookup id c).
Proof.
  intros H. destruct (parse_url_branch term H) as [Hc Ht].
  split; [|split].
  - unfold submitSearch, performSearch. now rewrite H, Hc.
  - unfold onload. rewrite Ht. cbn [firstSearch performSearch orElse].
    now rewrite Hc.
  - intros t country id c. unfold onload.
    destruct t as [t|]; [|discriminate].
    destruct (truthy t); discriminate.
Qed.

Lemma X19_witness :
  firstSearch
    (onload (Some (lit "https://itunes.apple.com/us/album/x/id1440857781"))
       None)
  = Some (fetchResults "1440857781" album "us").
Proof.
  pose proof (X19_page_load_searches_where_submit_looks_up
                "https://itunes.apple.com/us/album/x/id1440857781" eq_refl)
    as (_ & H & _).
  exact H.
Defined.

(** ** The title of an album *)

Section TitleFacts.

Lemma word_table :
  forallb (fun c =>
             implb (isWordChar c)
               (negb (isWhiteSpace c) && negb (Ascii.eqb "-" c)
                && forallb (fun x => implb (eqi c x) (isWordChar x)) allChars))
    allChars = true.
Proof. vm_compute. reflexivity. Qed.

Lemma word_facts (c : ascii) :
  isWordChar c = true ->
  isWhiteSpace c = false /\ Ascii.eqb "-" c = false /\
  forall x, eqi c x = true -> isWordChar x = true.
Proof.
  intros Hc. pose proof word_table as T.
  rewrite forallb_forall in T. specialize (T c (in_allChars c)).
  rewrite Hc in T. cbn [implb] in T.
  apply andb_true_iff in T as [T T3]. apply andb_true_iff in T as [T1 T2].
  apply negb_true_iff in T1, T2. repeat split; try assumption.
  intros x Hx. rewrite forallb_forall in T3.
  specialize (T3 x (in_allChars x)). now rewrite Hx in T3.
Qed.

Lemma equalsIgnoreCase_word (w a : str) :
  forallb isWordChar w = true -> equalsIgnoreCase w a = true ->
  forallb isWordChar a = true.
Proof.
  revert a. induction w as [|c w IH]; intros [|x a] Hw H;
    try discriminate; [reflexivity|].
  cbn [forallb equalsIgnoreCase] in *.
  apply andb_true_iff in Hw as [Hc Hw]. apply andb_true_iff in H as [Hx H].
  destruct (word_facts c Hc) as (_ & _ & Hi).
  now rewrite (Hi x Hx), (IH a Hw H).
Qed.

Lemma hasWordEnd_none (w base p1 a l2 : str) :
  hasWordEnd w base = false ->
  equalsIgnoreCase w a = true ->
  headIs isWordChar l2 = false ->
  base <> p1 ++ a ++ l2.
Proof.
  unfold hasWordEnd. intros H Ha Hl ->.
  match type of H with
  | match search ?m _ with _ => _ end = _ =>
      assert (Hs : search m (p1 ++ a ++ l2) <> None)
  end.
  { apply search_complete. rewrite (litsi_app _ _ _ _ Ha).
    unfold wordEdge. unfold headIs in Hl. rewrite Hl. discriminate. }
  destruct (search _ _); [discriminate|congruence].
Qed.

Lemma stripWord_inv (w t : str) (r : hit) :
  stripWord w t = Some r ->
  exists ws1 d ws2 a r4,
    t = ws1 ++ d ++ ws2 ++ a ++ r4 /\
    forallb isWhiteSpace ws1 = true /\ (d = [] \/ d = "-") /\
    forallb isWhiteSpace ws2 = true /\
    equalsIgnoreCase w a = true /\ headIs isWordChar r4 = false.
Proof.
  unfold stripWord. intros H.
  apply star_inv in H as (ws1 & r1 & -> & H1 & H).
  assert (Hopt : exists d r2,
             r1 = d ++ r2 /\ (d = [] \/ d = lit "-") /\
             star isWhiteSpace (litsi w (wordEdge true (ret ""))) r2
             = Some r).
  { apply alt_inv in H as [Hm|Hm].
    - apply lits_inv in Hm as (r2 & -> & Hm). exists (lit "-"), r2. tauto.
    - exists [], r1. tauto. }
  clear H. destruct Hopt as (d & r2 & -> & Hd & H).
  apply star_inv in H as (ws2 & r3 & -> & H2 & H).
  apply litsi_inv in H as (a & r4 & -> & Ha & H).
  exists ws1, d, ws2, a, r4. repeat split; try assumption.
  unfold wordEdge in H. unfold headIs.
  destruct r4 as [|c r4]; [reflexivity|].
  destruct (isWordChar c); [discriminate H|reflexivity].
Qed.

Lemma space_suffix_untrimmed (base p1 t1 : str) :
  base = p1 ++ t1 -> t1 <> [] -> forallb isWhiteSpace t1 = true ->
  isTrimmed base = false.
Proof.
  intros -> Hn Hw. unfold isTrimmed.
  destruct (exists_last Hn) as (t' & c & ->).
  rewrite forallb_app in Hw. apply andb_true_iff in Hw as [_ Hc].
  cbn [forallb] in Hc. rewrite andb_true_r in Hc.
  rewrite app_assoc, rev_app_distr. cbn [rev app headIsSpace].
  rewrite Hc. apply andb_false_r.
Qed.

(** The separator and the word, at the end of a name that does not hold the
    word at the end of a word before it: they are what is removed. *)
Lemma stripWord_at_end (w base : str) :
  forallb isWordChar w = true -> w <> [] ->
  stripWord w (" - " ++ w) = Some ([], []) ->
  isTrimmed base = true ->
  hasWordEnd w base = false ->
  replace (stripWord w) (base ++ " - " ++ w) = base.
Proof.
  intros Hw Hwn Hhere Htrim Hnone.
  rewrite <- (app_nil_r base) at 2.
  change (@nil ascii) with (@nil ascii ++ @nil ascii) at 1.
  apply replace_first; [exact Hhere|].
  intros p1 t1 Eb Ht.
  destruct (stripWord w (t1 ++ " - " ++ w)) as [r|] eqn:Em;
    [exfalso|reflexivity].
  apply stripWord_inv in Em
    as (ws1 & d & ws2 & a & r4 & E & H1 & Hd & H2 & Ha & Hr).
  pose proof (equalsIgnoreCase_word w a Hw Ha) as Haw.
  assert (Han : a <> []).
  { intros ->. destruct w; [congruence|discriminate Ha]. }
  rewrite (app_assoc ws1), (app_assoc (ws1 ++ d)) in E.
  set (Y := (ws1 ++ d) ++ ws2) in *.
  apply app_eq_app in E as [l [[E1 E2]|[E1 E2]]].
  - (* the word begins after the separators that begin inside the name *)
    assert (Hin : exists l2, l = a ++ l2 /\ r4 = l2 ++ " - " ++ w).
    { symmetry in E2.
      apply app_eq_app in E2 as [l2 [[E3 E4]|[E3 E4]]].
      - exists l2. now split.
      - destruct l2 as [|x l2].
        + exists []. rewrite app_nil_r in E3 |- *. cbn [app] in E4 |- *.
          now subst.
        + exfalso.
          change (lit " - " ++ w)
            with (" "%char :: "-"%char :: " "%char :: w) in E4.
          cbn [app] in E4. injection E4 as <- _.
          subst a. rewrite forallb_app in Haw.
          apply andb_true_iff in Haw as [_ Haw]. discriminate Haw. }
    destruct Hin as (l2 & -> & ->).
    apply (hasWordEnd_none w base (p1 ++ Y) a l2 Hnone Ha).
    + destruct l2; [reflexivity|exact Hr].
    + now rewrite Eb, E1, <- !app_assoc.
  - (* the word is the one at the end: the separators reach into the name *)
    assert (Hl : l = " - ").
    { assert (Hsep : forallb (fun c => isWhiteSpace c || Ascii.eqb "-" c) l
                     = true).
      { assert (HY : forallb (fun c => isWhiteSpace c || Ascii.eqb "-" c) Y
                     = true).
        { unfold Y. rewrite !forallb_app.
          assert (Hws : forall u, forallb isWhiteSpace u = true ->
                    forallb (fun c => isWhiteSpace c || Ascii.eqb "-" c) u
                    = true).
          { induction u as [|c u IH]; [reflexivity|]. cbn [forallb].
            intros H. apply andb_true_iff in H as [Hc H].
            now rewrite Hc, (IH H). }
          rewrite (Hws _ H1), (Hws _ H2).
          destruct Hd as [-> | ->]; reflexivity. }
        rewrite E1, forallb_app in HY.
        now apply andb_true_iff in HY as [_ HY]. }
      assert (Hhead : forall c u, a = c :: u ->
                (isWhiteSpace c || Ascii.eqb "-" c) = false).
      { intros c u ->. cbn [forallb] in Haw.
        apply andb_true_iff in Haw as [Hc _].
        destruct (word_facts c Hc) as (Hs & Hm & _). now rewrite Hs, Hm. }
      destruct a as [|c a]; [congruence|].
      specialize (Hhead c a eq_refl).
      change (lit " - " ++ w)
        with (" "%char :: "-"%char :: " "%char :: w) in E2.
      destruct l as [|x1 [|x2 [|x3 [|x4 l]]]]; cbn [app] in E2.
      + injection E2 as <- _. discriminate Hhead.
      + injection E2 as _ <- _. discriminate Hhead.
      + injection E2 as _ _ <- _. discriminate Hhead.
      + injection E2 as <- <- <- _. reflexivity.
      + injection E2 as _ _ _ E2.
        destruct w as [|y w]; [congruence|]. injection E2 as <- _.
        cbn [forallb] in Hw. apply andb_true_iff in Hw as [Hy _].
        destruct (word_facts y Hy) as (Hs & Hm & _).
        cbn [forallb] in Hsep. rewrite !andb_true_iff in Hsep.
        destruct Hsep as (_ & _ & _ & Hsep & _).
        rewrite Hs, Hm in Hsep. discriminate Hsep. }
    subst l.
    assert (Hsp : forallb isWhiteSpace t1 = true).
    { unfold Y in E1. destruct Hd as [-> | ->].
      - rewrite app_nil_r in E1.
        assert (Hall : forallb isWhiteSpace (t1 ++ " - ") = true)
          by (rewrite <- E1, forallb_app, H1, H2; reflexivity).
        rewrite forallb_app in Hall.
        apply andb_true_iff in Hall as [_ Hall]. discriminate Hall.
      - rewrite <- app_assoc in E1.
        apply app_eq_app in E1 as [l3 [[E3 E4]|[E3 E4]]].
        + rewrite E3, forallb_app in H1.
          now apply andb_true_iff in H1 as [H1 _].
        + exfalso. destruct l3 as [|x l3].
          * cbn [app] in E4. discriminate E4.
          * change (lit "-" ++ ws2) with ("-"%char :: ws2) in E4.
            cbn [app] in E4. injection E4 as _ E4.
            subst ws2. rewrite forallb_app in H2.
            apply andb_true_iff in H2 as [_ H2]. discriminate H2. }
    rewrite (space_suffix_untrimmed base p1 t1 Eb Ht Hsp) in Htrim.
    discriminate Htrim.
Qed.

Lemma testWordFrom_later (w a t : str) (c : ascii) (b : bool) :
  testWordFrom w (isWordChar c) t = true ->
  testWordFrom w b (a ++ c :: t) = true.
Proof.
  intros H. revert b. induction a as [|x a IH]; intros b.
  - cbn [app testWordFrom]. destruct (wholeWord w b (c :: t)); [reflexivity|].
    exact H.
  - cbn [app testWordFrom].
    destruct (wholeWord w b (x :: a ++ c :: t)); [reflexivity|]. apply IH.
Qed.

Lemma testWord_at_end (w base : str) :
  testWordFrom w false w = true ->
  testWord w (base ++ " - " ++ w) = true.
Proof.
  intros H. unfold testWord.
  change (base ++ " - " ++ w)
    with (base ++ " -" ++ " "%char :: w).
  rewrite app_assoc. now apply testWordFrom_later.
Qed.

End TitleFacts.

(** X20.  An album called [base - EP] is shown as [base [EP]], when [base]
    has no white space at its ends and does not itself hold [EP] (in any
    case) at the end of a word. *)
Theorem X20_ep_album_title (base : str) :
  isTrimmed base = true ->
  hasWordEnd "EP" base = false ->
  displayTitle album (base ++ " - EP") = base ++ " [EP]".
Proof.
  intros Htrim Hnone. unfold displayTitle. cbv zeta.
  change (base ++ " - EP") with (base ++ " - " ++ "EP").
  rewrite (testWord_at_end "EP" base eq_refl).
  rewrite (stripWord_at_end "EP" base eq_refl ltac:(discriminate) eq_refl
             Htrim Hnone).
  now rewrite (trim_fixed base Htrim).
Qed.

Lemma X20_witness :
  displayTitle album "Midnight Drive - EP" = "Midnight Drive [EP]".
Proof.
  apply (X20_ep_album_title "Midnight Drive"); reflexivity.
Defined.

(** X21.  An album called [base - Single] whose name holds no word [EP] is
    shown as [base [Single]], when [base] has no white space at its ends and
    does not itself hold [Single] (in any case) at the end of a word. *)
Theorem X21_single_album_title (base : str) :
  isTrimmed base = true ->
  hasWordEnd "Single" base = false ->
  testWord "EP" (base ++ " - Single") = false ->
  displayTitle album (base ++ " - Single") = base ++ " [Single]".
Proof.
  intros Htrim Hnone Hep. unfold displayTitle. cbv zeta.
  rewrite Hep.
  change (base ++ " - Single") with (base ++ " - " ++ "Single").
  rewrite (testWord_at_end "Single" base eq_refl).
  rewrite (stripWord_at_end "Single" base eq_refl ltac:(discriminate) eq_refl
             Htrim Hnone).
  now rewrite (trim_fixed base Htrim).
Qed.

Lemma X21_witness :
  displayTitle album "Blinding Lights - Single" = "Blinding Lights [Single]".
Proof.
  apply (X21_single_album_title "Blinding Lights"); reflexivity.
Defined.

(** The pattern that removes the word has no [\b] before it: the word that
    goes can be the end of a longer one. *)
Example displayTitle_inside_a_word :
  displayTitle album "Deep Cuts - EP" = "De Cuts - EP [EP]".
Proof. reflexivity. Qed.
